(** * Differential-drive simulator: the main loop of [simulator.py]

    A shallow embedding of [main] from [src/simulator.py].  The loop-local
    variables of [main] are gathered in the record [Sim]; one iteration of
    the [while running] loop is the function [tick].  Python floats are
    read as mathematical reals ([R], with [sin], [cos] and [PI] of the
    standard library), Python ints used as indices as [Z], strings as
    [string], and [None]-or-string variables as [option string].

    The reals round nothing.  Where the number of integrator steps is at
    stake, the arithmetic on [remaining_distance] is replayed in binary64
    ([PrimFloat]) as well: see [simulate_f]. *)

From Stdlib Require Import Reals Lra Lia ZArith List String Bool Floats.
Import ListNotations.
Open Scope R_scope.

(** ** Comparisons on reals as booleans *)

Definition Rleb (a b : R) : bool := if Rle_dec a b then true else false.
Definition Rltb (a b : R) : bool := if Rlt_dec a b then true else false.
Definition Reqb (a b : R) : bool := if Req_dec_T a b then true else false.

(** [math.ceil] *)
Definition Rceil (r : R) : Z := (- Int_part (- r))%Z.

(** ** Exceptions

    A Python exception ends [main]; a computation that may raise returns
    [None] when it does.  The exceptions kept are [ZeroDivisionError]
    (float division) and [IndexError] (list lookup).  [int()] of an
    infinite or undefined float also raises in Python; the reals have no
    such values, so that exception has no counterpart here. *)

Definition bind {A B : Type} (o : option A) (f : A -> option B) : option B :=
  match o with
  | Some a => f a
  | None => None
  end.

Notation "v <- c ;; k" := (bind c (fun v => k))
  (at level 61, c at next level, right associativity).
Notation "' pat <- c ;; k" := (bind c (fun v => match v with pat => k end))
  (at level 61, pat pattern, c at next level, right associativity).

(** [a / b] on floats. *)
Definition pdiv (a b : R) : option R :=
  if Reqb b 0 then None else Some (a / b).

(** ** Configuration (simulator.py, lines 23-29) *)

Definition WIDTH : Z := 1600.
Definition HEIGHT : Z := 1200.
Definition SCROLL_BUFFER : Z := 100.
Definition PAN_SPEED : Z := 5.
Definition ZOOM_STEP : R := 5 / 100.
Definition ZOOM_MIN : Z := 1.
Definition ZOOM_MAX : Z := 20.

(** ** Data classes (lines 32-64) *)

Record RobotParameters := {
  wheel_diameter : R;
  robot_width : R;
  scale : R;
  step_size : R;
  axle_offset : R
}.

Definition half_robot_width (params : RobotParameters) : R :=
  robot_width params / 2.

Definition wheel_circumference (params : RobotParameters) : R :=
  PI * wheel_diameter params.

Record InitialConditions := {
  init_x : R;
  init_y : R;
  init_heading : R
}.

Record DisplayOptions := {
  show_origin : bool;
  show_initial_position : bool;
  show_path : bool;
  show_turns : bool;
  show_heading : bool;
  show_axle : bool;
  show_grid : bool
}.

(** A movement is the tuple [(direction, wheel_cmd, rotations)]. *)
Definition Movement : Type := string * string * R.

Definition wheel_of (m : Movement) : string := snd (fst m).
Definition rotations_of (m : Movement) : R := snd m.

(** ** The loop-local state of [main] (lines 75-100) *)

(** [x, y, heading, axle_x, axle_y] *)
Record Pose := {
  x : R;
  y : R;
  heading : R;
  axle_x : R;
  axle_y : R
}.

(** [movement_index, remaining_distance, active_wheel_command,
    direction_sign, previous_wheel, instruction_markers] *)
Record Command := {
  movement_index : nat;
  remaining_distance : R;
  active_wheel_command : option string;
  direction_sign : Z;
  previous_wheel : option string;
  instruction_markers : list (R * R)
}.

(** [paused, frame_index, sim_frame_index, simulation_finished, scrubbing,
    scrubbing_direction, sim_frame_index_before_scrub, running] *)
Record Playback := {
  paused : bool;
  frame_index : Z;
  sim_frame_index : Z;
  simulation_finished : bool;
  scrubbing : bool;
  scrubbing_direction : Z;
  sim_frame_index_before_scrub : Z;
  running : bool
}.

(** [scroll_x, scroll_y, zoom] *)
Record Camera := {
  scroll_x : R;
  scroll_y : R;
  zoom : R
}.

(** The dict appended by [record_frame] (lines 138-150). *)
Record Frame := {
  f_x : R;
  f_y : R;
  f_heading : R;
  f_axle_x : R;
  f_axle_y : R;
  f_movement_index : nat;
  f_remaining_distance : R;
  f_active_wheel_command : option string;
  f_direction_sign : Z;
  f_instruction_markers : list (R * R)
}.

Record Sim := {
  pose : Pose;
  cmd : Command;
  play : Playback;
  cam : Camera;
  frames : list Frame;
  path : list (R * R)
}.

Definition record_frame (p : Pose) (c : Command) : Frame :=
  {| f_x := x p;
     f_y := y p;
     f_heading := heading p;
     f_axle_x := axle_x p;
     f_axle_y := axle_y p;
     f_movement_index := movement_index c;
     f_remaining_distance := remaining_distance c;
     f_active_wheel_command := active_wheel_command c;
     f_direction_sign := direction_sign c;
     f_instruction_markers := instruction_markers c |}.

(** [len(frames)] as a Python int. *)
Definition len {A : Type} (l : list A) : Z := Z.of_nat (List.length l).

(** State before the loop is entered (lines 75-100, 152-155). *)
Definition initial_pose (params : RobotParameters) (init : InitialConditions)
  : Pose :=
  {| x := init_x init;
     y := init_y init;
     heading := init_heading init;
     axle_x := init_x init - axle_offset params * sin (init_heading init);
     axle_y := init_y init - axle_offset params * cos (init_heading init) |}.

Definition initial_command : Command :=
  {| movement_index := 0;
     remaining_distance := 0;
     active_wheel_command := None;
     direction_sign := 1;
     previous_wheel := None;
     instruction_markers := [] |}.

Definition initial_playback : Playback :=
  {| paused := false;
     frame_index := 0;
     sim_frame_index := 0;
     simulation_finished := false;
     scrubbing := false;
     scrubbing_direction := 0;
     sim_frame_index_before_scrub := 0;
     running := true |}.

Definition initial_state (params : RobotParameters) (init : InitialConditions)
  : Sim :=
  let p := initial_pose params init in
  {| pose := p;
     cmd := initial_command;
     play := initial_playback;
     cam := {| scroll_x := init_x init;
               scroll_y := init_y init;
               zoom := scale params |};
     frames := [record_frame p initial_command];
     path := [(x p, y p)] |}.

(** ** Input of one loop iteration *)

Inductive key :=
  | K_SPACE | K_ESCAPE | K_0 | K_LEFTBRACKET | K_RIGHTBRACKET
  | K_LEFT | K_RIGHT | K_UP | K_DOWN
  | K_EQUALS | K_PLUS | K_MINUS | K_UNDERSCORE
  | K_OTHER.

Inductive event :=
  | QUIT
  | KEYDOWN (k : key)
  | KEYUP (k : key)
  | OTHER_EVENT.

(** [pygame.event.get()] and [pygame.key.get_pressed()] of one iteration. *)
Record Input := {
  events : list event;
  keys : key -> bool
}.

(** ** Event handling (lines 160-211) *)

Definition list_min (l : list R) : R :=
  match l with
  | [] => 0
  | a :: t => fold_left Rmin t a
  end.

Definition list_max (l : list R) : R :=
  match l with
  | [] => 0
  | a :: t => fold_left Rmax t a
  end.

(** Key [0]: fit the view to the recorded frames (lines 178-194). *)
Definition reset_view (fs : list Frame) (c : Camera) : Camera :=
  match fs with
  | [] => c
  | _ =>
      let xs := map f_x fs in
      let ys := map f_y fs in
      let min_x := list_min xs in
      let max_x := list_max xs in
      let min_y := list_min ys in
      let max_y := list_max ys in
      let width := max_x - min_x in
      let height := max_y - min_y in
      let padding := Rmax width height * (1 / 10) in
      let width := width + padding in
      let height := height + padding in
      let zoom_x :=
        if Reqb width 0 then IZR ZOOM_MAX else IZR WIDTH / width in
      let zoom_y :=
        if Reqb height 0 then IZR ZOOM_MAX else IZR HEIGHT / height in
      let zoom := Rmin (Rmin zoom_x zoom_y) (IZR ZOOM_MAX) in
      let zoom := Rmax zoom (IZR ZOOM_MIN) in
      {| scroll_x := (min_x + max_x) / 2;
         scroll_y := (min_y + max_y) / 2;
         zoom := zoom |}
  end.

Definition with_play (s : Sim) (pl : Playback) : Sim :=
  {| pose := pose s; cmd := cmd s; play := pl; cam := cam s;
     frames := frames s; path := path s |}.

Definition with_cam (s : Sim) (c : Camera) : Sim :=
  {| pose := pose s; cmd := cmd s; play := play s; cam := c;
     frames := frames s; path := path s |}.

(** Space (lines 165-173). *)
Definition toggle_pause (pl : Playback) : Playback :=
  if negb (paused pl) then
    {| paused := true;
       frame_index := frame_index pl;
       sim_frame_index := sim_frame_index pl;
       simulation_finished := simulation_finished pl;
       scrubbing := scrubbing pl;
       scrubbing_direction := scrubbing_direction pl;
       sim_frame_index_before_scrub := sim_frame_index pl;
       running := running pl |}
  else
    {| paused := false;
       frame_index := sim_frame_index_before_scrub pl;
       sim_frame_index := sim_frame_index_before_scrub pl;
       simulation_finished := simulation_finished pl;
       scrubbing := false;
       scrubbing_direction := 0;
       sim_frame_index_before_scrub := sim_frame_index_before_scrub pl;
       running := running pl |}.

(** [[] and []] pressed (lines 196-206). *)
Definition start_scrub (dir : Z) (pl : Playback) : Playback :=
  if paused pl || simulation_finished pl then
    {| paused := paused pl;
       frame_index := frame_index pl;
       sim_frame_index := sim_frame_index pl;
       simulation_finished := simulation_finished pl;
       scrubbing := true;
       scrubbing_direction := dir;
       sim_frame_index_before_scrub := sim_frame_index pl;
       running := running pl |}
  else pl.

(** [[] or []] released (lines 208-211). *)
Definition stop_scrub (pl : Playback) : Playback :=
  {| paused := paused pl;
     frame_index := frame_index pl;
     sim_frame_index := sim_frame_index pl;
     simulation_finished := simulation_finished pl;
     scrubbing := false;
     scrubbing_direction := 0;
     sim_frame_index_before_scrub := sim_frame_index_before_scrub pl;
     running := running pl |}.

(** [running = False] (lines 161-162, 175-176). *)
Definition stop_running (pl : Playback) : Playback :=
  {| paused := paused pl;
     frame_index := frame_index pl;
     sim_frame_index := sim_frame_index pl;
     simulation_finished := simulation_finished pl;
     scrubbing := scrubbing pl;
     scrubbing_direction := scrubbing_direction pl;
     sim_frame_index_before_scrub := sim_frame_index_before_scrub pl;
     running := false |}.

Definition handle_event (s : Sim) (e : event) : Sim :=
  match e with
  | QUIT => with_play s (stop_running (play s))
  | KEYDOWN K_SPACE => with_play s (toggle_pause (play s))
  | KEYDOWN K_ESCAPE => with_play s (stop_running (play s))
  | KEYDOWN K_0 => with_cam s (reset_view (frames s) (cam s))
  | KEYDOWN K_LEFTBRACKET => with_play s (start_scrub (-1) (play s))
  | KEYDOWN K_RIGHTBRACKET => with_play s (start_scrub 1 (play s))
  | KEYDOWN _ => s
  | KEYUP K_LEFTBRACKET => with_play s (stop_scrub (play s))
  | KEYUP K_RIGHTBRACKET => with_play s (stop_scrub (play s))
  | KEYUP _ => s
  | OTHER_EVENT => s
  end.

Definition handle_events (s : Sim) (evs : list event) : Sim :=
  fold_left handle_event evs s.

(** ** Pan and zoom controls (lines 213-227) *)

Definition pan_controls (ks : key -> bool) (c : Camera) : option Camera :=
  let z := zoom c in
  sx <- (if ks K_LEFT then d <- pdiv (IZR PAN_SPEED) z ;; Some (scroll_x c - d)
         else Some (scroll_x c)) ;;
  sx <- (if ks K_RIGHT then d <- pdiv (IZR PAN_SPEED) z ;; Some (sx + d)
         else Some sx) ;;
  sy <- (if ks K_UP then d <- pdiv (IZR PAN_SPEED) z ;; Some (scroll_y c + d)
         else Some (scroll_y c)) ;;
  sy <- (if ks K_DOWN then d <- pdiv (IZR PAN_SPEED) z ;; Some (sy - d)
         else Some sy) ;;
  let z := if ks K_EQUALS || ks K_PLUS
           then Rmin (z + ZOOM_STEP) (IZR ZOOM_MAX) else z in
  let z := if ks K_MINUS || ks K_UNDERSCORE
           then Rmax (z - ZOOM_STEP) (IZR ZOOM_MIN) else z in
  Some {| scroll_x := sx; scroll_y := sy; zoom := z |}.

(** ** Scrubbing (lines 229-234) *)

Definition handle_scrubbing (fs : list Frame) (pl : Playback) : Playback :=
  if scrubbing pl && (paused pl || simulation_finished pl) then
    let scrub_speed := 1%Z in
    let new_frame_index :=
      (frame_index pl + scrubbing_direction pl * scrub_speed)%Z in
    let new_frame_index := Z.max 0 (Z.min (len fs - 1) new_frame_index) in
    {| paused := paused pl;
       frame_index := new_frame_index;
       sim_frame_index := sim_frame_index pl;
       simulation_finished := simulation_finished pl;
       scrubbing := scrubbing pl;
       scrubbing_direction := scrubbing_direction pl;
       sim_frame_index_before_scrub := sim_frame_index_before_scrub pl;
       running := running pl |}
  else pl.

(** ** Main simulation block (lines 236-300) *)

(** [wheel_cmd != previous_wheel], where [previous_wheel] may be [None]. *)
Definition differs_from (wheel_cmd : string) (prev : option string) : bool :=
  match prev with
  | None => true
  | Some w => negb (String.eqb wheel_cmd w)
  end.

(** [active_wheel_command == w], where the variable may be [None]. *)
Definition command_is (active : option string) (w : string) : bool :=
  match active with
  | None => false
  | Some a => String.eqb a w
  end.

(** Taking the next movement (lines 239-248). *)
Definition activate (params : RobotParameters) (display : DisplayOptions)
  (m : Movement) (p : Pose) (c : Command) : Command :=
  let '(direction, wheel_cmd, rotations) := m in
  let mark := show_turns display && differs_from wheel_cmd (previous_wheel c) in
  {| movement_index := S (movement_index c);
     remaining_distance := rotations * wheel_circumference params;
     active_wheel_command := Some wheel_cmd;
     direction_sign := if String.eqb direction "forward" then 1%Z else (-1)%Z;
     previous_wheel := if mark then Some wheel_cmd else previous_wheel c;
     instruction_markers :=
       if mark then instruction_markers c ++ [(x p, y p)]
       else instruction_markers c |}.

(** Both wheels (lines 254-259). *)
Definition straight_step (step : R) (sign : Z) (p : Pose) : Pose :=
  let dx := sin (heading p) * step * IZR sign in
  let dy := cos (heading p) * step * IZR sign in
  {| x := x p + dx;
     y := y p + dy;
     heading := heading p;
     axle_x := axle_x p + dx;
     axle_y := axle_y p + dy |}.

(** One wheel (lines 262-279). *)
Definition pivot_step (params : RobotParameters) (step : R) (sign : Z)
  (active : option string) (p : Pose) : option Pose :=
  theta <- pdiv (IZR sign * step) (robot_width params) ;;
  let pivot_x := axle_x p - half_robot_width params * cos (heading p) in
  let pivot_y := axle_y p + half_robot_width params * sin (heading p) in
  let dx_local := half_robot_width params * cos (heading p) in
  let dy_local := - half_robot_width params * sin (heading p) in
  let cos_theta := cos theta in
  let sin_theta := sin theta in
  let x_rel_pivot := dx_local * cos_theta - dy_local * sin_theta in
  let y_rel_pivot := dx_local * sin_theta + dy_local * cos_theta in
  let axle_x' := pivot_x + x_rel_pivot in
  let axle_y' := pivot_y + y_rel_pivot in
  Some {| x := axle_offset params * sin (heading p) + axle_x';
          y := axle_offset params * cos (heading p) + axle_y';
          heading := if command_is active "left" then heading p + theta
                     else heading p - theta;
          axle_x := axle_x';
          axle_y := axle_y' |}.

Definition with_remaining (c : Command) (r : R) : Command :=
  {| movement_index := movement_index c;
     remaining_distance := r;
     active_wheel_command := active_wheel_command c;
     direction_sign := direction_sign c;
     previous_wheel := previous_wheel c;
     instruction_markers := instruction_markers c |}.

(** The integrator: the body of [if remaining_distance > 0] up to
    [remaining_distance -= step] (lines 251-281). *)
Definition integrator_step (params : RobotParameters) (p : Pose) (c : Command)
  : option (Pose * Command) :=
  let step := Rmin (step_size params) (remaining_distance c) in
  p' <- (if command_is (active_wheel_command c) "both"
         then Some (straight_step step (direction_sign c) p)
         else pivot_step params step (direction_sign c)
                (active_wheel_command c) p) ;;
  Some (p', with_remaining c (remaining_distance c - step)).

(** Keeping the robot in view (lines 288-296). *)
Definition autoscroll (p : Pose) (c : Camera) : option Camera :=
  let screen_x := IZR (WIDTH / 2) + (x p - scroll_x c) * zoom c in
  let screen_y := IZR (HEIGHT / 2) - (y p - scroll_y c) * zoom c in
  sx <- (if Rltb (IZR (WIDTH - SCROLL_BUFFER)) screen_x then
           d <- pdiv (screen_x - IZR (WIDTH - SCROLL_BUFFER)) (zoom c) ;;
           Some (scroll_x c + d)
         else if Rltb screen_x (IZR SCROLL_BUFFER) then
           d <- pdiv (IZR SCROLL_BUFFER - screen_x) (zoom c) ;;
           Some (scroll_x c - d)
         else Some (scroll_x c)) ;;
  sy <- (if Rltb (IZR (HEIGHT - SCROLL_BUFFER)) screen_y then
           d <- pdiv (screen_y - IZR (HEIGHT - SCROLL_BUFFER)) (zoom c) ;;
           Some (scroll_y c - d)
         else if Rltb screen_y (IZR SCROLL_BUFFER) then
           d <- pdiv (IZR SCROLL_BUFFER - screen_y) (zoom c) ;;
           Some (scroll_y c + d)
         else Some (scroll_y c)) ;;
  Some {| scroll_x := sx; scroll_y := sy; zoom := zoom c |}.

(** [any([keys[K_LEFT], keys[K_RIGHT], keys[K_UP], keys[K_DOWN]])] *)
Definition any_pan_key (ks : key -> bool) : bool :=
  ks K_LEFT || ks K_RIGHT || ks K_UP || ks K_DOWN.

(** Is the block of line 237 entered? *)
Definition advancing (pl : Playback) : bool :=
  negb (paused pl) && negb (scrubbing pl) && negb (simulation_finished pl).

(** Lines 238-248: when the active movement is used up and another one is
    left, take it. *)
Definition take_movement (params : RobotParameters)
  (movements : list Movement) (display : DisplayOptions) (p : Pose)
  (c : Command) : Command :=
  if Rleb (remaining_distance c) 0
     && (movement_index c <? List.length movements)%nat
  then match nth_error movements (movement_index c) with
       | Some m => activate params display m p c
       | None => c
       end
  else c.

(** Lines 250-282: one integrator step when distance remains. *)
Definition move (params : RobotParameters) (p : Pose) (c : Command)
  (pth : list (R * R)) : option (Pose * Command * list (R * R)) :=
  if Rltb 0 (remaining_distance c) then
    '(p', c') <- integrator_step params p c ;;
    Some (p', c', pth ++ [(x p', y p')])
  else Some (p, c, pth).

(** Lines 284-285. *)
Definition finished_after (movements : list Movement) (c : Command)
  (pl : Playback) : bool :=
  if (List.length movements <=? movement_index c)%nat
     && Rleb (remaining_distance c) 0
  then true else simulation_finished pl.

(** Lines 299-300, with the flag of lines 284-285. *)
Definition advanced_playback (pl : Playback) (finished : bool)
  (fs : list Frame) : Playback :=
  {| paused := paused pl;
     frame_index := len fs - 1;
     sim_frame_index := len fs - 1;
     simulation_finished := finished;
     scrubbing := scrubbing pl;
     scrubbing_direction := scrubbing_direction pl;
     sim_frame_index_before_scrub := sim_frame_index_before_scrub pl;
     running := running pl |}.

Definition simulate (params : RobotParameters) (movements : list Movement)
  (display : DisplayOptions) (ks : key -> bool) (s : Sim) : option Sim :=
  if advancing (play s) then
    let c := take_movement params movements display (pose s) (cmd s) in
    '(p, c, pth) <- move params (pose s) c (path s) ;;
    let finished := finished_after movements c (play s) in
    (* lines 287-296 *)
    cm <- (if negb finished && negb (any_pan_key ks)
           then autoscroll p (cam s) else Some (cam s)) ;;
    (* lines 298-300 *)
    let fs := frames s ++ [record_frame p c] in
    Some {| pose := p;
            cmd := c;
            play := advanced_playback (play s) finished fs;
            cam := cm;
            frames := fs;
            path := pth |}
  else Some s.

(** ** Drawing the current frame (lines 302-359)

    Only what the drawing code computes from the state is kept: the frame it
    looks up, the wheel positions it derives, and the places where it can
    raise.  The pygame calls themselves only paint the screen. *)

(** [l[i]] for a Python int [i]: negative indices count from the end. *)
Definition py_index {A : Type} (l : list A) (i : Z) : option A :=
  if (0 <=? i)%Z then nth_error l (Z.to_nat i)
  else if (- len l <=? i)%Z then nth_error l (Z.to_nat (len l + i))
  else None.

(** Wheel positions (lines 326-330). *)
Definition left_wheel (params : RobotParameters) (ax ay h : R) : R * R :=
  let half_width := robot_width params / 2 in
  (ax - half_width * cos h, ay + half_width * sin h).

Definition right_wheel (params : RobotParameters) (ax ay h : R) : R * R :=
  let half_width := robot_width params / 2 in
  (ax + half_width * cos h, ay - half_width * sin h).

Definition left_wheel_of (params : RobotParameters) (p : Pose) : R * R :=
  left_wheel params (axle_x p) (axle_y p) (heading p).

Definition right_wheel_of (params : RobotParameters) (p : Pose) : R * R :=
  right_wheel params (axle_x p) (axle_y p) (heading p).

Record DrawState := {
  draw_x : R;
  draw_y : R;
  draw_heading : R;
  draw_axle_x : R;
  draw_axle_y : R;
  draw_instruction_markers : list (R * R);
  draw_left_wheel : R * R;
  draw_right_wheel : R * R
}.

(** [draw_grid] (lines 102-131) divides by [zoom] before anything else. *)
Definition draw_grid (c : Camera) : option unit :=
  _ <- pdiv (IZR WIDTH / 2) (zoom c) ;; Some tt.

Definition draw (params : RobotParameters) (display : DisplayOptions)
  (s : Sim) : option DrawState :=
  f <- (match frames s with
        | [] => Some (record_frame (pose s) (cmd s))
        | _ => py_index (frames s) (frame_index (play s))
        end) ;;
  _ <- (if show_grid display then draw_grid (cam s) else Some tt) ;;
  Some {| draw_x := f_x f;
          draw_y := f_y f;
          draw_heading := f_heading f;
          draw_axle_x := f_axle_x f;
          draw_axle_y := f_axle_y f;
          draw_instruction_markers := f_instruction_markers f;
          draw_left_wheel :=
            left_wheel params (f_axle_x f) (f_axle_y f) (f_heading f);
          draw_right_wheel :=
            right_wheel params (f_axle_x f) (f_axle_y f) (f_heading f) |}.

(** ** One iteration of [while running] (lines 157-361) *)

(** Lines 160-300: everything before the drawing. *)
Definition update (params : RobotParameters) (movements : list Movement)
  (display : DisplayOptions) (i : Input) (s : Sim) : option Sim :=
  let s := handle_events s (events i) in
  cm <- pan_controls (keys i) (cam s) ;;
  let s := with_cam s cm in
  let s := with_play s (handle_scrubbing (frames s) (play s)) in
  simulate params movements display (keys i) s.

Definition tick (params : RobotParameters) (movements : list Movement)
  (display : DisplayOptions) (i : Input) (s : Sim) : option Sim :=
  s <- update params movements display i s ;;
  _ <- draw params display s ;;
  Some s.

(** The loop, fed one [Input] per iteration; it stops when [running] is
    cleared or the inputs are used up, and yields [None] if an iteration
    raised. *)
Fixpoint run (params : RobotParameters) (movements : list Movement)
  (display : DisplayOptions) (ins : list Input) (s : Sim) : option Sim :=
  match ins with
  | [] => Some s
  | i :: rest =>
      if running (play s) then
        s' <- tick params movements display i s ;;
        run params movements display rest s'
      else Some s
  end.

(** [main] up to the given inputs. *)
Definition main (params : RobotParameters) (init : InitialConditions)
  (movements : list Movement) (display : DisplayOptions) (ins : list Input)
  : option Sim :=
  run params movements display ins (initial_state params init).

(** An iteration with no event and no key held. *)
Definition idle : Input := {| events := []; keys := fun _ => false |}.

(** The pose fields of a frame. *)
Definition frame_pose (f : Frame) : Pose :=
  {| x := f_x f; y := f_y f; heading := f_heading f;
     axle_x := f_axle_x f; axle_y := f_axle_y f |}.

(** Target distance of a movement (line 241). *)
Definition target_distance (params : RobotParameters) (m : Movement) : R :=
  rotations_of m * wheel_circumference params.

(** [ceil(targetDistance / stepSize)] *)
Definition steps_of (params : RobotParameters) (m : Movement) : Z :=
  Rceil (target_distance params m / step_size params).

(** [sum over commands of ceil(targetDistance / stepSize)] *)
Definition total_steps (params : RobotParameters) (movements : list Movement)
  : Z :=
  fold_right (fun m acc => (steps_of params m + acc)%Z) 0%Z movements.

(** The invariant of the data model:
    [axle = referencePoint - axleOffset * (sin h, cos h)]. *)
Definition axle_relation (params : RobotParameters) (p : Pose) : Prop :=
  axle_x p = x p - axle_offset params * sin (heading p) /\
  axle_y p = y p - axle_offset params * cos (heading p).


(** The set-up of [run_simulator.py]. *)
Definition demo_params : RobotParameters :=
  {| wheel_diameter := 20;
     robot_width := 70;
     scale := 5;
     step_size := 1 / 2;
     axle_offset := -40 |}.

Definition demo_init : InitialConditions :=
  {| init_x := -30; init_y := -20; init_heading := PI / 6 |}.

Definition demo_movements : list Movement :=
  [ ("forward", "left", 1);
    ("forward", "right", 1);
    ("forward", "both", 1);
    ("backward", "left", 1);
    ("backward", "right", 1);
    ("backward", "both", 1) ]%string.

(** The selector of the movement before the [k]-th one, if any. *)
Definition prev_selector (movements : list Movement) (k : nat)
  : option string :=
  match k with
  | O => None
  | S j => option_map wheel_of (nth_error movements j)
  end.

(** The marker rule at the activation of a movement between two states:
    a marker at the reference point is appended exactly when the selector
    differs from the one of the movement before. *)
Definition marker_rule (movements : list Movement) (s s' : Sim) : Prop :=
  forall m,
    nth_error movements (movement_index (cmd s)) = Some m ->
    movement_index (cmd s') = S (movement_index (cmd s)) ->
    (instruction_markers (cmd s')
       = instruction_markers (cmd s) ++ [(x (pose s), y (pose s))]
     <-> Some (wheel_of m)
         <> prev_selector movements (movement_index (cmd s)))
    /\ (Some (wheel_of m) = prev_selector movements (movement_index (cmd s))
        -> instruction_markers (cmd s') = instruction_markers (cmd s)).

(** Keys that only move the camera. *)
Definition camera_key (k : key) : bool :=
  match k with
  | K_0 | K_LEFT | K_RIGHT | K_UP | K_DOWN
  | K_EQUALS | K_PLUS | K_MINUS | K_UNDERSCORE => true
  | _ => false
  end.

Definition control_event (e : event) : bool :=
  match e with
  | KEYDOWN k | KEYUP k => negb (camera_key k)
  | _ => true
  end.

(** Two inputs with the same pause, scrub and quit events; the camera
    events and the held keys are free. *)
Definition same_control (i1 i2 : Input) : Prop :=
  filter control_event (events i1) = filter control_event (events i2).

(** What the trajectory is computed from. *)
Definition trajectory_state (c : Command) : nat * R * option string * Z :=
  (movement_index c, remaining_distance c, active_wheel_command c,
   direction_sign c).

Definition core (s : Sim)
  : Pose * (nat * R * option string * Z) * Playback * list Pose :=
  (pose s, trajectory_state (cmd s), play s, map frame_pose (frames s)).

(** The indices kept by the playback stay inside the recorded frames, and
    scrubbing is only on with a direction, in a paused or finished run. *)
Definition play_inv (n : Z) (pl : Playback) : Prop :=
  (0 <= frame_index pl < n)%Z
  /\ (0 <= sim_frame_index pl < n)%Z
  /\ (0 <= sim_frame_index_before_scrub pl < n)%Z
  /\ (scrubbing pl = true ->
      (scrubbing_direction pl = 1%Z \/ scrubbing_direction pl = (-1)%Z)
      /\ paused pl || simulation_finished pl = true).

(** The state is at the start of, or inside, the [k]-th movement, which
    drives both wheels, and the heading is [h0]. *)
Definition in_both_command (k : nat) (h0 : R) (s : Sim) : Prop :=
  heading (pose s) = h0
  /\ ((movement_index (cmd s) = k /\ remaining_distance (cmd s) <= 0)
      \/ (movement_index (cmd s) = S k
          /\ active_wheel_command (cmd s) = Some "both"%string)).

(** With the markers shown, [previous_wheel] is the selector of the movement
    taken last. *)
Definition previous_wheel_inv (movements : list Movement) (s : Sim) : Prop :=
  previous_wheel (cmd s) = prev_selector movements (movement_index (cmd s)).

(** Until the first movement is taken nothing has moved. *)
Definition at_start_inv (params : RobotParameters) (init : InitialConditions)
  (s : Sim) : Prop :=
  movement_index (cmd s) = 0%nat ->
  pose s = initial_pose params init /\ cmd s = initial_command.

(** The set-up of the counterexamples: every movement fits in one step. *)
Definition wide_step_params : RobotParameters :=
  {| wheel_diameter := 20;
     robot_width := 70;
     scale := 5;
     step_size := 100;
     axle_offset := -40 |}.

Definition left_then_right : list Movement :=
  [ ("forward", "left", 1); ("forward", "right", 1) ]%string.

Definition markers_hidden : DisplayOptions :=
  {| show_origin := true; show_initial_position := true; show_path := true;
     show_turns := false; show_heading := true; show_axle := true;
     show_grid := true |}.

Definition markers_shown : DisplayOptions :=
  {| show_origin := true; show_initial_position := true; show_path := true;
     show_turns := true; show_heading := true; show_axle := true;
     show_grid := true |}.

(** The frames recorded so far are the initial one and one per integrator
    step made: the steps of the movements taken, less those the active
    movement still needs. *)
Definition count_inv (params : RobotParameters) (movements : list Movement)
  (s : Sim) : Prop :=
  0 <= remaining_distance (cmd s)
  /\ (movement_index (cmd s) <= List.length movements)%nat
  /\ len (frames s)
     = (1 + total_steps params (firstn (movement_index (cmd s)) movements)
        - Rceil (remaining_distance (cmd s) / step_size params))%Z
  /\ (simulation_finished (play s) = true <->
      (List.length movements <= movement_index (cmd s))%nat
      /\ remaining_distance (cmd s) <= 0).

(** Nothing stops or holds the simulation. *)
Definition free_running (s : Sim) : Prop :=
  paused (play s) = false /\ scrubbing (play s) = false
  /\ running (play s) = true.

(** A second view of the demo run: nothing shown, the view reset and the
    pan-left and zoom-in keys held. *)
Definition nothing_shown : DisplayOptions :=
  {| show_origin := false; show_initial_position := false;
     show_path := false; show_turns := false; show_heading := false;
     show_axle := false; show_grid := false |}.

Definition camera_busy : Input :=
  {| events := [KEYDOWN K_0; KEYDOWN K_LEFT; KEYDOWN K_EQUALS];
     keys := fun k => match k with
                      | K_LEFT | K_EQUALS => true
                      | _ => false
                      end |}.

(** ** Further definitions

    [int(v)] on a float: truncation toward zero. *)
Definition int_of (r : R) : Z :=
  if Rleb 0 r then Int_part r else (- Int_part (- r))%Z.

(** [world_to_screen] (lines 133-136), with the camera it closes over. *)
Definition world_to_screen (c : Camera) (wx wy : R) : Z * Z :=
  let sx := IZR (WIDTH / 2) + (wx - scroll_x c) * zoom c in
  let sy := IZR (HEIGHT / 2) - (wy - scroll_y c) * zoom c in
  (int_of sx, int_of sy).

(** The newest frame is the snapshot of the live state, and the markers of
    every frame are an initial part of the live markers. *)
Definition snapshot_inv (s : Sim) : Prop :=
  (exists l, frames s = l ++ [record_frame (pose s) (cmd s)])
  /\ Forall (fun f => exists l,
                instruction_markers (cmd s) = f_instruction_markers f ++ l)
       (frames s).

(** [sim_frame_index] is the index of the newest frame, so is the index
    remembered while paused, and so is the display index of a run that is
    neither paused nor finished. *)
Definition index_tracking_inv (s : Sim) : Prop :=
  sim_frame_index (play s) = (len (frames s) - 1)%Z
  /\ (paused (play s) = true ->
      sim_frame_index_before_scrub (play s) = (len (frames s) - 1)%Z)
  /\ (paused (play s) = false -> simulation_finished (play s) = false ->
      frame_index (play s) = (len (frames s) - 1)%Z).

(** The events that clear [running]. *)
Definition quit_event (e : event) : bool :=
  match e with
  | QUIT | KEYDOWN K_ESCAPE => true
  | _ => false
  end.

(** The path ends at the reference point and has at most one point per
    frame. *)
Definition path_inv (s : Sim) : Prop :=
  (exists l, path s = l ++ [(x (pose s), y (pose s))])
  /\ (List.length (path s) <= List.length (frames s))%nat.

(** Inputs of the witnesses: space, the scrub keys, and QUIT. *)
Definition press_space : Input :=
  {| events := [KEYDOWN K_SPACE]; keys := fun _ => false |}.

Definition scrub_left : Input :=
  {| events := [KEYDOWN K_LEFTBRACKET]; keys := fun _ => false |}.

Definition scrub_right : Input :=
  {| events := [KEYUP K_LEFTBRACKET; KEYDOWN K_RIGHTBRACKET];
     keys := fun _ => false |}.

Definition close_window : Input :=
  {| events := [QUIT]; keys := fun _ => false |}.

(** A geometry with no distance between the wheels, and one with a zero
    initial scale. *)
Definition zero_width_params : RobotParameters :=
  {| wheel_diameter := 20;
     robot_width := 0;
     scale := 5;
     step_size := 1 / 2;
     axle_offset := -40 |}.

Definition zero_scale_params : RobotParameters :=
  {| wheel_diameter := 20;
     robot_width := 70;
     scale := 0;
     step_size := 1 / 2;
     axle_offset := -40 |}.

Definition pan_left : Input :=
  {| events := [];
     keys := fun k => match k with K_LEFT => true | _ => false end |}.

(** [direction] of a movement and the sign it stands for (line 240). *)
Definition direction_of (m : Movement) : string := fst (fst m).

Definition sign_of (m : Movement) : Z :=
  if String.eqb (direction_of m) "forward" then 1%Z else (-1)%Z.

(** The state is about to take the [k]-th movement [m], at pose [p0], or is
    inside it with its progress described by [Q]. *)
Definition in_command (k : nat) (m : Movement) (p0 : Pose)
  (Q : R -> Pose -> Prop) (s : Sim) : Prop :=
  (movement_index (cmd s) = k /\ remaining_distance (cmd s) <= 0
   /\ pose s = p0)
  \/ (movement_index (cmd s) = S k
      /\ active_wheel_command (cmd s) = Some (wheel_of m)
      /\ direction_sign (cmd s) = sign_of m
      /\ Q (remaining_distance (cmd s)) (pose s)).

(** Progress of a straight movement: the distance covered so far, along the
    heading held at its start. *)
Definition straight_progress (params : RobotParameters) (m : Movement)
  (p0 : Pose) (r : R) (p : Pose) : Prop :=
  let d := IZR (sign_of m) * (target_distance params m - r) in
  heading p = heading p0
  /\ x p = x p0 + sin (heading p0) * d
  /\ y p = y p0 + cos (heading p0) * d
  /\ axle_x p = axle_x p0 + sin (heading p0) * d
  /\ axle_y p = axle_y p0 + cos (heading p0) * d.

(** Lines 276-279: a ["left"] movement adds [theta], any other one takes it
    away. *)
Definition turn_sign (m : Movement) : R :=
  if String.eqb (wheel_of m) "left" then 1 else -1.

(** Progress of a single-wheel movement: the angle turned so far, and the
    left wheel where it was unless the movement is a ["left"] one. *)
Definition turn_progress (params : RobotParameters) (m : Movement)
  (p0 : Pose) (r : R) (p : Pose) : Prop :=
  heading p
  = heading p0
    + turn_sign m
      * (IZR (sign_of m) * (target_distance params m - r)
         / robot_width params)
  /\ (wheel_of m <> "left"%string ->
      left_wheel_of params p = left_wheel_of params p0).

(** ** The grid (lines 102-131)

    [a // b] on floats, for an int [b]. *)
Definition floor_div (a : R) (b : Z) : R := IZR (Int_part (a / IZR b)).

Definition grid_spacing : Z := 50.

(** Lines 108-117: the first and last grid line in each direction, as
    [(start_x, end_x, start_y, end_y)]. *)
Definition grid_bounds (c : Camera) : option (Z * Z * Z * Z) :=
  l <- pdiv (IZR WIDTH / 2) (zoom c) ;;
  let left_world := scroll_x c - l in
  r <- pdiv (IZR WIDTH / 2) (zoom c) ;;
  let right_world := scroll_x c + r in
  t <- pdiv (IZR HEIGHT / 2) (zoom c) ;;
  let top_world := scroll_y c + t in
  b <- pdiv (IZR HEIGHT / 2) (zoom c) ;;
  let bottom_world := scroll_y c - b in
  let start_x :=
    int_of (floor_div left_world grid_spacing * IZR grid_spacing) in
  let end_x :=
    int_of (floor_div right_world grid_spacing * IZR grid_spacing
            + IZR grid_spacing) in
  let start_y :=
    int_of (floor_div bottom_world grid_spacing * IZR grid_spacing) in
  let end_y :=
    int_of (floor_div top_world grid_spacing * IZR grid_spacing
            + IZR grid_spacing) in
  Some (start_x, end_x, start_y, end_y).

(** The loops of lines 120-131: the world coordinates [x], [x + 50], ... up
    to [end_]; [None] when the fuel does not let the loop finish. *)
Fixpoint grid_loop (fuel : nat) (v end_ : Z) : option (list Z) :=
  match fuel with
  | O => if (v <=? end_)%Z then None else Some []
  | S n =>
      if (v <=? end_)%Z
      then option_map (cons v) (grid_loop n (v + grid_spacing)%Z end_)
      else Some []
  end.

(** ** Integrator steps and frames

    [path] starts with the initial reference point (line 153) and gets one
    point at the end of every integrator step (line 282): its length, less
    one, is the number of integrator steps made so far. *)
Definition steps_taken (s : Sim) : Z := (len (path s) - 1)%Z.

(** One frame per integrator step, and the finished flag is set as soon as
    nothing is left to do. *)
Definition frame_per_step_inv (movements : list Movement) (s : Sim) : Prop :=
  len (frames s) = (1 + steps_taken s)%Z
  /\ ((List.length movements <= movement_index (cmd s))%nat
      /\ remaining_distance (cmd s) <= 0 ->
      simulation_finished (play s) = true).

(** [screen_x, screen_y] of line 288: the projection of the reference
    point, not yet truncated to pixels. *)
Definition screen_xy (c : Camera) (p : Pose) : R * R :=
  (IZR (WIDTH / 2) + (x p - scroll_x c) * zoom c,
   IZR (HEIGHT / 2) - (y p - scroll_y c) * zoom c).

(** ** The remaining distance in binary64

    How many frames a run records depends on the floats only through
    [remaining_distance].  This is the simulation block (lines 236-300) of
    a run that is never paused, cut down to the variables the count depends
    on, with [remaining_distance] a binary64 float and the operations of
    lines 241, 251 and 281 those of IEEE 754. *)

(** [math.pi] *)
Definition pi_f : float := 0x1.921fb54442d18p+1%float.

(** [min(a, b)]: [b] when [b < a], and [a] otherwise. *)
Definition min_f (a b : float) : float :=
  if PrimFloat.ltb b a then b else a.

(** [wheel_circumference] (lines 44-46). *)
Definition wheel_circumference_f (wheel_diameter : float) : float :=
  PrimFloat.mul pi_f wheel_diameter.

Record Sim_f := {
  movement_index_f : nat;
  remaining_distance_f : float;
  simulation_finished_f : bool;
  (** [len(frames)] *)
  frames_f : nat;
  (** the integrator steps made, that is [len(path) - 1] *)
  steps_f : nat
}.

Definition initial_state_f : Sim_f :=
  {| movement_index_f := 0;
     remaining_distance_f := 0%float;
     simulation_finished_f := false;
     frames_f := 1;
     steps_f := 0 |}.

(** One iteration: lines 237-248, 250-282, 284-285 and 298. *)
Definition simulate_f (step_size wheel_diameter : float)
  (rotations : list float) (s : Sim_f) : Sim_f :=
  if simulation_finished_f s then s
  else
    let '(index, remaining) :=
      if PrimFloat.leb (remaining_distance_f s) 0%float
         && (movement_index_f s <? List.length rotations)%nat
      then (S (movement_index_f s),
            PrimFloat.mul (nth (movement_index_f s) rotations 0%float)
              (wheel_circumference_f wheel_diameter))
      else (movement_index_f s, remaining_distance_f s) in
    let '(remaining, steps) :=
      if PrimFloat.ltb 0%float remaining
      then (PrimFloat.sub remaining (min_f step_size remaining),
            S (steps_f s))
      else (remaining, steps_f s) in
    {| movement_index_f := index;
       remaining_distance_f := remaining;
       simulation_finished_f :=
         (List.length rotations <=? index)%nat
         && PrimFloat.leb remaining 0%float;
       frames_f := S (frames_f s);
       steps_f := steps |}.

(** [n] iterations. *)
Fixpoint run_f (step_size wheel_diameter : float) (rotations : list float)
  (n : nat) (s : Sim_f) : Sim_f :=
  match n with
  | O => s
  | S k =>
      run_f step_size wheel_diameter rotations k
        (simulate_f step_size wheel_diameter rotations s)
  end.

(** [math.ceil] of a binary64 float; it raises on infinities and NaN. *)
Definition ceil_f (f : float) : option Z :=
  match Prim2SF f with
  | S754_zero _ => Some 0%Z
  | S754_finite negative m e =>
      if (0 <=? e)%Z
      then Some ((if negative then -1 else 1) * (Z.pos m * 2 ^ e))%Z
      else
        let d := (2 ^ (- e))%Z in
        if negative then Some (- (Z.pos m / d))%Z
        else Some ((Z.pos m + d - 1) / d)%Z
  | _ => None
  end.

(** [ceil(targetDistance / stepSize)] of one command, in binary64. *)
Definition steps_of_f (step_size wheel_diameter rotations : float)
  : option Z :=
  ceil_f (PrimFloat.div
            (PrimFloat.mul rotations (wheel_circumference_f wheel_diameter))
            step_size).

(** A command of about 100 mm done in steps of 0.1 mm:
    [rotations = 1.59154943091895], [wheel_diameter = 20],
    [step_size = 0.1]. *)
Definition fine_step_size : float := 0x1.999999999999ap-4%float.
Definition fine_rotations : float := 0x1.976fc893c3a94p+0%float.

(** * Basic facts *)

Section RealComparisons.

Lemma Rleb_true (a b : R) : a <= b -> Rleb a b = true.
Proof. intros H; unfold Rleb; destruct (Rle_dec a b); [reflexivity | contradiction]. Qed.

Lemma Rleb_false (a b : R) : b < a -> Rleb a b = false.
Proof. intros H; unfold Rleb; destruct (Rle_dec a b); [lra | reflexivity]. Qed.

Lemma Rleb_spec (a b : R) : Rleb a b = true <-> a <= b.
Proof. unfold Rleb; destruct (Rle_dec a b); split; intros; try easy. Qed.

Lemma Rltb_true (a b : R) : a < b -> Rltb a b = true.
Proof. intros H; unfold Rltb; destruct (Rlt_dec a b); [reflexivity | contradiction]. Qed.

Lemma Rltb_false (a b : R) : b <= a -> Rltb a b = false.
Proof. intros H; unfold Rltb; destruct (Rlt_dec a b); [lra | reflexivity]. Qed.

Lemma Rltb_spec (a b : R) : Rltb a b = true <-> a < b.
Proof. unfold Rltb; destruct (Rlt_dec a b); split; intros; try easy. Qed.

Lemma Reqb_true (a b : R) : a = b -> Reqb a b = true.
Proof. intros H; unfold Reqb; destruct (Req_dec_T a b); [reflexivity | contradiction]. Qed.

Lemma Reqb_false (a b : R) : a <> b -> Reqb a b = false.
Proof. intros H; unfold Reqb; destruct (Req_dec_T a b); [contradiction | reflexivity]. Qed.

Lemma pdiv_some (a b : R) : b <> 0 -> pdiv a b = Some (a / b).
Proof. intros H; unfold pdiv; now rewrite Reqb_false. Qed.

Lemma pdiv_inv (a b q : R) : pdiv a b = Some q -> b <> 0 /\ q = a / b.
Proof.
  unfold pdiv, Reqb; destruct (Req_dec_T b 0); [discriminate |].
  intros H; injection H as <-; now split.
Qed.

End RealComparisons.

Section Ceiling.

Lemma Rceil_bounds (r : R) : IZR (Rceil r) - 1 < r <= IZR (Rceil r).
Proof.
  unfold Rceil; rewrite opp_IZR.
  destruct (base_Int_part (- r)) as [H1 H2]; lra.
Qed.

Lemma Rceil_unique (r : R) (n : Z) : IZR n - 1 < r <= IZR n -> Rceil r = n.
Proof.
  intros [Hlo Hhi]; destruct (Rceil_bounds r) as [Clo Chi].
  assert (Hlt1 : (n - 1 < Rceil r)%Z).
  { apply lt_IZR; rewrite minus_IZR; lra. }
  assert (Hlt2 : (Rceil r - 1 < n)%Z).
  { apply lt_IZR; rewrite minus_IZR; lra. }
  lia.
Qed.

Lemma Rceil_0 : Rceil 0 = 0%Z.
Proof. apply Rceil_unique; lra. Qed.

Lemma Rceil_pos (r : R) : 0 < r -> (1 <= Rceil r)%Z.
Proof.
  intros H; destruct (Rceil_bounds r) as [_ Chi].
  assert (0 < Rceil r)%Z by (apply lt_IZR; lra); lia.
Qed.

Lemma Rceil_nonpos (r : R) : r <= 0 -> (Rceil r <= 0)%Z.
Proof.
  intros H; destruct (Rceil_bounds r) as [Clo _].
  assert (Rceil r - 1 < 0)%Z by (apply lt_IZR; rewrite minus_IZR; lra); lia.
Qed.

Lemma Rceil_minus_1 (r : R) : Rceil (r - 1) = (Rceil r - 1)%Z.
Proof.
  apply Rceil_unique; rewrite minus_IZR.
  destruct (Rceil_bounds r); lra.
Qed.

Lemma Rceil_unit (r : R) : 0 < r <= 1 -> Rceil r = 1%Z.
Proof. intros H; apply Rceil_unique; lra. Qed.

End Ceiling.

(** * The integrator *)

Section Integrator.

Variable params : RobotParameters.

Lemma bind_some {A B : Type} (o : option A) (f : A -> option B) (b : B) :
  bind o f = Some b -> exists a, o = Some a /\ f a = Some b.
Proof. destruct o as [a |]; simpl; [eauto | discriminate]. Qed.

Lemma pivot_step_some (step : R) (sign : Z) (active : option string)
  (p : Pose) :
  robot_width params <> 0 ->
  exists p', pivot_step params step sign active p = Some p'.
Proof.
  intros Hw; unfold pivot_step; rewrite (pdiv_some _ _ Hw); simpl; eauto.
Qed.

Lemma integrator_step_remaining (p p' : Pose) (c c' : Command) :
  integrator_step params p c = Some (p', c') ->
  c' = with_remaining c
         (remaining_distance c
          - Rmin (step_size params) (remaining_distance c)).
Proof.
  unfold integrator_step; intros H.
  apply bind_some in H as (q & _ & H); now injection H as _ <-.
Qed.

Lemma integrator_step_some (p : Pose) (c : Command) :
  robot_width params <> 0 ->
  exists p', integrator_step params p c
             = Some (p', with_remaining c
                           (remaining_distance c
                            - Rmin (step_size params) (remaining_distance c))).
Proof.
  intros Hw; unfold integrator_step.
  destruct (command_is (active_wheel_command c) "both"); simpl; [eauto |].
  destruct (pivot_step_some
              (Rmin (step_size params) (remaining_distance c))
              (direction_sign c) (active_wheel_command c) p Hw) as [p' ->].
  simpl; eauto.
Qed.

Lemma integrator_step_both (p : Pose) (c : Command) :
  active_wheel_command c = Some "both"%string ->
  integrator_step params p c
  = Some (straight_step (Rmin (step_size params) (remaining_distance c))
            (direction_sign c) p,
          with_remaining c
            (remaining_distance c
             - Rmin (step_size params) (remaining_distance c))).
Proof. intros H; unfold integrator_step; rewrite H; reflexivity. Qed.

(** The straight step keeps the axle relation. *)
Lemma straight_step_axle_relation (step : R) (sign : Z) (p : Pose) :
  axle_relation params p -> axle_relation params (straight_step step sign p).
Proof. unfold axle_relation; simpl; intros [Hx Hy]; split; lra. Qed.

Lemma initial_pose_axle_relation (init : InitialConditions) :
  axle_relation params (initial_pose params init).
Proof. unfold axle_relation; simpl; split; reflexivity. Qed.

(** A pivot step of a command other than ["left"] turns the robot about
    the left wheel, which stays where it was. *)
Lemma pivot_step_right_fixes_left_wheel (step : R) (sign : Z)
  (active : option string) (p p' : Pose) :
  command_is active "left" = false ->
  pivot_step params step sign active p = Some p' ->
  left_wheel_of params p' = left_wheel_of params p.
Proof.
  intros Ha H; unfold pivot_step in H.
  apply bind_some in H as (theta & _ & H); injection H as <-.
  unfold left_wheel_of, left_wheel, half_robot_width; simpl; rewrite Ha.
  rewrite cos_minus, sin_minus; f_equal; lra.
Qed.

(** A pivot step of a ["left"] command moves the axle about the left wheel
    too, but turns the heading the other way; the right wheel ends at
    [left + cos theta * (right - left)]. *)
Lemma pivot_step_left_right_wheel (step : R) (sign : Z)
  (active : option string) (p p' : Pose) :
  command_is active "left" = true ->
  pivot_step params step sign active p = Some p' ->
  let theta := IZR sign * step / robot_width params in
  right_wheel_of params p'
  = (fst (left_wheel_of params p)
       + robot_width params * cos theta * cos (heading p),
     snd (left_wheel_of params p)
       - robot_width params * cos theta * sin (heading p)).
Proof.
  intros Ha H; unfold pivot_step in H.
  apply bind_some in H as (theta & Hth & H); injection H as <-.
  apply pdiv_inv in Hth as [_ ->].
  unfold right_wheel_of, right_wheel, left_wheel_of, left_wheel,
    half_robot_width; simpl; rewrite Ha.
  rewrite cos_plus, sin_plus; f_equal; lra.
Qed.

Lemma pivot_step_left_moves_right_wheel (step : R) (sign : Z)
  (active : option string) (p p' : Pose) :
  command_is active "left" = true ->
  pivot_step params step sign active p = Some p' ->
  robot_width params <> 0 ->
  cos (IZR sign * step / robot_width params) <> 1 ->
  right_wheel_of params p' <> right_wheel_of params p.
Proof.
  intros Ha H Hw Hc.
  rewrite (pivot_step_left_right_wheel step sign active p p' Ha H).
  unfold right_wheel_of, right_wheel, left_wheel_of, left_wheel; simpl.
  set (t := cos (IZR sign * step / robot_width params)) in *.
  intros E; injection E as Ex Ey.
  assert (Hx : robot_width params * (t - 1) * cos (heading p) = 0) by lra.
  assert (Hy : robot_width params * (t - 1) * sin (heading p) = 0) by lra.
  assert (Hk : robot_width params * (t - 1) <> 0).
  { apply Rmult_integral_contrapositive; split; [assumption | lra]. }
  apply (cos_sin_0 (heading p)); split.
  - apply Rmult_integral in Hx as [Hx | Hx]; [contradiction | assumption].
  - apply Rmult_integral in Hy as [Hy | Hy]; [contradiction | assumption].
Qed.

(** After a pivot step the reference point sits at the axle offset along the
    heading held before the step. *)
Lemma pivot_step_reference_point (step : R) (sign : Z)
  (active : option string) (p p' : Pose) :
  pivot_step params step sign active p = Some p' ->
  axle_x p' = x p' - axle_offset params * sin (heading p) /\
  axle_y p' = y p' - axle_offset params * cos (heading p).
Proof.
  intros H; unfold pivot_step in H.
  apply bind_some in H as (theta & _ & H); injection H as <-.
  simpl; split; lra.
Qed.

End Integrator.

(** * The loop *)

Section Loop.

Variable params : RobotParameters.
Variable movements : list Movement.
Variable display : DisplayOptions.

Lemma handle_event_fixed (s : Sim) (e : event) :
  pose (handle_event s e) = pose s /\ cmd (handle_event s e) = cmd s /\
  frames (handle_event s e) = frames s /\ path (handle_event s e) = path s.
Proof. destruct e as [| k | k |]; try destruct k; simpl; auto. Qed.

Lemma handle_events_fixed (evs : list event) (s : Sim) :
  pose (handle_events s evs) = pose s /\ cmd (handle_events s evs) = cmd s /\
  frames (handle_events s evs) = frames s /\
  path (handle_events s evs) = path s.
Proof.
  revert s; induction evs as [| e evs IH]; intros s; simpl; [auto |].
  destruct (IH (handle_event s e)) as (-> & -> & -> & ->).
  apply handle_event_fixed.
Qed.

Lemma advancing_handle_scrubbing (fs : list Frame) (pl : Playback) :
  advancing (handle_scrubbing fs pl) = advancing pl.
Proof.
  unfold handle_scrubbing.
  destruct (scrubbing pl && (paused pl || simulation_finished pl));
    reflexivity.
Qed.

Lemma handle_scrubbing_advancing (fs : list Frame) (pl : Playback) :
  advancing pl = true -> handle_scrubbing fs pl = pl.
Proof.
  unfold advancing, handle_scrubbing; intros H.
  destruct (scrubbing pl); [| reflexivity].
  rewrite andb_false_r in H; discriminate.
Qed.

Lemma advancing_flags (pl : Playback) :
  advancing pl = false <->
  paused pl = true \/ scrubbing pl = true \/ simulation_finished pl = true.
Proof.
  unfold advancing.
  destruct (paused pl), (scrubbing pl), (simulation_finished pl); simpl;
    intuition discriminate.
Qed.

Lemma simulate_cases (ks : key -> bool) (s s' : Sim) :
  simulate params movements display ks s = Some s' ->
  (advancing (play s) = false /\ s' = s)
  \/ (advancing (play s) = true
      /\ move params (pose s)
           (take_movement params movements display (pose s) (cmd s))
           (path s)
         = Some (pose s', cmd s', path s')
      /\ frames s' = frames s ++ [record_frame (pose s') (cmd s')]
      /\ play s'
         = advanced_playback (play s)
             (finished_after movements (cmd s') (play s)) (frames s')).
Proof.
  unfold simulate; destruct (advancing (play s)) eqn:Ha.
  - intros H; right; split; [reflexivity |].
    apply bind_some in H as ([[p c] pth] & Hm & H).
    apply bind_some in H as (cm & _ & H).
    injection H as <-; simpl; auto.
  - intros H; injection H as <-; auto.
Qed.

Lemma update_cases (i : Input) (s s' : Sim) :
  update params movements display i s = Some s' ->
  let pl := play (handle_events s (events i)) in
  (advancing pl = false /\ pose s' = pose s /\ cmd s' = cmd s
   /\ frames s' = frames s /\ path s' = path s
   /\ play s' = handle_scrubbing (frames s) pl)
  \/ (advancing pl = true
      /\ move params (pose s)
           (take_movement params movements display (pose s) (cmd s))
           (path s)
         = Some (pose s', cmd s', path s')
      /\ frames s' = frames s ++ [record_frame (pose s') (cmd s')]
      /\ play s'
         = advanced_playback pl (finished_after movements (cmd s') pl)
             (frames s')).
Proof.
  unfold update; intros H; simpl.
  apply bind_some in H as (cm & _ & H).
  destruct (handle_events_fixed (events i) s) as (Hp & Hc & Hf & Hpa).
  set (s1 := handle_events s (events i)) in *.
  apply simulate_cases in H; simpl in H.
  rewrite advancing_handle_scrubbing, Hp, Hc, Hf, Hpa in H.
  destruct H as [[Ha ->] | (Ha & Hm & Hfs & Hpl)]; [left | right]; simpl.
  - repeat split; auto.
  - rewrite (handle_scrubbing_advancing _ _ Ha) in Hpl; auto.
Qed.

Lemma tick_update (i : Input) (s s' : Sim) :
  tick params movements display i s = Some s' ->
  update params movements display i s = Some s'.
Proof.
  unfold tick; intros H.
  apply bind_some in H as (s1 & Hu & H).
  apply bind_some in H as (d & _ & H).
  now injection H as <-.
Qed.

Lemma tick_cases (i : Input) (s s' : Sim) :
  tick params movements display i s = Some s' ->
  let pl := play (handle_events s (events i)) in
  (advancing pl = false /\ pose s' = pose s /\ cmd s' = cmd s
   /\ frames s' = frames s /\ path s' = path s
   /\ play s' = handle_scrubbing (frames s) pl)
  \/ (advancing pl = true
      /\ move params (pose s)
           (take_movement params movements display (pose s) (cmd s))
           (path s)
         = Some (pose s', cmd s', path s')
      /\ frames s' = frames s ++ [record_frame (pose s') (cmd s')]
      /\ play s'
         = advanced_playback pl (finished_after movements (cmd s') pl)
             (frames s')).
Proof. intros H; apply update_cases, tick_update, H. Qed.

(** An invariant of [tick] holds along [run]. *)
Lemma run_invariant (P : Sim -> Prop) :
  (forall i s s', P s -> tick params movements display i s = Some s' -> P s') ->
  forall ins s s',
    P s -> run params movements display ins s = Some s' -> P s'.
Proof.
  intros Hstep ins; induction ins as [| i ins IH]; intros s s' HP H; simpl in H.
  - now injection H as <-.
  - destruct (running (play s)).
    + apply bind_some in H as (s1 & Ht & H); eauto.
    + now injection H as <-.
Qed.

End Loop.

(** * Consuming the remaining distance *)

Section Remaining.

Variable params : RobotParameters.
Hypothesis step_size_pos : 0 < step_size params.
Hypothesis robot_width_nonzero : robot_width params <> 0.

Lemma Rceil_steps_succ (r : R) :
  step_size params < r ->
  Rceil ((r - step_size params) / step_size params)
  = (Rceil (r / step_size params) - 1)%Z.
Proof.
  intros H; rewrite <- Rceil_minus_1; f_equal; field; lra.
Qed.

Lemma Rceil_steps_last (r : R) :
  0 < r <= step_size params -> Rceil (r / step_size params) = 1%Z.
Proof.
  intros [H0 H1]; apply Rceil_unit; split.
  - apply Rdiv_lt_0_compat; assumption.
  - apply (Rmult_le_reg_r (step_size params)); [assumption |].
    unfold Rdiv; rewrite Rmult_assoc, Rinv_l; lra.
Qed.


End Remaining.

(** * Claims about the integrator *)



(** * Progress of an idle iteration *)

Section Progress.

Variable params : RobotParameters.
Variable movements : list Movement.
Variable display : DisplayOptions.

Lemma autoscroll_total (p : Pose) (c : Camera) :
  exists c', autoscroll p c = Some c' /\ zoom c' = zoom c.
Proof.
  unfold autoscroll.
  change (IZR (WIDTH / 2)) with 800.
  change (IZR (HEIGHT / 2)) with 600.
  change (IZR (WIDTH - SCROLL_BUFFER)) with 1500.
  change (IZR (HEIGHT - SCROLL_BUFFER)) with 1100.
  change (IZR SCROLL_BUFFER) with 100.
  destruct (Req_dec_T (zoom c) 0) as [Hz | Hz].
  - rewrite Hz, !Rmult_0_r, Rplus_0_r, Rminus_0_r.
    rewrite (Rltb_false 1500 800), (Rltb_false 800 100),
      (Rltb_false 1100 600), (Rltb_false 600 100) by lra.
    simpl; eauto.
  - unfold pdiv; rewrite (Reqb_false _ _ Hz).
    repeat match goal with
           | |- context [Rltb ?a ?b] => destruct (Rltb a b)
           end; simpl; eauto.
Qed.

Lemma py_index_last {A : Type} (l : list A) (a : A) :
  py_index (l ++ [a]) (len (l ++ [a]) - 1) = Some a.
Proof.
  unfold py_index, len; rewrite length_app; simpl.
  replace (Z.of_nat (List.length l + 1) - 1)%Z with (Z.of_nat (List.length l))
    by lia.
  destruct (0 <=? Z.of_nat (List.length l))%Z eqn:E;
    [| apply Z.leb_gt in E; lia].
  rewrite Nat2Z.id, nth_error_app2, Nat.sub_diag by lia; reflexivity.
Qed.

Lemma py_index_in_range {A : Type} (l : list A) (i : Z) :
  (0 <= i < len l)%Z -> exists a, py_index l i = Some a.
Proof.
  unfold py_index, len; intros H.
  destruct (0 <=? i)%Z eqn:E; [| apply Z.leb_gt in E; lia].
  destruct (nth_error l (Z.to_nat i)) as [a |] eqn:En; [eauto |].
  apply nth_error_None in En; lia.
Qed.

Lemma draw_after_append (s : Sim) (fs : list Frame) (f : Frame) :
  frames s = fs ++ [f] ->
  frame_index (play s) = (len (frames s) - 1)%Z ->
  show_grid display = false \/ zoom (cam s) <> 0 ->
  exists d, draw params display s = Some d.
Proof.
  intros Hf Hi Hg; unfold draw; rewrite Hi, Hf, py_index_last.
  destruct (fs ++ [f]) eqn:E; [now destruct fs |].
  simpl; destruct (show_grid display) eqn:Eg; simpl; [| eauto].
  destruct Hg as [Hg | Hg]; [discriminate |].
  unfold draw_grid; rewrite (pdiv_some _ _ Hg); simpl; eauto.
Qed.

Lemma tick_idle_advance (s : Sim) (p : Pose) (c : Command)
  (pth : list (R * R)) :
  advancing (play s) = true ->
  move params (pose s)
    (take_movement params movements display (pose s) (cmd s)) (path s)
  = Some (p, c, pth) ->
  show_grid display = false \/ zoom (cam s) <> 0 ->
  exists s',
    tick params movements display idle s = Some s'
    /\ pose s' = p /\ cmd s' = c /\ path s' = pth
    /\ frames s' = frames s ++ [record_frame p c]
    /\ play s'
       = advanced_playback (play s) (finished_after movements c (play s))
           (frames s')
    /\ zoom (cam s') = zoom (cam s).
Proof.
  intros Ha Hm Hg.
  assert (Hcm : exists cm,
             (if negb (finished_after movements c (play s))
                 && negb (any_pan_key (keys idle))
              then autoscroll p (cam s) else Some (cam s)) = Some cm
             /\ zoom cm = zoom (cam s)).
  { destruct (negb _ && negb _); [apply autoscroll_total | eauto]. }
  destruct Hcm as (cm & Hcm & Hz).
  set (s' := {| pose := p; cmd := c;
                play := advanced_playback (play s)
                          (finished_after movements c (play s))
                          (frames s ++ [record_frame p c]);
                cam := cm;
                frames := frames s ++ [record_frame p c];
                path := pth |}).
  assert (Hu : update params movements display idle s = Some s').
  { unfold update, simulate; simpl.
    rewrite (handle_scrubbing_advancing _ _ Ha), Ha, Hm; simpl.
    destruct (cam s) as [sx sy z]; simpl in *.
    rewrite Hcm; reflexivity. }
  destruct (draw_after_append s' (frames s) (record_frame p c)) as [d Hd];
    [reflexivity | reflexivity | simpl; rewrite Hz; exact Hg |].
  exists s'; unfold tick; rewrite Hu; simpl; rewrite Hd; simpl.
  repeat split; auto.
Qed.

End Progress.

(** * The first step of the demo run

    [run_simulator.py] starts with [("forward", "left", 1)]; the first
    iteration takes that movement and makes one pivot step of length
    [step_size = 0.5], that is a turn by [0.5 / 70]. *)

Section DemoFirstStep.

Variable display : DisplayOptions.

Lemma PI_gt_2 : 2 < PI.
Proof. pose proof PI2_1; lra. Qed.

Lemma demo_theta_bounds : 0 < 1 * (1 / 2) / 70 < PI / 3.
Proof. pose proof PI_gt_2; lra. Qed.

Lemma demo_first_tick :
  exists s1 p1,
    tick demo_params demo_movements display idle
      (initial_state demo_params demo_init) = Some s1
    /\ pose s1 = p1
    /\ pivot_step demo_params (1 / 2) 1 (Some "left"%string)
         (initial_pose demo_params demo_init) = Some p1
    /\ active_wheel_command (cmd s1) = Some "left"%string
    /\ List.length (frames s1) = 2%nat.
Proof.
  destruct (pivot_step_some demo_params (1 / 2) 1 (Some "left"%string)
              (initial_pose demo_params demo_init)) as [p1 Hp1];
    [simpl; lra |].
  set (s0 := initial_state demo_params demo_init).
  set (c1 := activate demo_params display ("forward", "left", 1)%string
               (pose s0) (cmd s0)).
  assert (Htake : take_movement demo_params demo_movements display
                    (pose s0) (cmd s0) = c1).
  { unfold take_movement; simpl.
    rewrite Rleb_true by lra; reflexivity. }
  assert (Hrem : remaining_distance c1 = 1 * (PI * 20)) by reflexivity.
  assert (Hmin : Rmin (step_size demo_params) (remaining_distance c1) = 1 / 2).
  { rewrite Hrem; simpl; apply Rmin_left; pose proof PI_gt_2; lra. }
  assert (Hmove : move demo_params (pose s0) c1 (path s0)
                  = Some (p1,
                          with_remaining c1 (remaining_distance c1 - 1 / 2),
                          path s0 ++ [(x p1, y p1)])).
  { unfold move, integrator_step.
    rewrite Hmin, Rltb_true by (rewrite Hrem; pose proof PI_gt_2; lra).
    change (command_is (active_wheel_command c1) "both") with false.
    change (direction_sign c1) with 1%Z.
    change (active_wheel_command c1) with (Some "left"%string).
    change (pose s0) with (initial_pose demo_params demo_init).
    rewrite Hp1; reflexivity. }
  rewrite <- Htake in Hmove.
  destruct (tick_idle_advance demo_params demo_movements display s0 _ _ _
              eq_refl Hmove) as (s1 & Ht & Hp & Hc & _ & Hf & _).
  { right; simpl; lra. }
  exists s1, p1; repeat split; auto.
  - rewrite Hc, Htake; reflexivity.
  - rewrite Hf; reflexivity.
Qed.

End DemoFirstStep.

Section PivotLeft.

Variable params : RobotParameters.

Lemma pivot_step_left_heading (step : R) (sign : Z) (active : option string)
  (p p' : Pose) :
  command_is active "left" = true ->
  pivot_step params step sign active p = Some p' ->
  heading p' = heading p + IZR sign * step / robot_width params.
Proof.
  intros Ha H; unfold pivot_step in H.
  apply bind_some in H as (theta & Hth & H); injection H as <-.
  apply pdiv_inv in Hth as [_ ->]; simpl; now rewrite Ha.
Qed.

Lemma pivot_step_left_left_wheel (step : R) (sign : Z)
  (active : option string) (p p' : Pose) :
  command_is active "left" = true ->
  pivot_step params step sign active p = Some p' ->
  let theta := IZR sign * step / robot_width params in
  left_wheel_of params p'
  = (fst (left_wheel_of params p)
       + robot_width params * sin theta * sin (heading p),
     snd (left_wheel_of params p)
       + robot_width params * sin theta * cos (heading p)).
Proof.
  intros Ha H; unfold pivot_step in H.
  apply bind_some in H as (theta & Hth & H); injection H as <-.
  apply pdiv_inv in Hth as [_ ->].
  unfold left_wheel_of, left_wheel, half_robot_width; simpl; rewrite Ha.
  rewrite cos_plus, sin_plus; f_equal; lra.
Qed.

End PivotLeft.

(** * Claims about the pivot turn *)

(** C1, at the first iteration of the demo run: the movement is
    [("forward", "left", 1)], so the right wheel is the one not driven; after
    the pivot step the right wheel is no longer where it was (and neither is
    the left one). *)
Theorem left_command_moves_stationary_wheel (display : DisplayOptions) :
  exists s1,
    tick demo_params demo_movements display idle
      (initial_state demo_params demo_init) = Some s1
    /\ active_wheel_command (cmd s1) = Some "left"%string
    /\ right_wheel_of demo_params (pose s1)
       <> right_wheel_of demo_params (pose (initial_state demo_params demo_init))
    /\ left_wheel_of demo_params (pose s1)
       <> left_wheel_of demo_params (pose (initial_state demo_params demo_init)).
Proof.
  destruct (demo_first_tick display) as (s1 & p1 & Ht & Hp & Hpiv & Ha & _).
  pose proof demo_theta_bounds as [Hth0 Hth1].
  pose proof PI_RGT_0 as HPI.
  exists s1; rewrite Hp; repeat split; try assumption.
  - apply (pivot_step_left_moves_right_wheel demo_params (1 / 2) 1
             (Some "left"%string) _ _ eq_refl Hpiv); simpl; [lra |].
    intros Hc.
    assert (Hc0 : cos (1 * (1 / 2) / 70) = cos 0) by (rewrite cos_0; exact Hc).
    apply cos_inj in Hc0; lra.
  - rewrite (pivot_step_left_left_wheel demo_params (1 / 2) 1
               (Some "left"%string) _ _ eq_refl Hpiv).
    unfold left_wheel_of, left_wheel; simpl.
    set (t := sin (1 * (1 / 2) / 70)).
    assert (Ht0 : 0 < t) by (apply sin_gt_0; lra).
    intros E; injection E as Ex Ey.
    apply (cos_sin_0 (PI / 6)); split; nra.
Qed.

(** C2, at the same iteration: the pivot step computes the reference point
    with the heading held before the step and only then turns the heading,
    so the axle relation at the new heading fails. *)
Theorem pivot_step_breaks_axle_relation (display : DisplayOptions) :
  exists s1,
    tick demo_params demo_movements display idle
      (initial_state demo_params demo_init) = Some s1
    /\ axle_relation demo_params (pose (initial_state demo_params demo_init))
    /\ ~ axle_relation demo_params (pose s1).
Proof.
  destruct (demo_first_tick display) as (s1 & p1 & Ht & Hp & Hpiv & Ha & _).
  pose proof demo_theta_bounds as [Hth0 Hth1].
  pose proof PI_RGT_0 as HPI.
  exists s1; split; [assumption |].
  split; [apply initial_pose_axle_relation |].
  rewrite Hp; intros [Hx _].
  destruct (pivot_step_reference_point demo_params _ _ _ _ _ Hpiv) as [Hx' _].
  rewrite (pivot_step_left_heading demo_params (1 / 2) 1
             (Some "left"%string) _ _ eq_refl Hpiv) in Hx.
  simpl in Hx, Hx'.
  assert (Hs : sin (PI / 6) = sin (PI / 6 + 1 * (1 / 2) / 70)) by lra.
  apply sin_inj in Hs; lra.
Qed.

(** * Playback flags under events *)

Section Flags.

Lemma handle_event_finished (s : Sim) (e : event) :
  simulation_finished (play (handle_event s e))
  = simulation_finished (play s).
Proof.
  destruct e as [| k | k |]; try destruct k; simpl; try reflexivity;
    unfold toggle_pause, start_scrub;
    repeat match goal with
           | |- context [if ?b then _ else _] => destruct b
           end; reflexivity.
Qed.

Lemma handle_events_finished (evs : list event) (s : Sim) :
  simulation_finished (play (handle_events s evs))
  = simulation_finished (play s).
Proof.
  revert s; induction evs as [| e evs IH]; intros s; simpl; [reflexivity |].
  now rewrite IH, handle_event_finished.
Qed.

Lemma handle_event_paused (s : Sim) (e : event) :
  e <> KEYDOWN K_SPACE ->
  paused (play (handle_event s e)) = paused (play s).
Proof.
  intros He; destruct e as [| k | k |]; try destruct k; simpl;
    try reflexivity; try congruence;
    unfold start_scrub;
    repeat match goal with
           | |- context [if ?b then _ else _] => destruct b
           end; reflexivity.
Qed.

Lemma handle_events_paused (evs : list event) (s : Sim) :
  ~ In (KEYDOWN K_SPACE) evs ->
  paused (play (handle_events s evs)) = paused (play s).
Proof.
  revert s; induction evs as [| e evs IH]; intros s Hn; simpl;
    [reflexivity |].
  rewrite IH by (intros H; apply Hn; now right).
  apply handle_event_paused; intros ->; apply Hn; now left.
Qed.

End Flags.

(** * Claims about playback *)

(** C7: in an iteration whose state, once the events are handled, is paused,
    scrubbing or finished, no frame is appended and the integrator is not
    called: frames, pose, command state and path are those of before.  A
    finished run stays so whatever the events; a paused one as long as the
    space key is not pressed. *)
Theorem not_advancing_appends_nothing (params : RobotParameters)
  (movements : list Movement) (display : DisplayOptions) (i : Input)
  (s s' : Sim) :
  tick params movements display i s = Some s' ->
  let pl := play (handle_events s (events i)) in
  let unchanged :=
    frames s' = frames s /\ pose s' = pose s /\ cmd s' = cmd s
    /\ path s' = path s in
  (paused pl = true \/ scrubbing pl = true \/ simulation_finished pl = true
   -> unchanged)
  /\ (simulation_finished (play s) = true -> unchanged)
  /\ (paused (play s) = true -> ~ In (KEYDOWN K_SPACE) (events i)
      -> unchanged).
Proof.
  intros Ht pl unchanged.
  assert (Hmain : paused pl = true \/ scrubbing pl = true
                  \/ simulation_finished pl = true -> unchanged).
  { intros Hflags; apply advancing_flags in Hflags.
    destruct (tick_cases params movements display i s s' Ht)
      as [(_ & Hp & Hc & Hf & Hpa & _) | (Ha & _)].
    - subst unchanged; auto.
    - fold pl in Ha; congruence. }
  split; [exact Hmain |]; split.
  - intros Hfin; apply Hmain; right; right.
    subst pl; now rewrite handle_events_finished.
  - intros Hpaused Hn; apply Hmain; left.
    subst pl; now rewrite handle_events_paused.
Qed.

Lemma not_advancing_appends_nothing_witness :
  let display := {| show_origin := true; show_initial_position := true;
                    show_path := true; show_turns := true;
                    show_heading := true; show_axle := true;
                    show_grid := false |} in
  let i := {| events := [KEYDOWN K_SPACE]; keys := fun _ => false |} in
  let s := initial_state demo_params demo_init in
  exists s',
    tick demo_params demo_movements display i s = Some s'
    /\ paused (play (handle_events s (events i))) = true
    /\ frames s' = frames s /\ pose s' = pose s /\ cmd s' = cmd s
    /\ path s' = path s.
Proof.
  intros display i s.
  eexists; split; [reflexivity |]; split; [reflexivity |].
  refine (proj1 (not_advancing_appends_nothing demo_params demo_movements
                   display i s _ eq_refl) _).
  left; reflexivity.
Defined.

(** * The display index *)

Section DisplayIndex.

Variable params : RobotParameters.
Variable movements : list Movement.
Variable display : DisplayOptions.

Lemma handle_event_play_inv (s : Sim) (e : event) :
  play_inv (len (frames s)) (play s) ->
  play_inv (len (frames (handle_event s e))) (play (handle_event s e)).
Proof.
  destruct (handle_event_fixed s e) as (_ & _ & -> & _).
  unfold play_inv; intros (H1 & H2 & H3 & H4).
  destruct e as [| k | k |]; try destruct k; simpl; auto;
    unfold toggle_pause, start_scrub;
    repeat match goal with
           | |- context [if ?b then _ else _] => destruct b eqn:?
           end; simpl; repeat split; auto; try lia; try discriminate;
    try (apply H4; assumption);
    match goal with
    | Hs : scrubbing _ = true |- _ => destruct (H4 Hs); congruence
    end.
Qed.

Lemma handle_events_play_inv (evs : list event) (s : Sim) :
  play_inv (len (frames s)) (play s) ->
  play_inv (len (frames (handle_events s evs)))
    (play (handle_events s evs)).
Proof.
  revert s; induction evs as [| e evs IH]; intros s H; simpl; [exact H |].
  apply IH, handle_event_play_inv, H.
Qed.

Lemma handle_scrubbing_play_inv (fs : list Frame) (pl : Playback) :
  play_inv (len fs) pl -> play_inv (len fs) (handle_scrubbing fs pl).
Proof.
  unfold play_inv, handle_scrubbing; intros (H1 & H2 & H3 & H4).
  destruct (scrubbing pl && (paused pl || simulation_finished pl));
    simpl; repeat split; auto; try lia; apply H4; assumption.
Qed.

Lemma update_play_inv (i : Input) (s s' : Sim) :
  play_inv (len (frames s)) (play s) ->
  update params movements display i s = Some s' ->
  play_inv (len (frames s')) (play s').
Proof.
  intros Hinv Hu.
  pose proof (handle_events_play_inv (events i) s Hinv) as Hev.
  destruct (handle_events_fixed (events i) s) as (_ & _ & Hfs & _).
  rewrite Hfs in Hev.
  destruct (update_cases params movements display i s s' Hu)
    as [(_ & _ & _ & Hf & _ & Hpl) | (Ha & _ & Hf & Hpl)].
  - rewrite Hf, Hpl; apply handle_scrubbing_play_inv, Hev.
  - rewrite Hpl, Hf.
    destruct Hev as (H1 & H2 & H3 & H4).
    unfold advancing in Ha.
    destruct (scrubbing (play (handle_events s (events i)))) eqn:Hs;
      [rewrite andb_false_r in Ha; discriminate |].
    unfold play_inv; simpl; unfold len in *; rewrite !length_app; simpl.
    rewrite Hs; split; [| split; [| split]]; try lia;
      try (intros Hd; discriminate).
Qed.

Lemma initial_play_inv (init : InitialConditions) :
  play_inv (len (frames (initial_state params init)))
    (play (initial_state params init)).
Proof. unfold play_inv; simpl; repeat split; try lia; discriminate. Qed.

Lemma main_play_inv (init : InitialConditions) (ins : list Input) (s : Sim) :
  main params init movements display ins = Some s ->
  play_inv (len (frames s)) (play s).
Proof.
  unfold main; intros H.
  apply (run_invariant params movements display
           (fun s => play_inv (len (frames s)) (play s))) in H;
    [exact H | | apply initial_play_inv].
  intros i s0 s0' H0 Ht; apply (update_play_inv i s0); [exact H0 |].
  apply tick_update, Ht.
Qed.

End DisplayIndex.

(** C8: in every iteration of every run, the display index with which the
    frame is looked up lies in [[0, len(frames) - 1]], so the lookup
    succeeds; and when the scrub key is held (which only happens paused or
    finished) the index moves by one in the scrub direction, clamped to that
    range, while no frame is added. *)
Theorem scrub_index_clamped (params : RobotParameters)
  (init : InitialConditions) (movements : list Movement)
  (display : DisplayOptions) (ins : list Input) (s : Sim) (i : Input)
  (s' : Sim) :
  main params init movements display ins = Some s ->
  update params movements display i s = Some s' ->
  let pl := play (handle_events s (events i)) in
  (0 <= frame_index (play s') <= len (frames s') - 1)%Z
  /\ (exists f, py_index (frames s') (frame_index (play s')) = Some f)
  /\ (scrubbing pl = true ->
      (scrubbing_direction pl = 1%Z \/ scrubbing_direction pl = (-1)%Z)
      /\ frames s' = frames s
      /\ frame_index (play s')
         = Z.max 0 (Z.min (len (frames s) - 1)
                      (frame_index pl + scrubbing_direction pl))).
Proof.
  intros Hmain Hu pl.
  pose proof (main_play_inv params movements display init ins s Hmain)
    as Hinv.
  pose proof (update_play_inv params movements display i s s' Hinv Hu)
    as (H1 & _).
  split; [lia |]; split; [apply py_index_in_range; exact H1 |].
  intros Hs.
  pose proof (handle_events_play_inv (events i) s Hinv) as (_ & _ & _ & H4).
  fold pl in H4; destruct (H4 Hs) as [Hdir Hpf].
  split; [exact Hdir |].
  destruct (update_cases params movements display i s s' Hu)
    as [(_ & _ & _ & Hf & _ & Hpl) | (Ha & _)].
  - split; [exact Hf |].
    fold pl in Hpl; rewrite Hpl; unfold handle_scrubbing.
    rewrite Hs, Hpf; simpl; now rewrite Z.mul_1_r.
  - fold pl in Ha; unfold advancing in Ha; rewrite Hs in Ha.
    rewrite andb_false_r in Ha; discriminate.
Qed.

Lemma scrub_index_clamped_witness :
  let display := {| show_origin := true; show_initial_position := true;
                    show_path := true; show_turns := true;
                    show_heading := true; show_axle := true;
                    show_grid := false |} in
  let pause := {| events := [KEYDOWN K_SPACE]; keys := fun _ => false |} in
  let scrub := {| events := [KEYDOWN K_LEFTBRACKET];
                  keys := fun _ => false |} in
  exists s s',
    main demo_params demo_init demo_movements display [pause] = Some s
    /\ update demo_params demo_movements display scrub s = Some s'
    /\ scrubbing (play (handle_events s (events scrub))) = true
    /\ frame_index (play s') = 0%Z
    /\ exists f, py_index (frames s') (frame_index (play s')) = Some f.
Proof.
  intros display pause scrub.
  eexists; eexists; split; [reflexivity |]; split; [reflexivity |];
    split; [reflexivity |]; split; [reflexivity |].
  refine (proj1 (proj2 (scrub_index_clamped demo_params demo_init
                          demo_movements display [pause] _ scrub _
                          eq_refl eq_refl))).
Defined.

(** * Taking a movement and moving *)

Section Movements.

Variable params : RobotParameters.
Variable movements : list Movement.
Variable display : DisplayOptions.

Lemma take_movement_cases (p : Pose) (c : Command) :
  (take_movement params movements display p c = c
   /\ (0 < remaining_distance c
       \/ (List.length movements <= movement_index c)%nat))
  \/ (remaining_distance c <= 0
      /\ exists m, nth_error movements (movement_index c) = Some m
                   /\ take_movement params movements display p c
                      = activate params display m p c).
Proof.
  unfold take_movement, Rleb.
  destruct (Rle_dec (remaining_distance c) 0) as [Hr | Hr]; simpl.
  - destruct (movement_index c <? List.length movements)%nat eqn:Hi.
    + apply Nat.ltb_lt in Hi.
      destruct (nth_error movements (movement_index c)) as [m |] eqn:Hn.
      * right; split; [assumption |]; eauto.
      * apply nth_error_None in Hn; lia.
    + apply Nat.ltb_ge in Hi; left; auto.
  - left; split; [reflexivity | left; lra].
Qed.

Lemma move_cases (p p' : Pose) (c c' : Command) (pth pth' : list (R * R)) :
  move params p c pth = Some (p', c', pth') ->
  (remaining_distance c <= 0 /\ p' = p /\ c' = c /\ pth' = pth)
  \/ (0 < remaining_distance c
      /\ integrator_step params p c = Some (p', c')
      /\ pth' = pth ++ [(x p', y p')]).
Proof.
  unfold move, Rltb.
  destruct (Rlt_dec 0 (remaining_distance c)) as [Hr | Hr]; intros H.
  - right; split; [assumption |].
    apply bind_some in H as ([q d] & Hs & H).
    injection H as <- <- <-; auto.
  - left; injection H as <- <- <-; repeat split; auto; lra.
Qed.

Lemma activate_fields (m : Movement) (p : Pose) (c : Command) :
  movement_index (activate params display m p c) = S (movement_index c)
  /\ remaining_distance (activate params display m p c)
     = target_distance params m
  /\ active_wheel_command (activate params display m p c)
     = Some (wheel_of m).
Proof. destruct m as [[d w] r]; simpl; auto. Qed.

Lemma move_movement_index (p p' : Pose) (c c' : Command)
  (pth pth' : list (R * R)) :
  move params p c pth = Some (p', c', pth') ->
  movement_index c' = movement_index c
  /\ active_wheel_command c' = active_wheel_command c
  /\ previous_wheel c' = previous_wheel c
  /\ instruction_markers c' = instruction_markers c
  /\ direction_sign c' = direction_sign c.
Proof.
  intros H; apply move_cases in H as [(_ & _ & -> & _) | (_ & H & _)]; auto.
  apply integrator_step_remaining in H as ->; simpl; auto.
Qed.

Lemma take_movement_index (p : Pose) (c : Command) :
  (movement_index c
   <= movement_index (take_movement params movements display p c))%nat.
Proof.
  destruct (take_movement_cases p c) as [[-> _] | (_ & m & _ & ->)];
    [lia |].
  destruct (activate_fields m p c) as (-> & _); lia.
Qed.

Lemma tick_movement_index (i : Input) (s s' : Sim) :
  tick params movements display i s = Some s' ->
  (movement_index (cmd s) <= movement_index (cmd s'))%nat.
Proof.
  intros Ht.
  destruct (tick_cases params movements display i s s' Ht)
    as [(_ & _ & -> & _) | (_ & Hm & _)]; [lia |].
  apply move_movement_index in Hm as (-> & _).
  apply take_movement_index.
Qed.

Lemma run_movement_index (ins : list Input) (s s' : Sim) :
  run params movements display ins s = Some s' ->
  (movement_index (cmd s) <= movement_index (cmd s'))%nat.
Proof.
  revert s; induction ins as [| i ins IH]; intros s H; simpl in H.
  - injection H as <-; lia.
  - destruct (running (play s)).
    + apply bind_some in H as (s1 & Ht & H).
      apply tick_movement_index in Ht; apply IH in H; lia.
    + injection H as <-; lia.
Qed.

End Movements.

(** * Straight motion *)

Section Straight.

Variable params : RobotParameters.
Variable movements : list Movement.
Variable display : DisplayOptions.

Variable k : nat.
Variable m : Movement.
Hypothesis kth : nth_error movements k = Some m.
Hypothesis both : wheel_of m = "both"%string.

Lemma move_both_heading (p p' : Pose) (c c' : Command)
  (pth pth' : list (R * R)) :
  active_wheel_command c = Some "both"%string ->
  move params p c pth = Some (p', c', pth') ->
  heading p' = heading p.
Proof.
  intros Ha H; apply move_cases in H as [(_ & -> & _) | (_ & H & _)];
    [reflexivity |].
  rewrite (integrator_step_both params p c Ha) in H.
  now injection H as <- _.
Qed.

Lemma tick_in_both_command (h0 : R) (i : Input) (s s' : Sim) :
  in_both_command k h0 s ->
  tick params movements display i s = Some s' ->
  in_both_command k h0 s' \/ (S k < movement_index (cmd s'))%nat.
Proof.
  intros [Hh Hphase] Ht.
  destruct (tick_cases params movements display i s s' Ht)
    as [(_ & Hp & Hc & _) | (_ & Hm & _)].
  - left; unfold in_both_command; now rewrite Hp, Hc.
  - pose proof (move_movement_index params _ _ _ _ _ _ Hm)
      as (Hi & Ha & _).
    destruct (take_movement_cases params movements display (pose s) (cmd s))
      as [[Htk Hwhy] | (Hr & m' & Hn & Htk)];
      rewrite Htk in *.
    + destruct Hphase as [[Hk Hr] | [Hk Hb]].
      * (* nothing left to take: impossible at index [k] *)
        destruct Hwhy as [Hpos | Hlen]; [lra |].
        rewrite Hk in Hlen; apply nth_error_None in Hlen; congruence.
      * left; split.
        -- rewrite <- Hh; apply (move_both_heading _ _ _ _ _ _ Hb Hm).
        -- right; split; congruence.
    + destruct (activate_fields params display m' (pose s) (cmd s))
        as (Hai & _ & Haa).
      destruct Hphase as [[Hk Hr0] | [Hk Hb]].
      * rewrite Hk, kth in Hn; injection Hn as <-.
        left; split.
        -- rewrite <- Hh; apply (move_both_heading _ _ _ _ _ _
                                   (eq_trans Haa (f_equal Some both)) Hm).
        -- right; split; [lia | congruence].
      * right; lia.
Qed.

Lemma run_in_both_command (h0 : R) (ins : list Input) :
  forall s s',
    in_both_command k h0 s ->
    run params movements display ins s = Some s' ->
    (movement_index (cmd s') <= S k)%nat ->
    heading (pose s') = h0.
Proof.
  induction ins as [| i ins IH]; intros s s' HJ H Hle; simpl in H.
  - injection H as <-; apply HJ.
  - destruct (running (play s)); [| injection H as <-; apply HJ].
    apply bind_some in H as (s1 & Ht & H).
    destruct (tick_in_both_command h0 i s s1 HJ Ht) as [HJ1 | Hgt].
    + apply (IH s1 s' HJ1 H Hle).
    + apply run_movement_index in H; lia.
Qed.

End Straight.

(** * The first iteration *)

Section FirstTick.

Variable params : RobotParameters.
Variable init : InitialConditions.
Variable display : DisplayOptions.

Lemma first_tick (m : Movement) (rest : list Movement) :
  0 < target_distance params m ->
  robot_width params <> 0 ->
  show_grid display = false \/ scale params <> 0 ->
  let p0 := initial_pose params init in
  let c0 := activate params display m p0 initial_command in
  exists s1,
    tick params (m :: rest) display idle (initial_state params init)
    = Some s1
    /\ integrator_step params p0 c0 = Some (pose s1, cmd s1)
    /\ frames s1 = [record_frame p0 initial_command;
                     record_frame (pose s1) (cmd s1)].
Proof.
  intros Htarget Hw Hg p0 c0.
  set (s0 := initial_state params init).
  assert (Htake : take_movement params (m :: rest) display (pose s0) (cmd s0)
                  = c0).
  { unfold take_movement; simpl; rewrite Rleb_true by lra; reflexivity. }
  assert (Hrem : remaining_distance c0 = target_distance params m).
  { apply activate_fields. }
  destruct (integrator_step_some params p0 c0 Hw) as [p1 Hstep].
  set (c1 := with_remaining c0 _) in Hstep.
  assert (Hmove : move params (pose s0)
                    (take_movement params (m :: rest) display (pose s0)
                       (cmd s0)) (path s0)
                  = Some (p1, c1, path s0 ++ [(x p1, y p1)])).
  { rewrite Htake; unfold move.
    rewrite Rltb_true by (rewrite Hrem; assumption).
    change (pose s0) with p0; rewrite Hstep; reflexivity. }
  destruct (tick_idle_advance params (m :: rest) display s0 _ _ _
              eq_refl Hmove Hg) as (s1 & Ht & Hp & Hc & _ & Hf & _).
  exists s1; rewrite Hp, Hc; repeat split; auto.
Qed.

End FirstTick.

Lemma run_cons (params : RobotParameters) (movements : list Movement)
  (display : DisplayOptions) (i : Input) (ins : list Input) (s s1 : Sim) :
  running (play s) = true ->
  tick params movements display i s = Some s1 ->
  run params movements display (i :: ins) s
  = run params movements display ins s1.
Proof. intros Hr Ht; simpl; rewrite Hr, Ht; reflexivity. Qed.

(** C5: an integrator step of a ["both"] command moves the reference point
    and the axle by [(sin h, cos h) * step * sign], with [h] the current
    heading and [step = min(step_size, remaining)], and leaves the heading
    as it is; so, from the moment a ["both"] movement is about to be taken
    until the next movement is taken, the heading does not change. *)
Theorem both_wheels_straight_motion (params : RobotParameters)
  (movements : list Movement) (display : DisplayOptions) :
  (forall (p : Pose) (c : Command),
      active_wheel_command c = Some "both"%string ->
      let step := Rmin (step_size params) (remaining_distance c) in
      let sign := IZR (direction_sign c) in
      exists p' c',
        integrator_step params p c = Some (p', c')
        /\ x p' = x p + sin (heading p) * step * sign
        /\ y p' = y p + cos (heading p) * step * sign
        /\ axle_x p' = axle_x p + sin (heading p) * step * sign
        /\ axle_y p' = axle_y p + cos (heading p) * step * sign
        /\ heading p' = heading p)
  /\ (forall (ins : list Input) (s s' : Sim) (k : nat) (m : Movement),
         nth_error movements k = Some m ->
         wheel_of m = "both"%string ->
         movement_index (cmd s) = k ->
         remaining_distance (cmd s) <= 0 ->
         run params movements display ins s = Some s' ->
         (movement_index (cmd s') <= S k)%nat ->
         heading (pose s') = heading (pose s)).
Proof.
  split.
  - intros p c Ha step sign.
    rewrite (integrator_step_both params p c Ha).
    eexists; eexists; split; [reflexivity |]; simpl; auto.
  - intros ins s s' k m Hk Hb Hi Hr Hrun Hle.
    apply (run_in_both_command params movements display k m Hk Hb
             (heading (pose s)) ins s s'); auto.
    split; [reflexivity | left; auto].
Qed.

Lemma both_wheels_straight_motion_witness :
  let display := {| show_origin := true; show_initial_position := true;
                    show_path := true; show_turns := true;
                    show_heading := true; show_axle := true;
                    show_grid := true |} in
  let movements := [("forward", "both", 1)]%string in
  exists s1,
    run demo_params movements display [idle]
      (initial_state demo_params demo_init) = Some s1
    /\ movement_index (cmd s1) = 1%nat
    /\ heading (pose s1) = PI / 6.
Proof.
  intros display movements.
  destruct (first_tick demo_params demo_init display
              ("forward", "both", 1)%string [])
    as (s1 & Ht & Hstep & _).
  { unfold target_distance, wheel_circumference; simpl.
    pose proof PI_RGT_0; lra. }
  { simpl; lra. }
  { right; simpl; lra. }
  assert (Hrun : run demo_params movements display [idle]
                   (initial_state demo_params demo_init) = Some s1).
  { rewrite (run_cons demo_params movements display idle []
               (initial_state demo_params demo_init) s1 eq_refl Ht).
    reflexivity. }
  assert (Hidx : movement_index (cmd s1) = 1%nat).
  { apply integrator_step_remaining in Hstep; rewrite Hstep; reflexivity. }
  exists s1; split; [exact Hrun |]; split; [exact Hidx |].
  refine (proj2 (both_wheels_straight_motion demo_params movements display)
            [idle] (initial_state demo_params demo_init) s1 0%nat
            ("forward", "both", 1)%string eq_refl eq_refl eq_refl _ Hrun _).
  - simpl; lra.
  - rewrite Hidx; lia.
Defined.

(** * An idle iteration that makes a step *)

Section IdleStep.

Variable params : RobotParameters.
Variable movements : list Movement.
Variable display : DisplayOptions.

Lemma idle_tick_step (s : Sim) :
  advancing (play s) = true ->
  robot_width params <> 0 ->
  show_grid display = false \/ zoom (cam s) <> 0 ->
  let c := take_movement params movements display (pose s) (cmd s) in
  0 < remaining_distance c ->
  exists s',
    tick params movements display idle s = Some s'
    /\ integrator_step params (pose s) c = Some (pose s', cmd s')
    /\ frames s' = frames s ++ [record_frame (pose s') (cmd s')]
    /\ play s'
       = advanced_playback (play s)
           (finished_after movements (cmd s') (play s)) (frames s')
    /\ zoom (cam s') = zoom (cam s).
Proof.
  intros Ha Hw Hg c Hpos.
  destruct (integrator_step_some params (pose s) c Hw) as [p1 Hstep].
  set (c1 := with_remaining c _) in Hstep.
  assert (Hmove : move params (pose s) c (path s)
                  = Some (p1, c1, path s ++ [(x p1, y p1)])).
  { unfold move; rewrite Rltb_true by assumption.
    rewrite Hstep; reflexivity. }
  destruct (tick_idle_advance params movements display s _ _ _ Ha Hmove Hg)
    as (s' & Ht & Hp & Hc & _ & Hf & Hpl & Hz).
  exists s'; rewrite Hp, Hc; repeat split; auto.
Qed.

End IdleStep.

(** * Turn markers *)

Section Markers.

Variable params : RobotParameters.
Variable init : InitialConditions.
Variable movements : list Movement.
Variable display : DisplayOptions.

Lemma differs_from_spec (w : string) (prev : option string) :
  differs_from w prev = true <-> Some w <> prev.
Proof.
  destruct prev as [v |]; simpl; [| split; [discriminate | reflexivity]].
  destruct (String.eqb_spec w v) as [-> | Hne]; simpl; split; congruence.
Qed.

Lemma activate_markers (m : Movement) (p : Pose) (c : Command) :
  let mark := show_turns display
              && differs_from (wheel_of m) (previous_wheel c) in
  previous_wheel (activate params display m p c)
  = (if mark then Some (wheel_of m) else previous_wheel c)
  /\ instruction_markers (activate params display m p c)
     = (if mark then instruction_markers c ++ [(x p, y p)]
        else instruction_markers c).
Proof. destruct m as [[d w] r]; simpl; auto. Qed.

Lemma tick_previous_wheel_inv (i : Input) (s s' : Sim) :
  show_turns display = true ->
  previous_wheel_inv movements s ->
  tick params movements display i s = Some s' ->
  previous_wheel_inv movements s'.
Proof.
  unfold previous_wheel_inv; intros Hshow Hinv Ht.
  destruct (tick_cases params movements display i s s' Ht)
    as [(_ & _ & -> & _) | (_ & Hm & _)]; [exact Hinv |].
  apply move_movement_index in Hm as (-> & _ & -> & _).
  destruct (take_movement_cases params movements display (pose s) (cmd s))
    as [[-> _] | (_ & m & Hn & ->)]; [exact Hinv |].
  destruct (activate_fields params display m (pose s) (cmd s)) as (-> & _).
  destruct (activate_markers m (pose s) (cmd s)) as (-> & _).
  simpl; rewrite Hn, Hshow; simpl.
  destruct (differs_from (wheel_of m) (previous_wheel (cmd s))) eqn:Hd;
    [reflexivity |].
  destruct (previous_wheel (cmd s)) as [v |]; [| discriminate].
  simpl in Hd; apply negb_false_iff, String.eqb_eq in Hd; now subst.
Qed.

Lemma main_previous_wheel_inv (ins : list Input) (s : Sim) :
  show_turns display = true ->
  main params init movements display ins = Some s ->
  previous_wheel_inv movements s.
Proof.
  intros Hshow H.
  apply (run_invariant params movements display
           (previous_wheel_inv movements)) in H; [exact H | | reflexivity].
  intros i s0 s0' H0 Ht; apply (tick_previous_wheel_inv i s0); assumption.
Qed.

Lemma tick_at_start_inv (i : Input) (s s' : Sim) :
  at_start_inv params init s ->
  tick params movements display i s = Some s' ->
  at_start_inv params init s'.
Proof.
  unfold at_start_inv; intros Hinv Ht H0.
  pose proof (tick_movement_index params movements display i s s' Ht) as Hle.
  destruct Hinv as [Hp Hc]; [lia |].
  destruct (tick_cases params movements display i s s' Ht)
    as [(_ & -> & -> & _) | (_ & Hm & _)]; [auto |].
  pose proof (move_movement_index params _ _ _ _ _ _ Hm) as (Hi & _).
  destruct (take_movement_cases params movements display (pose s) (cmd s))
    as [[Htk _] | (_ & m & _ & Htk)]; rewrite Htk in *.
  - apply move_cases in Hm as [(_ & -> & -> & _) | (Hpos & _)]; [auto |].
    rewrite Hc in Hpos; simpl in Hpos; lra.
  - destruct (activate_fields params display m (pose s) (cmd s)) as (Ha & _).
    lia.
Qed.

Lemma main_at_start_inv (ins : list Input) (s : Sim) :
  main params init movements display ins = Some s ->
  at_start_inv params init s.
Proof.
  intros H.
  apply (run_invariant params movements display
           (at_start_inv params init)) in H; [exact H | |].
  - intros i s0 s0' H0 Ht; apply (tick_at_start_inv i s0); assumption.
  - intros _; split; reflexivity.
Qed.

(** With the markers shown, the marker rule holds at every activation in
    every state of every run. *)
Lemma tick_marker_rule (ins : list Input) (s : Sim) (i : Input) (s' : Sim) :
  show_turns display = true ->
  main params init movements display ins = Some s ->
  tick params movements display i s = Some s' ->
  marker_rule movements s s'
  /\ (movement_index (cmd s') = movement_index (cmd s) ->
      instruction_markers (cmd s') = instruction_markers (cmd s)).
Proof.
  intros Hshow Hmain Ht.
  pose proof (main_previous_wheel_inv ins s Hshow Hmain) as Hprev.
  unfold previous_wheel_inv in Hprev; unfold marker_rule.
  destruct (tick_cases params movements display i s s' Ht)
    as [(_ & _ & Hc & _) | (_ & Hm & _)].
  - rewrite Hc; split; [| reflexivity].
    intros m _ Hidx; lia.
  - apply move_movement_index in Hm as (Hi & _ & _ & Hmk & _).
    rewrite Hi, Hmk.
    destruct (take_movement_cases params movements display (pose s) (cmd s))
      as [[-> _] | (_ & m & Hn & ->)].
    + split; [| reflexivity].
      intros m _ Hidx; lia.
    + destruct (activate_fields params display m (pose s) (cmd s))
        as (-> & _).
      destruct (activate_markers m (pose s) (cmd s)) as (_ & ->).
      split; [| intros Hidx; lia].
      intros m' Hn' _; rewrite Hn in Hn'; injection Hn' as <-.
      rewrite Hshow, Hprev; simpl.
      destruct (differs_from (wheel_of m)
                  (prev_selector movements (movement_index (cmd s))))
        eqn:Hd.
      * apply differs_from_spec in Hd.
        split; [split; auto | intros E; contradiction].
      * assert (Hsame : Some (wheel_of m)
                        = prev_selector movements (movement_index (cmd s))).
        { destruct (prev_selector movements (movement_index (cmd s)))
            as [v |]; [| discriminate].
          simpl in Hd; apply negb_false_iff, String.eqb_eq in Hd.
          now subst. }
        split; [split | reflexivity].
        -- intros E; apply (f_equal (@List.length _)) in E.
           rewrite length_app in E; simpl in E; lia.
        -- intros Hne; contradiction.
Qed.

(** With the markers hidden, no iteration appends a marker. *)
Lemma tick_markers_hidden (i : Input) (s s' : Sim) :
  show_turns display = false ->
  tick params movements display i s = Some s' ->
  instruction_markers (cmd s') = instruction_markers (cmd s).
Proof.
  intros Hshow Ht.
  destruct (tick_cases params movements display i s s' Ht)
    as [(_ & _ & -> & _) | (_ & Hm & _)]; [reflexivity |].
  apply move_movement_index in Hm as (_ & _ & _ & -> & _).
  destruct (take_movement_cases params movements display (pose s) (cmd s))
    as [[-> _] | (_ & m & _ & ->)]; [reflexivity |].
  destruct (activate_markers m (pose s) (cmd s)) as (_ & ->).
  rewrite Hshow; reflexivity.
Qed.

Lemma main_markers_hidden (ins : list Input) (s : Sim) :
  show_turns display = false ->
  main params init movements display ins = Some s ->
  instruction_markers (cmd s) = [].
Proof.
  intros Hshow H.
  apply (run_invariant params movements display
           (fun t => instruction_markers (cmd t) = [])) in H;
    [exact H | | reflexivity].
  intros i s0 s0' H0 Ht.
  rewrite (tick_markers_hidden i s0 s0' Hshow Ht); exact H0.
Qed.

End Markers.

(** * Two one-step movements, markers hidden *)

Section LeftThenRight.

#[local] Abbreviation s0 := (initial_state wide_step_params demo_init).

Lemma wide_step_target :
  0 < 1 * (PI * 20) <= 100.
Proof. pose proof PI_RGT_0; pose proof PI_4; lra. Qed.

Lemma left_then_right_first_tick :
  exists s1,
    tick wide_step_params left_then_right markers_hidden idle s0 = Some s1
    /\ cmd s1 = {| movement_index := 1;
                   remaining_distance := 0;
                   active_wheel_command := Some "left"%string;
                   direction_sign := 1;
                   previous_wheel := None;
                   instruction_markers := [] |}
    /\ advancing (play s1) = true
    /\ zoom (cam s1) = 5.
Proof.
  pose proof wide_step_target as [Hpos Hle].
  assert (Htake : take_movement wide_step_params left_then_right
                    markers_hidden (pose s0) (cmd s0)
                  = activate wide_step_params markers_hidden
                      ("forward", "left", 1)%string (pose s0) (cmd s0)).
  { unfold take_movement; simpl; rewrite Rleb_true by lra; reflexivity. }
  destruct (idle_tick_step wide_step_params left_then_right markers_hidden s0)
    as (s1 & Ht & Hstep & _ & Hpl & Hz);
    [reflexivity | simpl; lra | right; simpl; lra
     | rewrite Htake; simpl; unfold wheel_circumference; simpl; lra |].
  rewrite Htake in Hstep; apply integrator_step_remaining in Hstep.
  assert (Hc : cmd s1 = {| movement_index := 1;
                           remaining_distance := 0;
                           active_wheel_command := Some "left"%string;
                           direction_sign := 1;
                           previous_wheel := None;
                           instruction_markers := [] |}).
  { rewrite Hstep; unfold with_remaining; simpl.
    unfold wheel_circumference; simpl.
    rewrite Rmin_right by lra; f_equal; lra. }
  exists s1; repeat split; auto.
  rewrite Hpl, Hc; reflexivity.
Qed.

Lemma left_then_right_second_tick (s1 : Sim) :
  cmd s1 = {| movement_index := 1;
              remaining_distance := 0;
              active_wheel_command := Some "left"%string;
              direction_sign := 1;
              previous_wheel := None;
              instruction_markers := [] |} ->
  advancing (play s1) = true ->
  zoom (cam s1) = 5 ->
  exists s2,
    tick wide_step_params left_then_right markers_hidden idle s1 = Some s2
    /\ movement_index (cmd s2) = 2%nat
    /\ instruction_markers (cmd s2) = [].
Proof.
  intros Hc Ha Hz.
  pose proof wide_step_target as [Hpos Hle].
  assert (Htake : take_movement wide_step_params left_then_right
                    markers_hidden (pose s1) (cmd s1)
                  = activate wide_step_params markers_hidden
                      ("forward", "right", 1)%string (pose s1) (cmd s1)).
  { unfold take_movement; rewrite Hc; simpl.
    rewrite Rleb_true by lra; reflexivity. }
  destruct (idle_tick_step wide_step_params left_then_right markers_hidden s1)
    as (s2 & Ht & Hstep & _);
    [exact Ha | simpl; lra | right; rewrite Hz; lra
     | rewrite Htake; simpl; unfold wheel_circumference; simpl; lra |].
  rewrite Htake in Hstep; apply integrator_step_remaining in Hstep.
  exists s2; rewrite Hstep, Hc; repeat split; auto.
Qed.

End LeftThenRight.

(** * The same two movements, whatever is shown *)

Section LeftThenRightAnyDisplay.

Variable display : DisplayOptions.

Lemma left_then_right_tick_one :
  exists s1,
    tick wide_step_params left_then_right display idle
      (initial_state wide_step_params demo_init) = Some s1
    /\ movement_index (cmd s1) = 1%nat
    /\ remaining_distance (cmd s1) = 0
    /\ advancing (play s1) = true
    /\ zoom (cam s1) = 5.
Proof.
  set (s0 := initial_state wide_step_params demo_init).
  pose proof wide_step_target as [Hpos Hle].
  assert (Htake : take_movement wide_step_params left_then_right
                    display (pose s0) (cmd s0)
                  = activate wide_step_params display
                      ("forward", "left", 1)%string (pose s0) (cmd s0)).
  { unfold take_movement; simpl; rewrite Rleb_true by lra; reflexivity. }
  destruct (idle_tick_step wide_step_params left_then_right display s0)
    as (s1 & Ht & Hstep & _ & Hpl & Hz);
    [reflexivity | simpl; lra | right; simpl; lra
     | rewrite Htake; simpl; unfold wheel_circumference; simpl; lra |].
  rewrite Htake in Hstep; apply integrator_step_remaining in Hstep.
  assert (Hi : movement_index (cmd s1) = 1%nat)
    by (rewrite Hstep; reflexivity).
  assert (Hr : remaining_distance (cmd s1) = 0).
  { rewrite Hstep; simpl; unfold wheel_circumference; simpl.
    rewrite Rmin_right by lra; lra. }
  exists s1; repeat split; auto.
  rewrite Hpl; unfold advancing; simpl; unfold finished_after.
  rewrite Hi; reflexivity.
Qed.

Lemma left_then_right_tick_two (s1 : Sim) :
  movement_index (cmd s1) = 1%nat ->
  remaining_distance (cmd s1) = 0 ->
  advancing (play s1) = true ->
  zoom (cam s1) = 5 ->
  exists s2,
    tick wide_step_params left_then_right display idle s1 = Some s2
    /\ movement_index (cmd s2) = 2%nat.
Proof.
  intros Hi Hr Ha Hz.
  pose proof wide_step_target as [Hpos Hle].
  assert (Htake : take_movement wide_step_params left_then_right
                    display (pose s1) (cmd s1)
                  = activate wide_step_params display
                      ("forward", "right", 1)%string (pose s1) (cmd s1)).
  { unfold take_movement; rewrite Hi, Hr; simpl.
    rewrite Rleb_true by lra; reflexivity. }
  destruct (idle_tick_step wide_step_params left_then_right display s1)
    as (s2 & Ht & Hstep & _);
    [exact Ha | simpl; lra | right; rewrite Hz; lra
     | rewrite Htake; simpl; unfold wheel_circumference; simpl; lra |].
  rewrite Htake in Hstep; apply integrator_step_remaining in Hstep.
  exists s2; split; [exact Ht |].
  rewrite Hstep; simpl; rewrite Hi; reflexivity.
Qed.

End LeftThenRightAnyDisplay.

(** * Claims about the turn markers *)

(** C3, amended: in a run with the show-turns flag on, at every activation
    of a movement that has a movement before it, a marker is appended at
    the current reference point exactly when its selector differs from the
    selector of the movement before; with equal selectors no marker is
    appended, and an iteration that activates no movement appends none.
    In a run with the flag off no iteration appends a marker: the list of
    markers stays empty. *)
Theorem turn_marker_rule (params : RobotParameters)
  (init : InitialConditions) (movements : list Movement)
  (display : DisplayOptions) (ins : list Input) (s : Sim) (i : Input)
  (s' : Sim) :
  main params init movements display ins = Some s ->
  tick params movements display i s = Some s' ->
  (show_turns display = true ->
   (forall (j : nat) (m_prev m : Movement),
       movement_index (cmd s) = S j ->
       nth_error movements j = Some m_prev ->
       nth_error movements (S j) = Some m ->
       movement_index (cmd s') = S (S j) ->
       (instruction_markers (cmd s')
          = instruction_markers (cmd s) ++ [(x (pose s), y (pose s))]
        <-> wheel_of m <> wheel_of m_prev)
       /\ (wheel_of m = wheel_of m_prev ->
           instruction_markers (cmd s') = instruction_markers (cmd s)))
   /\ (movement_index (cmd s') = movement_index (cmd s) ->
       instruction_markers (cmd s') = instruction_markers (cmd s)))
  /\ (show_turns display = false ->
      instruction_markers (cmd s) = []
      /\ instruction_markers (cmd s') = []).
Proof.
  intros Hmain Ht; split.
  - intros Hshow.
    destruct (tick_marker_rule params init movements display ins s i s'
                Hshow Hmain Ht) as [Hrule Hsame].
    split; [| exact Hsame].
    intros j m_prev m Hi Hp Hn Hi'.
    destruct (Hrule m) as [[Hto Hfrom] Heq].
    + rewrite Hi; exact Hn.
    + rewrite Hi; exact Hi'.
    + rewrite Hi in Hto, Hfrom, Heq; simpl in Hto, Hfrom, Heq.
      rewrite Hp in Hto, Hfrom, Heq; simpl in Hto, Hfrom, Heq.
      split; [split |].
      * intros E Hw; apply (Hto E); now rewrite Hw.
      * intros Hne; apply Hfrom; intros E; apply Hne; congruence.
      * intros Hw; apply Heq; now rewrite Hw.
  - intros Hhide.
    pose proof (main_markers_hidden params init movements display ins s
                  Hhide Hmain) as Hnil.
    split; [exact Hnil |].
    rewrite (tick_markers_hidden params movements display i s s' Hhide Ht).
    exact Hnil.
Qed.

Lemma turn_marker_rule_witness :
  exists s s',
    main wide_step_params demo_init left_then_right markers_shown [idle]
    = Some s
    /\ tick wide_step_params left_then_right markers_shown idle s = Some s'
    /\ instruction_markers (cmd s')
       = instruction_markers (cmd s) ++ [(x (pose s), y (pose s))].
Proof.
  destruct (left_then_right_tick_one markers_shown)
    as (s1 & Ht1 & Hi1 & Hr1 & Ha1 & Hz1).
  destruct (left_then_right_tick_two markers_shown s1 Hi1 Hr1 Ha1 Hz1)
    as (s2 & Ht2 & Hi2).
  assert (Hmain : main wide_step_params demo_init left_then_right
                    markers_shown [idle] = Some s1).
  { unfold main.
    rewrite (run_cons wide_step_params left_then_right markers_shown idle []
               (initial_state wide_step_params demo_init) s1 eq_refl Ht1).
    reflexivity. }
  exists s1, s2; split; [exact Hmain |]; split; [exact Ht2 |].
  destruct (turn_marker_rule wide_step_params demo_init left_then_right
              markers_shown [idle] s1 idle s2 Hmain Ht2) as [Hshown _].
  destruct (Hshown eq_refl) as [Hrule _].
  destruct (Hrule 0%nat ("forward", "left", 1)%string
              ("forward", "right", 1)%string Hi1 eq_refl eq_refl Hi2)
    as [[_ Happ] _].
  apply Happ; discriminate.
Defined.

(** C3 as stated fails: with the show-turns flag off, the second movement
    of [left_then_right] is activated with a selector that differs from the
    first one's, and no marker is appended. *)
Lemma turn_marker_rule_needs_show_turns :
  exists s s',
    main wide_step_params demo_init left_then_right markers_hidden [idle]
    = Some s
    /\ tick wide_step_params left_then_right markers_hidden idle s = Some s'
    /\ ~ marker_rule left_then_right s s'.
Proof.
  destruct left_then_right_first_tick as (s1 & Ht1 & Hc1 & Ha1 & Hz1).
  destruct (left_then_right_second_tick s1 Hc1 Ha1 Hz1)
    as (s2 & Ht2 & Hi2 & Hm2).
  exists s1, s2; split; [| split; [exact Ht2 |]].
  - unfold main.
    rewrite (run_cons wide_step_params left_then_right markers_hidden idle []
               (initial_state wide_step_params demo_init) s1 eq_refl Ht1).
    reflexivity.
  - intros Hrule.
    destruct (Hrule ("forward", "right", 1)%string) as [[_ Happ] _].
    + rewrite Hc1; reflexivity.
    + rewrite Hc1, Hi2; reflexivity.
    + rewrite Hm2, Hc1 in Happ; simpl in Happ.
      assert (E : @nil (R * R) = [(x (pose s1), y (pose s1))])
        by (apply Happ; discriminate).
      discriminate.
Qed.

(** C10: with the show-turns flag on and a non-empty movement list, as long
    as no movement has been taken there is no marker, and the iteration
    that advances first takes the first movement and appends a marker at
    the initial reference point: [previous_wheel] is still [None], which
    differs from every selector. *)
Theorem first_command_marker (params : RobotParameters)
  (init : InitialConditions) (movements : list Movement)
  (display : DisplayOptions) (ins : list Input) (s : Sim) (i : Input)
  (s' : Sim) :
  show_turns display = true ->
  movements <> [] ->
  main params init movements display ins = Some s ->
  movement_index (cmd s) = 0%nat ->
  tick params movements display i s = Some s' ->
  advancing (play (handle_events s (events i))) = true ->
  instruction_markers (cmd s) = []
  /\ previous_wheel (cmd s) = None
  /\ movement_index (cmd s') = 1%nat
  /\ instruction_markers (cmd s') = [(init_x init, init_y init)].
Proof.
  intros Hshow Hne Hmain H0 Ht Hadv.
  destruct (main_at_start_inv params init movements display ins s Hmain H0)
    as [Hp Hc].
  rewrite Hc; split; [reflexivity |]; split; [reflexivity |].
  destruct (tick_cases params movements display i s s' Ht)
    as [(Ha & _) | (_ & Hm & _)]; [congruence |].
  apply move_movement_index in Hm as (-> & _ & _ & -> & _).
  rewrite Hp, Hc.
  destruct movements as [| m rest]; [contradiction |].
  unfold take_movement; simpl; rewrite Rleb_true by lra; simpl.
  destruct m as [[d w] r]; simpl; rewrite Hshow; simpl; auto.
Qed.

Lemma first_command_marker_witness :
  exists s1,
    tick demo_params demo_movements markers_shown idle
      (initial_state demo_params demo_init) = Some s1
    /\ movement_index (cmd s1) = 1%nat
    /\ instruction_markers (cmd s1) = [(-30, -20)].
Proof.
  destruct (demo_first_tick markers_shown) as (s1 & p1 & Ht & _).
  exists s1; split; [exact Ht |].
  refine (proj2 (proj2 (first_command_marker demo_params demo_init
                          demo_movements markers_shown [] _ idle s1
                          eq_refl _ eq_refl eq_refl Ht eq_refl))).
  discriminate.
Defined.

(** * Counting frames

    With exact arithmetic a command of target distance [d] is used up by
    [ceil(d / step_size)] integrator steps, which is what the lemmas of
    this part count; the runs of the witnesses are built with them.  The
    floats of the program round each subtraction, and the count can differ:
    see [frame_count_binary64]. *)

Section StepSums.

Variable params : RobotParameters.
Hypothesis step_size_pos : 0 < step_size params.
Hypothesis wheel_diameter_pos : 0 < wheel_diameter params.

Lemma target_distance_pos (m : Movement) :
  0 < rotations_of m -> 0 < target_distance params m.
Proof.
  intros H; unfold target_distance, wheel_circumference.
  pose proof PI_RGT_0.
  apply Rmult_lt_0_compat; [assumption |].
  apply Rmult_lt_0_compat; assumption.
Qed.

Lemma steps_of_pos (m : Movement) :
  0 < rotations_of m -> (1 <= steps_of params m)%Z.
Proof.
  intros H; apply Rceil_pos, Rdiv_lt_0_compat;
    [apply target_distance_pos, H | assumption].
Qed.

Lemma total_steps_app (l1 l2 : list Movement) :
  total_steps params (l1 ++ l2)
  = (total_steps params l1 + total_steps params l2)%Z.
Proof.
  induction l1 as [| m l1 IH]; simpl; [reflexivity |].
  unfold total_steps in *; simpl; rewrite IH; lia.
Qed.

Lemma total_steps_nonneg (l : list Movement) :
  Forall (fun m => 0 < rotations_of m) l -> (0 <= total_steps params l)%Z.
Proof.
  induction 1 as [| m l Hm _ IH]; unfold total_steps in *; simpl; [lia |].
  pose proof (steps_of_pos m Hm); lia.
Qed.

Lemma total_steps_zero (l : list Movement) :
  Forall (fun m => 0 < rotations_of m) l ->
  total_steps params l = 0%Z -> l = [].
Proof.
  intros Hl; destruct Hl as [| m l Hm Hl]; [reflexivity |].
  unfold total_steps; simpl; fold (total_steps params l).
  pose proof (steps_of_pos m Hm); pose proof (total_steps_nonneg l Hl); lia.
Qed.

Lemma total_steps_split (l : list Movement) (k : nat) :
  total_steps params l
  = (total_steps params (firstn k l) + total_steps params (skipn k l))%Z.
Proof. now rewrite <- total_steps_app, firstn_skipn. Qed.

Lemma firstn_succ_nth (l : list Movement) (k : nat) (m : Movement) :
  nth_error l k = Some m -> firstn (S k) l = firstn k l ++ [m].
Proof.
  revert k; induction l as [| a l IH]; intros [| k] H; simpl in *;
    try discriminate.
  - now injection H as ->.
  - now rewrite (IH k H).
Qed.

Lemma total_steps_firstn_succ (l : list Movement) (k : nat) (m : Movement) :
  nth_error l k = Some m ->
  total_steps params (firstn (S k) l)
  = (total_steps params (firstn k l) + steps_of params m)%Z.
Proof.
  intros H; rewrite (firstn_succ_nth l k m H), total_steps_app.
  unfold total_steps at 2; simpl; lia.
Qed.

(** One step lowers the number of steps still needed by one. *)
Lemma Rceil_after_step (r : R) :
  0 < r ->
  Rceil ((r - Rmin (step_size params) r) / step_size params)
  = (Rceil (r / step_size params) - 1)%Z.
Proof.
  intros Hr.
  destruct (Rle_lt_dec r (step_size params)) as [Hle | Hgt].
  - rewrite Rmin_right by assumption.
    rewrite (Rceil_steps_last params step_size_pos r) by (split; assumption).
    replace ((r - r) / step_size params) with 0 by (field; lra).
    now rewrite Rceil_0.
  - rewrite Rmin_left by lra.
    apply (Rceil_steps_succ params step_size_pos r Hgt).
Qed.

End StepSums.

Section FrameCount.

Variable params : RobotParameters.
Variable movements : list Movement.
Variable display : DisplayOptions.
Hypothesis step_size_pos : 0 < step_size params.
Hypothesis wheel_diameter_pos : 0 < wheel_diameter params.
Hypothesis rotations_pos : Forall (fun m => 0 < rotations_of m) movements.

Lemma nth_rotations_pos (k : nat) (m : Movement) :
  nth_error movements k = Some m -> 0 < rotations_of m.
Proof.
  intros H; apply nth_error_In in H.
  rewrite Forall_forall in rotations_pos; now apply rotations_pos.
Qed.

(** While the run is not finished, after lines 238-248 some distance
    remains, and the work still to do is what it was. *)
Lemma take_movement_work (s : Sim) :
  count_inv params movements s ->
  simulation_finished (play s) = false ->
  let c := take_movement params movements display (pose s) (cmd s) in
  0 < remaining_distance c
  /\ (movement_index c <= List.length movements)%nat
  /\ (total_steps params (firstn (movement_index c) movements)
      - Rceil (remaining_distance c / step_size params)
      = total_steps params (firstn (movement_index (cmd s)) movements)
        - Rceil (remaining_distance (cmd s) / step_size params))%Z.
Proof.
  intros (Hr & Hi & _ & Hfin) Hnf c; subst c.
  destruct (take_movement_cases params movements display (pose s) (cmd s))
    as [[-> Hwhy] | (Hr0 & m & Hn & ->)].
  - split; [| split; [assumption | reflexivity]].
    destruct Hwhy as [Hpos | Hlen]; [assumption |].
    destruct (Rlt_le_dec 0 (remaining_distance (cmd s))) as [Hpos | Hle];
      [assumption |].
    assert (simulation_finished (play s) = true) by (apply Hfin; auto).
    congruence.
  - destruct (activate_fields params display m (pose s) (cmd s))
      as (-> & -> & _).
    assert (Hk : (movement_index (cmd s) < List.length movements)%nat).
    { apply nth_error_Some; congruence. }
    split; [apply target_distance_pos, (nth_rotations_pos _ _ Hn);
            assumption |].
    split; [lia |].
    rewrite (total_steps_firstn_succ params movements _ m Hn).
    assert (remaining_distance (cmd s) = 0) as -> by lra.
    replace (0 / step_size params) with 0 by (field; lra).
    rewrite Rceil_0; unfold steps_of; lia.
Qed.

Lemma handle_scrubbing_finished (fs : list Frame) (pl : Playback) :
  simulation_finished (handle_scrubbing fs pl) = simulation_finished pl.
Proof.
  unfold handle_scrubbing.
  destruct (scrubbing pl && (paused pl || simulation_finished pl));
    reflexivity.
Qed.

Lemma advancing_not_finished (pl : Playback) :
  advancing pl = true -> simulation_finished pl = false.
Proof.
  unfold advancing; destruct (simulation_finished pl); [| reflexivity].
  rewrite andb_false_r; discriminate.
Qed.

Lemma tick_count_inv (i : Input) (s s' : Sim) :
  count_inv params movements s ->
  tick params movements display i s = Some s' ->
  count_inv params movements s'
  /\ (advancing (play (handle_events s (events i))) = true ->
      len (frames s') = (len (frames s) + 1)%Z).
Proof.
  intros Hinv Ht.
  destruct (tick_cases params movements display i s s' Ht)
    as [(Ha & _ & Hc & Hf & _ & Hpl) | (Ha & Hm & Hf & Hpl)].
  - split; [| congruence].
    unfold count_inv; rewrite Hc, Hf, Hpl, handle_scrubbing_finished,
      handle_events_finished; exact Hinv.
  - pose proof (advancing_not_finished _ Ha) as Hnf.
    rewrite handle_events_finished in Hnf.
    destruct (take_movement_work s Hinv Hnf) as (Hpos & Hidx & Hwork).
    destruct Hinv as (_ & _ & Hlen & _).
    apply move_cases in Hm as [(Hle & _) | (_ & Hstep & _)]; [lra |].
    apply integrator_step_remaining in Hstep.
    set (c := take_movement params movements display (pose s) (cmd s)) in *.
    assert (Hrem' : remaining_distance (cmd s')
                    = remaining_distance c
                      - Rmin (step_size params) (remaining_distance c))
      by (rewrite Hstep; reflexivity).
    assert (Hidx' : movement_index (cmd s') = movement_index c)
      by (rewrite Hstep; reflexivity).
    assert (Hlen' : len (frames s') = (len (frames s) + 1)%Z).
    { rewrite Hf; unfold len; rewrite length_app; simpl; lia. }
    split; [| intros _; exact Hlen'].
    unfold count_inv; rewrite Hidx', Hrem', Hlen'.
    rewrite (Rceil_after_step params step_size_pos _ Hpos).
    split; [pose proof (Rmin_r (step_size params) (remaining_distance c));
            lra |].
    split; [exact Hidx |]; split; [lia |].
    rewrite Hpl; simpl; unfold finished_after.
    rewrite Hidx', Hrem',
      (advancing_not_finished _ Ha).
    destruct (List.length movements <=? movement_index c)%nat eqn:Hl; simpl.
    + apply Nat.leb_le in Hl.
      unfold Rleb; destruct (Rle_dec _ 0); split; intros; auto;
        try discriminate; tauto.
    + apply Nat.leb_gt in Hl; split; [discriminate | intros [? _]; lia].
Qed.

Lemma initial_count_inv (init : InitialConditions) :
  movements <> [] ->
  count_inv params movements (initial_state params init).
Proof.
  intros Hne; unfold count_inv; simpl.
  replace (0 / step_size params) with 0 by (field; lra).
  rewrite Rceil_0; split; [lra |]; split; [lia |]; split; [reflexivity |].
  split; [discriminate |].
  intros [Hl _]; destruct movements; [contradiction | simpl in Hl; lia].
Qed.

Lemma main_count_inv (init : InitialConditions) (ins : list Input)
  (s : Sim) :
  movements <> [] ->
  main params init movements display ins = Some s ->
  count_inv params movements s.
Proof.
  intros Hne H.
  apply (run_invariant params movements display
           (count_inv params movements)) in H;
    [exact H | | apply initial_count_inv, Hne].
  intros i s0 s0' H0 Ht; apply (tick_count_inv i s0 s0' H0 Ht).
Qed.

(** A finished state has all its frames. *)
Lemma finished_frame_count (s : Sim) :
  count_inv params movements s ->
  simulation_finished (play s) = true ->
  len (frames s) = (1 + total_steps params movements)%Z.
Proof.
  intros (Hr & Hi & Hlen & Hfin) Hf.
  apply Hfin in Hf as [Hl Hr0].
  rewrite Hlen, firstn_all2 by assumption.
  assert (remaining_distance (cmd s) = 0) as -> by lra.
  replace (0 / step_size params) with 0 by (field; lra).
  rewrite Rceil_0; lia.
Qed.

(** And a state with all its frames is finished. *)
Lemma frame_count_finished (s : Sim) :
  count_inv params movements s ->
  len (frames s) = (1 + total_steps params movements)%Z ->
  simulation_finished (play s) = true.
Proof.
  intros (Hr & Hi & Hlen & Hfin) Hall.
  rewrite (total_steps_split params movements (movement_index (cmd s)))
    in Hall.
  assert (Hskip : Forall (fun m => 0 < rotations_of m)
                    (skipn (movement_index (cmd s)) movements)).
  { rewrite Forall_forall in *; intros m Hm.
    apply rotations_pos.
    rewrite <- (firstn_skipn (movement_index (cmd s)) movements).
    apply in_or_app; now right. }
  pose proof (total_steps_nonneg params step_size_pos wheel_diameter_pos
                _ Hskip) as Hnn.
  destruct (Rlt_le_dec 0 (remaining_distance (cmd s))) as [Hpos | Hle].
  - pose proof (Rceil_pos _ (Rdiv_lt_0_compat _ _ Hpos step_size_pos)); lia.
  - assert (remaining_distance (cmd s) = 0) as Hz by lra.
    rewrite Hz in Hlen.
    replace (0 / step_size params) with 0 in Hlen by (field; lra).
    rewrite Rceil_0 in Hlen.
    apply Hfin; split; [| assumption].
    assert (Hnil : skipn (movement_index (cmd s)) movements = []).
    { apply (total_steps_zero params step_size_pos wheel_diameter_pos);
        [assumption | lia]. }
    apply (f_equal (@List.length _)) in Hnil.
    rewrite length_skipn in Hnil; simpl in Hnil; lia.
Qed.

End FrameCount.

Section RunToTheEnd.

Variable params : RobotParameters.
Variable movements : list Movement.
Variable display : DisplayOptions.
Hypothesis step_size_pos : 0 < step_size params.
Hypothesis wheel_diameter_pos : 0 < wheel_diameter params.
Hypothesis robot_width_nonzero : robot_width params <> 0.
Hypothesis rotations_pos : Forall (fun m => 0 < rotations_of m) movements.

Lemma idle_run_finishes (n : nat) :
  forall s,
    count_inv params movements s ->
    free_running s ->
    show_grid display = false \/ zoom (cam s) <> 0 ->
    (len (frames s) + Z.of_nat n = 1 + total_steps params movements)%Z ->
    exists s',
      run params movements display (repeat idle n) s = Some s'
      /\ simulation_finished (play s') = true.
Proof.
  induction n as [| n IH]; intros s Hinv (Hp & Hs & Hrun) Hg Hlen.
  - exists s; split; [reflexivity |].
    apply (frame_count_finished params movements step_size_pos
             wheel_diameter_pos rotations_pos s Hinv); lia.
  - assert (Hnf : simulation_finished (play s) = false).
    { destruct (simulation_finished (play s)) eqn:Hf; [| reflexivity].
      pose proof (finished_frame_count params movements step_size_pos
                    s Hinv Hf); lia. }
    assert (Ha : advancing (play s) = true)
      by (unfold advancing; rewrite Hp, Hs, Hnf; reflexivity).
    destruct (take_movement_work params movements display step_size_pos
                wheel_diameter_pos rotations_pos s Hinv Hnf)
      as (Hpos & _).
    destruct (idle_tick_step params movements display s Ha
                robot_width_nonzero Hg Hpos)
      as (s1 & Ht & _ & _ & Hpl & Hz).
    destruct (tick_count_inv params movements display step_size_pos
                wheel_diameter_pos rotations_pos idle s s1 Hinv Ht)
      as [Hinv1 Hlen1].
    specialize (Hlen1 Ha).
    destruct (IH s1 Hinv1) as (s' & Hrun' & Hfin').
    + unfold free_running; rewrite Hpl; simpl; auto.
    + rewrite Hz; exact Hg.
    + lia.
    + exists s'; split; [| exact Hfin'].
      simpl repeat.
      rewrite (run_cons params movements display idle (repeat idle n)
                 s s1 Hrun Ht); exact Hrun'.
Qed.

End RunToTheEnd.

(** * One frame per integrator step *)

Section FramePerStep.

Variable params : RobotParameters.
Variable movements : list Movement.
Variable display : DisplayOptions.
Hypothesis targets_pos :
  Forall (fun m => 0 < target_distance params m) movements.

(** While the run is not finished, after lines 238-248 some distance
    remains. *)
Lemma take_movement_positive (s : Sim) :
  frame_per_step_inv movements s ->
  simulation_finished (play s) = false ->
  0 < remaining_distance
        (take_movement params movements display (pose s) (cmd s)).
Proof.
  intros [_ Hfin] Hnf.
  destruct (take_movement_cases params movements display (pose s) (cmd s))
    as [[-> Hwhy] | (_ & m & Hn & ->)].
  - destruct Hwhy as [Hpos | Hlen]; [assumption |].
    destruct (Rlt_le_dec 0 (remaining_distance (cmd s))) as [Hpos | Hle];
      [assumption |].
    rewrite Hfin in Hnf by auto; discriminate.
  - destruct (activate_fields params display m (pose s) (cmd s))
      as (_ & -> & _).
    apply nth_error_In in Hn.
    rewrite Forall_forall in targets_pos; now apply targets_pos.
Qed.

(** An iteration either leaves command, frames and path alone, or makes
    exactly one integrator step and records exactly one frame. *)
Lemma tick_frame_per_step (i : Input) (s s' : Sim) :
  frame_per_step_inv movements s ->
  tick params movements display i s = Some s' ->
  frame_per_step_inv movements s'
  /\ ((steps_taken s' = steps_taken s /\ frames s' = frames s
       /\ cmd s' = cmd s)
      \/ (let c := take_movement params movements display (pose s) (cmd s) in
          steps_taken s' = (steps_taken s + 1)%Z
          /\ len (frames s') = (len (frames s) + 1)%Z
          /\ 0 < remaining_distance c
          /\ integrator_step params (pose s) c = Some (pose s', cmd s')
          /\ remaining_distance (cmd s')
             = remaining_distance c
               - Rmin (step_size params) (remaining_distance c))).
Proof.
  intros Hinv Ht.
  destruct (tick_cases params movements display i s s' Ht)
    as [(Ha & _ & Hc & Hf & Hpa & Hpl) | (Ha & Hm & Hf & Hpl)].
  - split; [| left; unfold steps_taken; rewrite Hpa; auto].
    unfold frame_per_step_inv, steps_taken.
    rewrite Hc, Hf, Hpa, Hpl, handle_scrubbing_finished,
      handle_events_finished; exact Hinv.
  - pose proof (advancing_not_finished _ Ha) as Hnf.
    rewrite handle_events_finished in Hnf.
    pose proof (take_movement_positive s Hinv Hnf) as Hpos.
    destruct Hinv as [Hlen _].
    apply move_cases in Hm as [(Hle & _) | (_ & Hint & Hpth)]; [lra |].
    pose proof (integrator_step_remaining params _ _ _ _ Hint) as Hstep.
    assert (Hsteps : steps_taken s' = (steps_taken s + 1)%Z).
    { unfold steps_taken, len; rewrite Hpth, length_app; simpl; lia. }
    assert (Hlen' : len (frames s') = (len (frames s) + 1)%Z).
    { rewrite Hf; unfold len; rewrite length_app; simpl; lia. }
    split.
    + split; [lia |].
      intros [Hl Hr]; rewrite Hpl; simpl; unfold finished_after.
      apply Nat.leb_le in Hl; rewrite Hl, Rleb_true by assumption.
      reflexivity.
    + right; cbv zeta; repeat split; auto.
      rewrite Hstep; reflexivity.
Qed.

Lemma initial_frame_per_step (init : InitialConditions) :
  movements <> [] ->
  frame_per_step_inv movements (initial_state params init).
Proof.
  intros Hne; split; [reflexivity |].
  intros [Hl _]; destruct movements; [contradiction | simpl in Hl; lia].
Qed.

Lemma main_frame_per_step (init : InitialConditions) (ins : list Input)
  (s : Sim) :
  movements <> [] ->
  main params init movements display ins = Some s ->
  frame_per_step_inv movements s.
Proof.
  intros Hne H.
  apply (run_invariant params movements display
           (frame_per_step_inv movements)) in H;
    [exact H | | apply initial_frame_per_step, Hne].
  intros i s0 s0' H0 Ht; apply (tick_frame_per_step i s0 s0' H0 Ht).
Qed.

End FramePerStep.

(** * Claim about the number of frames *)

(** C4, amended: for a non-empty movement list whose target distances are
    positive, in every state of every run, and so after the run has
    finished, the number of recorded frames is 1 (the initial frame) plus
    the number of integrator steps made; every iteration either makes no
    step and records nothing new about the command, or makes exactly one
    step, which consumes exactly [min(step_size, remaining)], and records
    exactly one frame. *)
Theorem frame_count_after_run (params : RobotParameters)
  (init : InitialConditions) (movements : list Movement)
  (display : DisplayOptions) (ins : list Input) (s : Sim) :
  movements <> [] ->
  Forall (fun m => 0 < target_distance params m) movements ->
  main params init movements display ins = Some s ->
  len (frames s) = (1 + steps_taken s)%Z
  /\ (forall (i : Input) (s' : Sim),
        tick params movements display i s = Some s' ->
        (steps_taken s' = steps_taken s /\ frames s' = frames s
         /\ cmd s' = cmd s)
        \/ (let c := take_movement params movements display (pose s)
                       (cmd s) in
            steps_taken s' = (steps_taken s + 1)%Z
            /\ len (frames s') = (len (frames s) + 1)%Z
            /\ 0 < remaining_distance c
            /\ integrator_step params (pose s) c = Some (pose s', cmd s')
            /\ remaining_distance (cmd s')
               = remaining_distance c
                 - Rmin (step_size params) (remaining_distance c))).
Proof.
  intros Hne Htargets Hmain.
  pose proof (main_frame_per_step params movements display Htargets init
                ins s Hne Hmain) as Hinv.
  split; [exact (proj1 Hinv) |].
  intros i s' Ht.
  exact (proj2 (tick_frame_per_step params movements display Htargets
                  i s s' Hinv Ht)).
Qed.

Lemma frame_count_after_run_witness :
  exists s,
    main wide_step_params demo_init left_then_right markers_shown
      (repeat idle (Z.to_nat (total_steps wide_step_params left_then_right)))
    = Some s
    /\ simulation_finished (play s) = true
    /\ len (frames s) = (1 + steps_taken s)%Z.
Proof.
  assert (H1 : 0 < step_size wide_step_params) by (simpl; lra).
  assert (H2 : 0 < wheel_diameter wide_step_params) by (simpl; lra).
  assert (H3 : robot_width wide_step_params <> 0) by (simpl; lra).
  assert (H4 : Forall (fun m => 0 < rotations_of m) left_then_right)
    by (repeat constructor; simpl; lra).
  assert (H5 : left_then_right <> []) by discriminate.
  assert (H6 : Forall (fun m => 0 < target_distance wide_step_params m)
                 left_then_right).
  { pose proof PI_RGT_0.
    repeat constructor; unfold target_distance, wheel_circumference;
      simpl; lra. }
  destruct (idle_run_finishes wide_step_params left_then_right markers_shown
              H1 H2 H3 H4
              (Z.to_nat (total_steps wide_step_params left_then_right))
              (initial_state wide_step_params demo_init))
    as (s & Hrun & Hfin).
  { apply initial_count_inv; try assumption; discriminate. }
  { repeat split; reflexivity. }
  { right; simpl; lra. }
  { pose proof (total_steps_nonneg wide_step_params H1 H2 left_then_right H4).
    change (len (frames (initial_state wide_step_params demo_init)))
      with 1%Z; lia. }
  exists s; split; [exact Hrun |]; split; [exact Hfin |].
  exact (proj1 (frame_count_after_run wide_step_params demo_init
                  left_then_right markers_shown _ s H5 H6 Hrun)).
Defined.

(** On the empty movement list the first iteration finds nothing to do,
    sets the finished flag and still records a frame, so the finished run
    has two frames, not one. *)
Lemma frame_count_empty_list :
  exists s,
    main demo_params demo_init [] markers_shown [idle] = Some s
    /\ simulation_finished (play s) = true
    /\ len (frames s) = 2%Z
    /\ len (frames s) <> (1 + total_steps demo_params [])%Z.
Proof.
  set (s0 := initial_state demo_params demo_init).
  assert (Hmove : move demo_params (pose s0)
                    (take_movement demo_params [] markers_shown (pose s0)
                       (cmd s0)) (path s0)
                  = Some (pose s0, cmd s0, path s0)).
  { unfold take_movement, move; simpl.
    rewrite Rleb_true by lra; simpl.
    rewrite Rltb_false by lra; reflexivity. }
  destruct (tick_idle_advance demo_params [] markers_shown s0 _ _ _
              eq_refl Hmove) as (s1 & Ht & _ & _ & _ & Hf & Hpl & _).
  { right; simpl; lra. }
  exists s1; split; [| split; [| split]].
  - unfold main; fold s0.
    rewrite (run_cons demo_params [] markers_shown idle [] s0 s1 eq_refl Ht).
    reflexivity.
  - rewrite Hpl; simpl; unfold finished_after; simpl.
    rewrite Rleb_true by lra; reflexivity.
  - rewrite Hf; reflexivity.
  - rewrite Hf; discriminate.
Qed.

(** In binary64 the repeated subtraction of line 281 leaves a rest after
    [ceil(targetDistance / stepSize)] steps: the command of about 100 mm in
    steps of 0.1 mm is not used up after 1000 iterations and takes a
    1001st step. *)
Lemma frame_count_binary64 :
  let after n :=
    run_f fine_step_size 20 [fine_rotations] n initial_state_f in
  steps_of_f fine_step_size 20 fine_rotations = Some 1000%Z
  /\ simulation_finished_f (after 1000%nat) = false
  /\ PrimFloat.ltb 0 (remaining_distance_f (after 1000%nat)) = true
  /\ simulation_finished_f (after 1001%nat) = true
  /\ steps_f (after 1001%nat) = 1001%nat
  /\ frames_f (after 1001%nat) = 1002%nat.
Proof. vm_compute; repeat split; reflexivity. Qed.

(** C4 as stated fails twice: on the empty movement list, where the
    finished run has 2 frames and the formula gives 1; and, with the floats
    of the program, on a single command with positive rotation count and
    step size, where the finished run has 1002 frames and the formula gives
    [1 + ceil(targetDistance / stepSize) = 1001]. *)
Lemma frame_count_formula_fails :
  (exists s,
      main demo_params demo_init [] markers_shown [idle] = Some s
      /\ simulation_finished (play s) = true
      /\ len (frames s) = 2%Z
      /\ len (frames s) <> (1 + total_steps demo_params [])%Z)
  /\ (exists s n,
        run_f fine_step_size 20 [fine_rotations] 1001 initial_state_f = s
        /\ simulation_finished_f s = true
        /\ steps_of_f fine_step_size 20 fine_rotations = Some n
        /\ Z.of_nat (frames_f s) = 1002%Z
        /\ Z.of_nat (frames_f s) <> (1 + n)%Z).
Proof.
  split; [exact frame_count_empty_list |].
  eexists; exists 1000%Z; split; [reflexivity |].
  vm_compute; repeat split; try reflexivity; discriminate.
Qed.

(** * Independence of display options and camera *)

Section Independence.

Variable params : RobotParameters.
Variable movements : list Movement.

Lemma handle_event_play_congr (s1 s2 : Sim) (e : event) :
  play s1 = play s2 -> play (handle_event s1 e) = play (handle_event s2 e).
Proof.
  intros H; destruct e as [| k | k |]; try destruct k; simpl; congruence.
Qed.

Lemma handle_events_play_congr (evs : list event) (s1 s2 : Sim) :
  play s1 = play s2 ->
  play (handle_events s1 evs) = play (handle_events s2 evs).
Proof.
  revert s1 s2; induction evs as [| e evs IH]; intros s1 s2 H; simpl;
    [exact H |].
  apply IH, handle_event_play_congr, H.
Qed.

Lemma camera_event_play (s : Sim) (e : event) :
  control_event e = false -> play (handle_event s e) = play s.
Proof.
  destruct e as [| k | k |]; try destruct k; simpl;
    try discriminate; reflexivity.
Qed.

Lemma handle_events_play_filter (evs : list event) (s : Sim) :
  play (handle_events s evs)
  = play (handle_events s (filter control_event evs)).
Proof.
  revert s; induction evs as [| e evs IH]; intros s; simpl; [reflexivity |].
  destruct (control_event e) eqn:He; simpl.
  - apply IH.
  - rewrite <- IH.
    apply handle_events_play_congr, camera_event_play, He.
Qed.

Lemma same_control_play (i1 i2 : Input) (s1 s2 : Sim) :
  same_control i1 i2 ->
  play s1 = play s2 ->
  play (handle_events s1 (events i1)) = play (handle_events s2 (events i2)).
Proof.
  unfold same_control; intros Hc Hp.
  rewrite (handle_events_play_filter (events i1)),
    (handle_events_play_filter (events i2)), Hc.
  apply handle_events_play_congr, Hp.
Qed.

Lemma take_movement_trajectory (d1 d2 : DisplayOptions) (p : Pose)
  (c1 c2 : Command) :
  trajectory_state c1 = trajectory_state c2 ->
  trajectory_state (take_movement params movements d1 p c1)
  = trajectory_state (take_movement params movements d2 p c2).
Proof.
  unfold trajectory_state, take_movement; intros H.
  injection H as Hi Hr Ha Hs; rewrite Hi, Hr.
  destruct (Rleb (remaining_distance c2) 0
            && (movement_index c2 <? List.length movements)%nat);
    [| congruence].
  destruct (nth_error movements (movement_index c2)) as [[[d w] r] |];
    simpl; congruence.
Qed.

Lemma integrator_step_trajectory (p p1 p2 : Pose) (c1 c2 c1' c2' : Command) :
  trajectory_state c1 = trajectory_state c2 ->
  integrator_step params p c1 = Some (p1, c1') ->
  integrator_step params p c2 = Some (p2, c2') ->
  p1 = p2 /\ trajectory_state c1' = trajectory_state c2'.
Proof.
  unfold trajectory_state, integrator_step; intros H H1 H2.
  injection H as Hi Hr Ha Hs; rewrite Hr, Ha, Hs in H1.
  apply bind_some in H1 as (q1 & Hq1 & H1).
  apply bind_some in H2 as (q2 & Hq2 & H2).
  rewrite Hq1 in Hq2; injection Hq2 as ->.
  injection H1 as <- <-; injection H2 as <- <-; simpl.
  split; congruence.
Qed.

Lemma move_trajectory (p p1 p2 : Pose) (c1 c2 c1' c2' : Command)
  (pth1 pth2 pth1' pth2' : list (R * R)) :
  trajectory_state c1 = trajectory_state c2 ->
  move params p c1 pth1 = Some (p1, c1', pth1') ->
  move params p c2 pth2 = Some (p2, c2', pth2') ->
  p1 = p2 /\ trajectory_state c1' = trajectory_state c2'.
Proof.
  intros H H1 H2.
  assert (Hr : remaining_distance c1 = remaining_distance c2)
    by (unfold trajectory_state in H; congruence).
  apply move_cases in H1 as [(Hle1 & -> & -> & _) | (Hpos1 & Hs1 & _)];
    apply move_cases in H2 as [(Hle2 & -> & -> & _) | (Hpos2 & Hs2 & _)];
    try lra; [auto |].
  apply (integrator_step_trajectory p p1 p2 c1 c2 c1' c2' H Hs1 Hs2).
Qed.

Lemma frame_pose_record (p : Pose) (c : Command) :
  frame_pose (record_frame p c) = p.
Proof. destruct p; reflexivity. Qed.

Lemma handle_scrubbing_len (fs1 fs2 : list Frame) (pl : Playback) :
  len fs1 = len fs2 -> handle_scrubbing fs1 pl = handle_scrubbing fs2 pl.
Proof. unfold handle_scrubbing; intros ->; reflexivity. Qed.

Lemma finished_after_trajectory (c1 c2 : Command) (pl : Playback) :
  trajectory_state c1 = trajectory_state c2 ->
  finished_after movements c1 pl = finished_after movements c2 pl.
Proof.
  unfold trajectory_state, finished_after; intros H.
  injection H as Hi Hr _ _; now rewrite Hi, Hr.
Qed.

Lemma map_len {A B : Type} (f : A -> B) (l1 l2 : list A) :
  map f l1 = map f l2 -> len l1 = len l2.
Proof.
  intros H; apply (f_equal (@List.length _)) in H.
  rewrite !length_map in H; unfold len; now rewrite H.
Qed.

Lemma tick_core (d1 d2 : DisplayOptions) (i1 i2 : Input)
  (s1 s2 s1' s2' : Sim) :
  core s1 = core s2 ->
  same_control i1 i2 ->
  tick params movements d1 i1 s1 = Some s1' ->
  tick params movements d2 i2 s2 = Some s2' ->
  core s1' = core s2'.
Proof.
  unfold core; intros Hcore Hsame H1 H2.
  assert (Hp : pose s1 = pose s2) by congruence.
  assert (Htr : trajectory_state (cmd s1) = trajectory_state (cmd s2))
    by congruence.
  assert (Hpl : play s1 = play s2) by congruence.
  assert (Hfs : map frame_pose (frames s1) = map frame_pose (frames s2))
    by congruence.
  clear Hcore.
  pose proof (same_control_play i1 i2 s1 s2 Hsame Hpl) as Hev.
  pose proof (map_len _ _ _ Hfs) as Hlen.
  destruct (tick_cases params movements d1 i1 s1 s1' H1)
    as [(Ha1 & Hp1 & Hc1 & Hf1 & _ & Hpl1) | (Ha1 & Hm1 & Hf1 & Hpl1)];
    destruct (tick_cases params movements d2 i2 s2 s2' H2)
      as [(Ha2 & Hp2 & Hc2 & Hf2 & _ & Hpl2) | (Ha2 & Hm2 & Hf2 & Hpl2)];
    try congruence.
  - rewrite Hp1, Hp2, Hc1, Hc2, Hf1, Hf2, Hpl1, Hpl2, Hev, Hp, Htr, Hfs.
    now rewrite (handle_scrubbing_len _ _ _ Hlen).
  - rewrite Hp in Hm1.
    destruct (move_trajectory _ _ _ _ _ _ _ _ _ _ _
                (take_movement_trajectory d1 d2 (pose s2) _ _ Htr) Hm1 Hm2)
      as [Hp' Htr'].
    assert (Hfs' : map frame_pose (frames s1') = map frame_pose (frames s2')).
    { rewrite Hf1, Hf2, !map_app, Hfs; simpl.
      now rewrite !frame_pose_record, Hp'. }
    rewrite Hpl1, Hpl2, Hev, Hp', Htr', Hfs'.
    rewrite (finished_after_trajectory _ _ _ Htr').
    unfold advanced_playback; rewrite (map_len _ _ _ Hfs'); reflexivity.
Qed.

Lemma run_core (d1 d2 : DisplayOptions) (ins1 ins2 : list Input) :
  Forall2 same_control ins1 ins2 ->
  forall s1 s2 s1' s2',
    core s1 = core s2 ->
    run params movements d1 ins1 s1 = Some s1' ->
    run params movements d2 ins2 s2 = Some s2' ->
    core s1' = core s2'.
Proof.
  induction 1 as [| i1 i2 ins1 ins2 Hi _ IH]; intros s1 s2 s1' s2' Hc H1 H2;
    simpl in H1, H2.
  - injection H1 as <-; injection H2 as <-; exact Hc.
  - assert (Hr : running (play s1) = running (play s2))
      by (unfold core in Hc; congruence).
    rewrite Hr in H1; destruct (running (play s2)).
    + apply bind_some in H1 as (t1 & Ht1 & H1).
      apply bind_some in H2 as (t2 & Ht2 & H2).
      apply (IH t1 t2 s1' s2'); auto.
      apply (tick_core d1 d2 i1 i2 s1 s2 t1 t2 Hc Hi Ht1 Ht2).
    + injection H1 as <-; injection H2 as <-; exact Hc.
Qed.

End Independence.

(** * Progress of an iteration with camera input *)

Section CameraProgress.

Variable params : RobotParameters.
Variable movements : list Movement.
Variable display : DisplayOptions.

Lemma pan_controls_total (ks : key -> bool) (c : Camera) :
  zoom c <> 0 -> exists c', pan_controls ks c = Some c'.
Proof.
  intros Hz; unfold pan_controls, pdiv; rewrite (Reqb_false _ _ Hz).
  destruct (ks K_LEFT), (ks K_RIGHT), (ks K_UP), (ks K_DOWN); simpl; eauto.
Qed.

Lemma reset_view_zoom (fs : list Frame) (c : Camera) :
  fs <> [] -> 1 <= zoom (reset_view fs c).
Proof.
  destruct fs as [| f fs]; [contradiction |]; intros _.
  unfold reset_view; cbv zeta; cbn [zoom].
  change (IZR ZOOM_MIN) with 1; apply Rmax_r.
Qed.

Lemma tick_advance (i : Input) (s : Sim) (p : Pose) (c : Command)
  (pth : list (R * R)) :
  advancing (play (handle_events s (events i))) = true ->
  move params (pose s)
    (take_movement params movements display (pose s) (cmd s)) (path s)
  = Some (p, c, pth) ->
  zoom (cam (handle_events s (events i))) <> 0 ->
  show_grid display = false ->
  exists s',
    tick params movements display i s = Some s'
    /\ pose s' = p /\ cmd s' = c
    /\ frames s' = frames s ++ [record_frame p c].
Proof.
  intros Ha Hm Hz Hg.
  destruct (handle_events_fixed (events i) s) as (Hp & Hc & Hf & Hpa).
  set (se := handle_events s (events i)) in *.
  destruct (pan_controls_total (keys i) (cam se) Hz) as [cm Hcm].
  set (fin := finished_after movements c (play se)).
  assert (Hcm' : exists cm',
             (if negb fin && negb (any_pan_key (keys i))
              then autoscroll p cm else Some cm) = Some cm').
  { destruct (negb fin && negb (any_pan_key (keys i))); [| eauto].
    destruct (autoscroll_total p cm) as (cm' & -> & _); eauto. }
  destruct Hcm' as [cm' Hcm'].
  set (s' := {| pose := p; cmd := c;
                play := advanced_playback (play se) fin
                          (frames s ++ [record_frame p c]);
                cam := cm';
                frames := frames s ++ [record_frame p c];
                path := pth |}).
  assert (Hu : update params movements display i s = Some s').
  { unfold update; fold se; rewrite Hcm; simpl.
    unfold simulate; simpl.
    rewrite advancing_handle_scrubbing, Ha, Hp, Hc, Hpa, Hm; simpl.
    rewrite (handle_scrubbing_advancing _ _ Ha); fold fin.
    rewrite Hcm'; simpl; rewrite Hf; reflexivity. }
  destruct (draw_after_append params display s' (frames s)
              (record_frame p c)) as [d Hd];
    [reflexivity | reflexivity | left; exact Hg |].
  exists s'; unfold tick; rewrite Hu; simpl; rewrite Hd; simpl; auto.
Qed.

End CameraProgress.

(** * Claim about display options and camera *)

(** C9: two runs of the same geometry, initial conditions and movement
    list, fed the same pause, scrub and quit events, record frames with the
    same pose fields at every index, whatever the display flags, the
    reset-view, pan and zoom events and the keys held in each of them. *)
Theorem trajectory_independent_of_view (params : RobotParameters)
  (init : InitialConditions) (movements : list Movement)
  (display1 display2 : DisplayOptions) (ins1 ins2 : list Input)
  (s1 s2 : Sim) :
  Forall2 same_control ins1 ins2 ->
  main params init movements display1 ins1 = Some s1 ->
  main params init movements display2 ins2 = Some s2 ->
  map frame_pose (frames s1) = map frame_pose (frames s2)
  /\ pose s1 = pose s2.
Proof.
  intros Hins H1 H2.
  pose proof (run_core params movements display1 display2 ins1 ins2 Hins
                _ _ s1 s2 eq_refl H1 H2) as Hcore.
  unfold core in Hcore; split; congruence.
Qed.

Lemma trajectory_independent_of_view_witness :
  exists s1 s2,
    main demo_params demo_init demo_movements markers_shown [idle] = Some s1
    /\ main demo_params demo_init demo_movements nothing_shown [camera_busy]
       = Some s2
    /\ List.length (frames s1) = 2%nat
    /\ map frame_pose (frames s1) = map frame_pose (frames s2).
Proof.
  set (s0 := initial_state demo_params demo_init).
  destruct (demo_first_tick markers_shown) as (s1 & p1 & Ht1 & _ & _ & _ & Hl).
  assert (Hrun1 : main demo_params demo_init demo_movements markers_shown
                    [idle] = Some s1).
  { unfold main; fold s0.
    rewrite (run_cons demo_params demo_movements markers_shown idle [] s0 s1
               eq_refl Ht1); reflexivity. }
  (* the same first step, seen through the other view *)
  set (c1 := activate demo_params nothing_shown ("forward", "left", 1)%string
               (pose s0) (cmd s0)).
  assert (Htake : take_movement demo_params demo_movements nothing_shown
                    (pose s0) (cmd s0) = c1).
  { unfold take_movement; simpl; rewrite Rleb_true by lra; reflexivity. }
  destruct (integrator_step_some demo_params (pose s0) c1) as [p2 Hstep];
    [simpl; lra |].
  set (c2 := with_remaining c1 _) in Hstep.
  assert (Hmove : move demo_params (pose s0)
                    (take_movement demo_params demo_movements nothing_shown
                       (pose s0) (cmd s0)) (path s0)
                  = Some (p2, c2, path s0 ++ [(x p2, y p2)])).
  { rewrite Htake; unfold move.
    rewrite Rltb_true, Hstep; [reflexivity |].
    change (remaining_distance c1) with (1 * (PI * 20)).
    pose proof PI_RGT_0; lra. }
  destruct (tick_advance demo_params demo_movements nothing_shown
              camera_busy s0 _ _ _ eq_refl Hmove) as (s2 & Ht2 & _);
    [| reflexivity |].
  { pose proof (reset_view_zoom (frames s0) (cam s0)) as Hz.
    change (cam (handle_events s0 (events camera_busy)))
      with (reset_view (frames s0) (cam s0)).
    assert (frames s0 <> []) by discriminate.
    specialize (Hz H); lra. }
  assert (Hrun2 : main demo_params demo_init demo_movements nothing_shown
                    [camera_busy] = Some s2).
  { unfold main; fold s0.
    rewrite (run_cons demo_params demo_movements nothing_shown camera_busy
               [] s0 s2 eq_refl Ht2); reflexivity. }
  exists s1, s2; split; [exact Hrun1 |]; split; [exact Hrun2 |];
    split; [exact Hl |].
  refine (proj1 (trajectory_independent_of_view demo_params demo_init
                   demo_movements markers_shown nothing_shown
                   [idle] [camera_busy] s1 s2 _ Hrun1 Hrun2)).
  repeat constructor.
Defined.

(** * Further properties of the loop *)

(** ** The frame recorder *)

Section Recorder.

Variable params : RobotParameters.
Variable movements : list Movement.
Variable display : DisplayOptions.

Lemma tick_frames (i : Input) (s s' : Sim) :
  tick params movements display i s = Some s' ->
  frames s' = frames s
  \/ frames s' = frames s ++ [record_frame (pose s') (cmd s')].
Proof.
  intros Ht.
  destruct (tick_cases params movements display i s s' Ht)
    as [(_ & _ & _ & Hf & _) | (_ & _ & Hf & _)]; auto.
Qed.

Lemma run_frames (ins : list Input) :
  forall s s',
    run params movements display ins s = Some s' ->
    exists l, frames s' = frames s ++ l
              /\ (List.length l <= List.length ins)%nat.
Proof.
  induction ins as [| i ins IH]; intros s s' H; simpl in H.
  - injection H as <-; exists []; rewrite app_nil_r; auto.
  - destruct (running (play s)).
    + apply bind_some in H as (s1 & Ht & H).
      destruct (IH s1 s' H) as (l & Hl & Hn).
      destruct (tick_frames i s s1 Ht) as [Hf | Hf]; rewrite Hf in Hl.
      * exists l; split; [exact Hl | simpl; lia].
      * exists (record_frame (pose s1) (cmd s1) :: l).
        rewrite <- app_assoc in Hl; split; [exact Hl | simpl; lia].
    + injection H as <-; exists []; rewrite app_nil_r; split; auto.
      simpl; lia.
Qed.

Lemma tick_markers (i : Input) (s s' : Sim) :
  tick params movements display i s = Some s' ->
  exists l, instruction_markers (cmd s') = instruction_markers (cmd s) ++ l.
Proof.
  intros Ht.
  destruct (tick_cases params movements display i s s' Ht)
    as [(_ & _ & -> & _) | (_ & Hm & _)].
  - exists []; now rewrite app_nil_r.
  - apply move_movement_index in Hm as (_ & _ & _ & -> & _).
    destruct (take_movement_cases params movements display (pose s) (cmd s))
      as [[-> _] | (_ & m & _ & ->)].
    + exists []; now rewrite app_nil_r.
    + destruct (activate_markers params display m (pose s) (cmd s))
        as (_ & ->).
      destruct (show_turns display && _); eauto.
      exists []; now rewrite app_nil_r.
Qed.

Lemma tick_snapshot_inv (i : Input) (s s' : Sim) :
  snapshot_inv s ->
  tick params movements display i s = Some s' ->
  snapshot_inv s'.
Proof.
  intros [Hlast Hall] Ht.
  destruct (tick_markers i s s' Ht) as [lm Hlm].
  assert (Hall' : Forall (fun f => exists l,
                            instruction_markers (cmd s')
                            = f_instruction_markers f ++ l) (frames s)).
  { rewrite Forall_forall in *; intros f Hf.
    destruct (Hall f Hf) as [l Hl].
    exists (l ++ lm); now rewrite Hlm, Hl, app_assoc. }
  destruct (tick_cases params movements display i s s' Ht)
    as [(_ & Hp & Hc & Hf & _) | (_ & _ & Hf & _)].
  - split; rewrite Hf; [now rewrite Hp, Hc | exact Hall'].
  - split; rewrite Hf; [eauto |].
    apply Forall_app; split; [exact Hall' |].
    constructor; [| constructor].
    exists []; simpl; now rewrite app_nil_r.
Qed.

Lemma initial_snapshot_inv (init : InitialConditions) :
  snapshot_inv (initial_state params init).
Proof.
  split; [exists []; reflexivity |].
  constructor; [| constructor]; exists []; reflexivity.
Qed.

End Recorder.

(** A frame, once recorded, stays at its index unchanged for the rest of the
    run, and an iteration records at most one frame. *)
Theorem recorded_frames_never_change (params : RobotParameters)
  (movements : list Movement) (display : DisplayOptions)
  (ins : list Input) (s s' : Sim) :
  run params movements display ins s = Some s' ->
  (forall k f, nth_error (frames s) k = Some f ->
               nth_error (frames s') k = Some f)
  /\ (List.length (frames s) <= List.length (frames s')
      <= List.length (frames s) + List.length ins)%nat.
Proof.
  intros Hrun.
  destruct (run_frames params movements display ins s s' Hrun)
    as (l & Hl & Hn).
  rewrite Hl; split.
  - intros k f Hk; rewrite nth_error_app1; [exact Hk |].
    apply nth_error_Some; congruence.
  - rewrite length_app; lia.
Qed.

Lemma recorded_frames_never_change_witness :
  exists s1,
    run demo_params demo_movements markers_shown [idle]
      (initial_state demo_params demo_init) = Some s1
    /\ nth_error (frames s1) 0
       = Some (record_frame (initial_pose demo_params demo_init)
                 initial_command).
Proof.
  destruct (demo_first_tick markers_shown) as (s1 & p1 & Ht & _).
  assert (Hrun : run demo_params demo_movements markers_shown [idle]
                   (initial_state demo_params demo_init) = Some s1).
  { rewrite (run_cons demo_params demo_movements markers_shown idle []
               (initial_state demo_params demo_init) s1 eq_refl Ht).
    reflexivity. }
  exists s1; split; [exact Hrun |].
  refine (proj1 (recorded_frames_never_change demo_params demo_movements
                   markers_shown [idle] _ s1 Hrun) 0%nat _ eq_refl).
Defined.

(** In every state of every run the newest frame is the snapshot of the
    live pose and command state, and the markers stored in each frame are an
    initial part of the live marker list: markers only accumulate, and a
    frame keeps the markers it was recorded with. *)
Theorem frames_are_snapshots (params : RobotParameters)
  (init : InitialConditions) (movements : list Movement)
  (display : DisplayOptions) (ins : list Input) (s : Sim) :
  main params init movements display ins = Some s ->
  (exists l, frames s = l ++ [record_frame (pose s) (cmd s)])
  /\ (forall f, In f (frames s) ->
        exists l, instruction_markers (cmd s) = f_instruction_markers f ++ l).
Proof.
  intros H.
  apply (run_invariant params movements display snapshot_inv) in H.
  - destruct H as [Hlast Hall]; split; [exact Hlast |].
    now rewrite Forall_forall in Hall.
  - intros i s0 s0' H0 Ht.
    apply (tick_snapshot_inv params movements display i s0 s0' H0 Ht).
  - apply initial_snapshot_inv.
Qed.

Lemma frames_are_snapshots_witness :
  exists s1,
    main demo_params demo_init demo_movements markers_shown [idle] = Some s1
    /\ exists l, frames s1 = l ++ [record_frame (pose s1) (cmd s1)].
Proof.
  destruct (demo_first_tick markers_shown) as (s1 & p1 & Ht & _).
  assert (Hrun : main demo_params demo_init demo_movements markers_shown
                   [idle] = Some s1).
  { unfold main.
    rewrite (run_cons demo_params demo_movements markers_shown idle []
               (initial_state demo_params demo_init) s1 eq_refl Ht).
    reflexivity. }
  exists s1; split; [exact Hrun |].
  exact (proj1 (frames_are_snapshots demo_params demo_init demo_movements
                  markers_shown [idle] s1 Hrun)).
Defined.

(** ** The display index *)

Section IndexTracking.

Variable params : RobotParameters.
Variable movements : list Movement.
Variable display : DisplayOptions.

Lemma handle_event_index_tracking (s : Sim) (e : event) :
  index_tracking_inv s -> index_tracking_inv (handle_event s e).
Proof.
  unfold index_tracking_inv.
  destruct (handle_event_fixed s e) as (_ & _ & -> & _).
  intros (H1 & H2 & H3).
  destruct e as [| k | k |]; try destruct k; simpl; auto;
    unfold toggle_pause, start_scrub;
    repeat match goal with
           | |- context [if ?b then _ else _] => destruct b eqn:?
           end; simpl in *; repeat split; intros; auto; try discriminate;
    try congruence;
    apply H2;
    match goal with
    | H : negb (paused _) = false |- _ => now apply negb_false_iff in H
    end.
Qed.

Lemma handle_events_index_tracking (evs : list event) (s : Sim) :
  index_tracking_inv s -> index_tracking_inv (handle_events s evs).
Proof.
  revert s; induction evs as [| e evs IH]; intros s H; simpl; [exact H |].
  apply IH, handle_event_index_tracking, H.
Qed.

Lemma update_index_tracking (i : Input) (s s' : Sim) :
  index_tracking_inv s ->
  update params movements display i s = Some s' ->
  index_tracking_inv s'.
Proof.
  intros Hinv Hu.
  pose proof (handle_events_index_tracking (events i) s Hinv)
    as (H1 & H2 & H3).
  destruct (handle_events_fixed (events i) s) as (_ & _ & Hfs & _).
  rewrite Hfs in H1, H2, H3.
  unfold index_tracking_inv.
  destruct (update_cases params movements display i s s' Hu)
    as [(_ & _ & _ & Hf & _ & Hpl) | (Ha & _ & Hf & Hpl)]; rewrite Hpl.
  - rewrite Hf; unfold handle_scrubbing.
    destruct (scrubbing _ && (paused _ || simulation_finished _)) eqn:Hb;
      simpl; auto.
    repeat split; auto.
    intros Hp Hfin; rewrite Hp, Hfin, andb_false_r in Hb; discriminate.
  - simpl; repeat split; auto.
    unfold advancing in Ha; intros Hp; rewrite Hp in Ha; discriminate.
Qed.

Lemma main_index_tracking (init : InitialConditions) (ins : list Input)
  (s : Sim) :
  main params init movements display ins = Some s ->
  index_tracking_inv s.
Proof.
  intros H.
  apply (run_invariant params movements display index_tracking_inv) in H;
    [exact H | |].
  - intros i s0 s0' H0 Ht.
    apply (update_index_tracking i s0 s0' H0), tick_update, Ht.
  - unfold index_tracking_inv; simpl; repeat split; intros; try discriminate;
      reflexivity.
Qed.

End IndexTracking.

(** In every state of every run [sim_frame_index] is the index of the newest
    frame; and while the run is neither paused nor finished the display
    index is that index too, so the frame that is drawn is the snapshot of
    the live state. *)
Theorem display_index_tracks_newest_frame (params : RobotParameters)
  (init : InitialConditions) (movements : list Movement)
  (display : DisplayOptions) (ins : list Input) (s : Sim) :
  main params init movements display ins = Some s ->
  sim_frame_index (play s) = (len (frames s) - 1)%Z
  /\ (paused (play s) = false -> simulation_finished (play s) = false ->
      frame_index (play s) = (len (frames s) - 1)%Z
      /\ py_index (frames s) (frame_index (play s))
         = Some (record_frame (pose s) (cmd s))).
Proof.
  intros Hmain.
  destruct (main_index_tracking params movements display init ins s Hmain)
    as (H1 & _ & H3).
  split; [exact H1 |].
  intros Hp Hf; specialize (H3 Hp Hf); split; [exact H3 |].
  destruct (frames_are_snapshots params init movements display ins s Hmain)
    as [[l Hl] _].
  rewrite H3, Hl; apply py_index_last.
Qed.

Lemma display_index_tracks_newest_frame_witness :
  exists s1,
    main demo_params demo_init demo_movements markers_shown [idle] = Some s1
    /\ sim_frame_index (play s1) = (len (frames s1) - 1)%Z.
Proof.
  destruct (demo_first_tick markers_shown) as (s1 & p1 & Ht & _).
  assert (Hrun : main demo_params demo_init demo_movements markers_shown
                   [idle] = Some s1).
  { unfold main.
    rewrite (run_cons demo_params demo_movements markers_shown idle []
               (initial_state demo_params demo_init) s1 eq_refl Ht).
    reflexivity. }
  exists s1; split; [exact Hrun |].
  exact (proj1 (display_index_tracks_newest_frame demo_params demo_init
                  demo_movements markers_shown [idle] s1 Hrun)).
Defined.

(** Pressing space in a paused run resumes it at the newest frame: the
    index reached by scrubbing is dropped, scrubbing is switched off, and
    the iteration ends with the display index on the newest frame. *)
Theorem resume_shows_newest_frame (params : RobotParameters)
  (init : InitialConditions) (movements : list Movement)
  (display : DisplayOptions) (ins : list Input) (s : Sim) (ks : key -> bool)
  (s' : Sim) :
  main params init movements display ins = Some s ->
  paused (play s) = true ->
  tick params movements display
    {| events := [KEYDOWN K_SPACE]; keys := ks |} s = Some s' ->
  paused (play s') = false
  /\ scrubbing (play s') = false
  /\ frame_index (play s') = (len (frames s') - 1)%Z.
Proof.
  intros Hmain Hp Ht.
  destruct (main_index_tracking params movements display init ins s Hmain)
    as (_ & H2 & _).
  specialize (H2 Hp).
  destruct (tick_cases params movements display _ s s' Ht)
    as [(_ & _ & _ & Hf & _ & Hpl) | (_ & _ & _ & Hpl)];
    rewrite Hpl; simpl; unfold toggle_pause; rewrite Hp; simpl.
  - unfold handle_scrubbing; simpl; rewrite Hf; auto.
  - auto.
Qed.

Lemma resume_shows_newest_frame_witness :
  let pause := {| events := [KEYDOWN K_SPACE]; keys := fun _ => false |} in
  let scrub := {| events := [KEYDOWN K_LEFTBRACKET];
                  keys := fun _ => false |} in
  exists s s',
    main demo_params demo_init demo_movements nothing_shown [pause; scrub]
    = Some s
    /\ paused (play s) = true
    /\ tick demo_params demo_movements nothing_shown pause s = Some s'
    /\ frame_index (play s') = (len (frames s') - 1)%Z.
Proof.
  intros pause scrub.
  set (s0 := initial_state demo_params demo_init).
  set (s := {| pose := pose s0; cmd := cmd s0;
               play := {| paused := true; frame_index := 0;
                          sim_frame_index := 0;
                          simulation_finished := false;
                          scrubbing := true; scrubbing_direction := -1;
                          sim_frame_index_before_scrub := 0;
                          running := true |};
               cam := cam s0; frames := frames s0; path := path s0 |}).
  assert (Hmain : main demo_params demo_init demo_movements nothing_shown
                    [pause; scrub] = Some s) by reflexivity.
  assert (Htake : take_movement demo_params demo_movements nothing_shown
                    (pose s0) (cmd s0)
                  = activate demo_params nothing_shown
                      ("forward", "left", 1)%string (pose s0) (cmd s0)).
  { unfold take_movement; simpl; rewrite Rleb_true by lra; reflexivity. }
  destruct (integrator_step_some demo_params (pose s0)
              (activate demo_params nothing_shown
                 ("forward", "left", 1)%string (pose s0) (cmd s0)))
    as [p2 Hstep]; [simpl; lra |].
  set (c2 := with_remaining _ _) in Hstep.
  assert (Hmove : move demo_params (pose s)
                    (take_movement demo_params demo_movements nothing_shown
                       (pose s) (cmd s)) (path s)
                  = Some (p2, c2, path s0 ++ [(x p2, y p2)])).
  { change (pose s) with (pose s0); change (cmd s) with (cmd s0).
    rewrite Htake; unfold move.
    rewrite Rltb_true, Hstep; [reflexivity |].
    change (remaining_distance _) with (1 * (PI * 20)).
    pose proof PI_RGT_0; lra. }
  destruct (tick_advance demo_params demo_movements nothing_shown pause s
              p2 c2 _ eq_refl Hmove) as (s' & Ht & _);
    [simpl; lra | reflexivity |].
  exists s, s'; split; [exact Hmain |]; split; [reflexivity |];
    split; [exact Ht |].
  exact (proj2 (proj2 (resume_shows_newest_frame demo_params demo_init
                         demo_movements nothing_shown [pause; scrub] s
                         (fun _ => false) s' Hmain eq_refl Ht))).
Defined.

(** ** Scrubbing there and back *)

(** In a paused or finished run, one iteration of scrubbing backward
    followed by one of scrubbing forward brings the display index, and with
    it the frame that is drawn, back to where it was, provided it was not
    on frame 0; no frame is recorded meanwhile. *)
Theorem scrub_back_and_forth (params : RobotParameters)
  (init : InitialConditions) (movements : list Movement)
  (display : DisplayOptions) (ins : list Input) (s : Sim)
  (ks1 ks2 : key -> bool) (s1 s2 : Sim) :
  main params init movements display ins = Some s ->
  paused (play s) = true \/ simulation_finished (play s) = true ->
  (1 <= frame_index (play s))%Z ->
  tick params movements display
    {| events := [KEYDOWN K_LEFTBRACKET]; keys := ks1 |} s = Some s1 ->
  tick params movements display
    {| events := [KEYUP K_LEFTBRACKET; KEYDOWN K_RIGHTBRACKET];
       keys := ks2 |} s1 = Some s2 ->
  frame_index (play s1) = (frame_index (play s) - 1)%Z
  /\ frame_index (play s2) = frame_index (play s)
  /\ frames s2 = frames s.
Proof.
  intros Hmain Hpf Hfi Ht1 Ht2.
  destruct (main_play_inv params movements display init ins s Hmain)
    as (Hrange & _).
  assert (Hor : paused (play s) || simulation_finished (play s) = true)
    by (apply orb_true_iff; exact Hpf).
  destruct (tick_cases params movements display _ s s1 Ht1)
    as [(_ & _ & _ & Hf1 & _ & Hpl1) | (Ha & _)]; simpl in *.
  2: { unfold start_scrub, advancing in Ha; rewrite Hor in Ha; simpl in Ha.
       rewrite andb_false_r in Ha; discriminate. }
  unfold start_scrub in Hpl1; rewrite Hor in Hpl1.
  unfold handle_scrubbing in Hpl1; simpl in Hpl1; rewrite Hor in Hpl1.
  simpl in Hpl1.
  assert (Hfi1 : frame_index (play s1) = (frame_index (play s) - 1)%Z)
    by (rewrite Hpl1; simpl; lia).
  assert (Hor1 : paused (play s1) || simulation_finished (play s1) = true)
    by (rewrite Hpl1; exact Hor).
  destruct (tick_cases params movements display _ s1 s2 Ht2)
    as [(_ & _ & _ & Hf2 & _ & Hpl2) | (Ha & _)]; simpl in *.
  2: { unfold start_scrub, advancing in Ha; simpl in Ha.
       rewrite Hor1 in Ha; simpl in Ha.
       rewrite andb_false_r in Ha; discriminate. }
  unfold start_scrub in Hpl2; simpl in Hpl2; rewrite Hor1 in Hpl2.
  unfold handle_scrubbing in Hpl2; simpl in Hpl2; rewrite Hor1 in Hpl2.
  simpl in Hpl2.
  split; [exact Hfi1 |]; split; [| congruence].
  rewrite Hpl2; simpl; rewrite Hf1, Hfi1; lia.
Qed.

(** ** Leaving the loop *)

Section Quit.

Variable params : RobotParameters.
Variable movements : list Movement.
Variable display : DisplayOptions.

Lemma handle_event_running (s : Sim) (e : event) :
  running (play (handle_event s e))
  = running (play s) && negb (quit_event e).
Proof.
  destruct e as [| k | k |]; try destruct k; simpl;
    unfold toggle_pause, start_scrub;
    repeat match goal with
           | |- context [if ?b then _ else _] => destruct b
           end; simpl;
    try rewrite andb_true_r; try rewrite andb_false_r; reflexivity.
Qed.

Lemma handle_events_running (evs : list event) (s : Sim) :
  running (play (handle_events s evs))
  = running (play s) && negb (existsb quit_event evs).
Proof.
  revert s; induction evs as [| e evs IH]; intros s; simpl.
  - now rewrite andb_true_r.
  - rewrite IH, handle_event_running, negb_orb, andb_assoc; reflexivity.
Qed.

Lemma handle_scrubbing_running (fs : list Frame) (pl : Playback) :
  running (handle_scrubbing fs pl) = running pl.
Proof.
  unfold handle_scrubbing.
  destruct (scrubbing pl && (paused pl || simulation_finished pl));
    reflexivity.
Qed.

Lemma tick_running (i : Input) (s s' : Sim) :
  tick params movements display i s = Some s' ->
  running (play s')
  = running (play s) && negb (existsb quit_event (events i)).
Proof.
  intros Ht; rewrite <- handle_events_running.
  destruct (tick_cases params movements display i s s' Ht)
    as [(_ & _ & _ & _ & _ & ->) | (_ & _ & _ & ->)].
  - apply handle_scrubbing_running.
  - reflexivity.
Qed.

End Quit.

(** [running] is cleared by a QUIT event or the Escape key and by nothing
    else; the iteration in which that happens is still carried out to its
    end, and no later input is looked at. *)
Theorem only_quit_ends_the_loop (params : RobotParameters)
  (movements : list Movement) (display : DisplayOptions) (i : Input)
  (rest : list Input) (s : Sim) :
  (forall s', tick params movements display i s = Some s' ->
              running (play s')
              = running (play s) && negb (existsb quit_event (events i)))
  /\ (existsb quit_event (events i) = true ->
      run params movements display (i :: rest) s
      = run params movements display [i] s).
Proof.
  split; [intros s'; apply tick_running |].
  intros Hq; simpl.
  destruct (running (play s)) eqn:Hr; [| reflexivity].
  destruct (tick params movements display i s) as [s1 |] eqn:Ht;
    [| reflexivity].
  simpl.
  pose proof (tick_running params movements display i s s1 Ht) as Hr1.
  rewrite Hq, andb_false_r in Hr1.
  destruct rest; simpl; [reflexivity | now rewrite Hr1].
Qed.

(** ** The camera zoom and the absence of exceptions *)

Section Zoom.

Variable params : RobotParameters.
Variable movements : list Movement.
Variable display : DisplayOptions.

Lemma reset_view_zoom_bounds (fs : list Frame) (c : Camera) :
  fs <> [] -> 1 <= zoom (reset_view fs c) <= 20.
Proof.
  destruct fs as [| f fs]; [contradiction |]; intros _.
  unfold reset_view; cbv zeta; cbn [zoom].
  change (IZR ZOOM_MIN) with 1; change (IZR ZOOM_MAX) with 20.
  split; [apply Rmax_r |].
  apply Rmax_lub; [apply Rmin_r | lra].
Qed.

Lemma handle_event_zoom (s : Sim) (e : event) :
  zoom (cam (handle_event s e)) = zoom (cam s)
  \/ 1 <= zoom (cam (handle_event s e)) <= 20.
Proof.
  destruct e as [| k | k |]; try destruct k; simpl; auto.
  destruct (frames s) as [| f fs] eqn:Hf; [left; reflexivity |].
  right; apply reset_view_zoom_bounds; discriminate.
Qed.

Lemma handle_events_zoom (evs : list event) (s : Sim) :
  zoom (cam (handle_events s evs)) = zoom (cam s)
  \/ 1 <= zoom (cam (handle_events s evs)) <= 20.
Proof.
  revert s; induction evs as [| e evs IH]; intros s; simpl; [auto |].
  destruct (IH (handle_event s e)) as [-> | Hb]; [| auto].
  apply handle_event_zoom.
Qed.

Lemma pan_controls_zoom (ks : key -> bool) (c c' : Camera) :
  pan_controls ks c = Some c' ->
  (0 < zoom c -> 0 < zoom c')
  /\ (1 <= zoom c <= 20 -> 1 <= zoom c' <= 20).
Proof.
  unfold pan_controls; intros H.
  apply bind_some in H as (sx1 & _ & H).
  apply bind_some in H as (sx2 & _ & H).
  apply bind_some in H as (sy1 & _ & H).
  apply bind_some in H as (sy2 & _ & H).
  injection H as <-; cbn [zoom].
  change (IZR ZOOM_MIN) with 1; change (IZR ZOOM_MAX) with 20.
  unfold ZOOM_STEP.
  destruct (ks K_EQUALS || ks K_PLUS), (ks K_MINUS || ks K_UNDERSCORE);
    split; intros Hz; unfold Rmin, Rmax;
    repeat match goal with
           | |- context [Rle_dec ?a ?b] => destruct (Rle_dec a b)
           end; lra.
Qed.

Lemma pan_controls_zoom_total (ks : key -> bool) (c : Camera) :
  0 < zoom c -> exists c', pan_controls ks c = Some c' /\ 0 < zoom c'.
Proof.
  intros Hz.
  destruct (pan_controls_total ks c) as [c' Hc']; [lra |].
  exists c'; split; [exact Hc' |].
  now apply (pan_controls_zoom ks c c' Hc').
Qed.

Lemma move_total (p : Pose) (c : Command) (pth : list (R * R)) :
  robot_width params <> 0 ->
  exists p' c' pth', move params p c pth = Some (p', c', pth').
Proof.
  intros Hw; unfold move.
  destruct (Rltb 0 (remaining_distance c)); [| eauto].
  destruct (integrator_step_some params p c Hw) as [p' ->]; simpl; eauto.
Qed.

(** The zoom with which an iteration ends is the one left by the pan and
    zoom keys. *)
Lemma update_zoom (i : Input) (s s' : Sim) :
  update params movements display i s = Some s' ->
  exists cm,
    pan_controls (keys i) (cam (handle_events s (events i))) = Some cm
    /\ zoom (cam s') = zoom cm.
Proof.
  unfold update; intros H.
  apply bind_some in H as (cm & Hcm & H).
  exists cm; split; [exact Hcm |].
  unfold simulate in H; simpl in H.
  destruct (advancing _); [| now injection H as <-].
  apply bind_some in H as ([[p c] pth] & _ & H).
  apply bind_some in H as (cm' & Hcm' & H).
  injection H as <-; simpl.
  destruct (negb _ && negb _); [| now injection Hcm' as <-].
  destruct (autoscroll_total p cm) as (c2 & Hc2 & Hz).
  rewrite Hc2 in Hcm'; now injection Hcm' as <-.
Qed.

Lemma update_total (i : Input) (s : Sim) :
  robot_width params <> 0 ->
  0 < zoom (cam s) ->
  exists s', update params movements display i s = Some s'.
Proof.
  intros Hw Hz.
  assert (Hze : 0 < zoom (cam (handle_events s (events i)))).
  { destruct (handle_events_zoom (events i) s) as [-> | Hb]; lra. }
  destruct (pan_controls_zoom_total (keys i) _ Hze) as (cm & Hcm & _).
  unfold update; rewrite Hcm; simpl.
  unfold simulate; simpl.
  destruct (advancing _); [| eauto].
  match goal with
  | |- context [move params ?p ?c ?pth] =>
      destruct (move_total p c pth Hw) as (p' & c' & pth' & ->)
  end; simpl.
  destruct (negb _ && negb _); simpl; [| eauto].
  destruct (autoscroll_total p' cm) as (c2 & -> & _); simpl; eauto.
Qed.

Lemma draw_total (s : Sim) :
  play_inv (len (frames s)) (play s) ->
  zoom (cam s) <> 0 ->
  exists d, draw params display s = Some d.
Proof.
  intros (Hr & _) Hz; unfold draw.
  destruct (py_index_in_range (frames s) (frame_index (play s)) Hr)
    as [f Hf].
  rewrite Hf.
  destruct (frames s); simpl;
    (destruct (show_grid display); simpl;
     [unfold draw_grid; rewrite (pdiv_some _ _ Hz); simpl |]); eauto.
Qed.

Lemma tick_total (i : Input) (s : Sim) :
  robot_width params <> 0 ->
  0 < zoom (cam s) ->
  play_inv (len (frames s)) (play s) ->
  exists s',
    tick params movements display i s = Some s'
    /\ 0 < zoom (cam s')
    /\ play_inv (len (frames s')) (play s').
Proof.
  intros Hw Hz Hinv.
  destruct (update_total i s Hw Hz) as [s' Hu].
  pose proof (update_play_inv params movements display i s s' Hinv Hu)
    as Hinv'.
  destruct (update_zoom i s s' Hu) as (cm & Hcm & Hzc).
  assert (Hz' : 0 < zoom (cam s')).
  { rewrite Hzc; apply (pan_controls_zoom _ _ _ Hcm).
    destruct (handle_events_zoom (events i) s) as [-> | Hb]; lra. }
  destruct (draw_total s' Hinv') as [d Hd]; [lra |].
  exists s'; unfold tick; rewrite Hu; simpl; rewrite Hd; simpl; auto.
Qed.

Lemma run_total (ins : list Input) :
  forall s,
    robot_width params <> 0 ->
    0 < zoom (cam s) ->
    play_inv (len (frames s)) (play s) ->
    exists s', run params movements display ins s = Some s'.
Proof.
  induction ins as [| i ins IH]; intros s Hw Hz Hinv; simpl; [eauto |].
  destruct (running (play s)); [| eauto].
  destruct (tick_total i s Hw Hz Hinv) as (s1 & -> & Hz1 & Hinv1); simpl.
  apply IH; assumption.
Qed.

Lemma tick_zoom_bounds (i : Input) (s s' : Sim) :
  1 <= zoom (cam s) <= 20 ->
  tick params movements display i s = Some s' ->
  1 <= zoom (cam s') <= 20.
Proof.
  intros Hz Ht; apply tick_update in Ht.
  destruct (update_zoom i s s' Ht) as (cm & Hcm & ->).
  apply (pan_controls_zoom _ _ _ Hcm).
  destruct (handle_events_zoom (events i) s) as [-> | Hb]; assumption.
Qed.

End Zoom.

(** With a non-zero track width and a positive initial scale, no float
    division of [main] has a zero divisor and no frame lookup is out of
    range, whatever the movements, display options and inputs: the loop
    raises neither [ZeroDivisionError] nor [IndexError], the two ways in
    which an iteration yields [None]. *)
Theorem no_zero_division_no_index_error (params : RobotParameters)
  (init : InitialConditions) (movements : list Movement)
  (display : DisplayOptions) (ins : list Input) :
  robot_width params <> 0 ->
  0 < scale params ->
  exists s,
    main params init movements display ins = Some s
    /\ zoom (cam s) <> 0
    /\ (0 <= frame_index (play s) < len (frames s))%Z.
Proof.
  intros Hw Hs.
  destruct (run_total params movements display ins
              (initial_state params init) Hw Hs (initial_play_inv params init))
    as [s Hrun].
  exists s; split; [exact Hrun |]; split.
  - apply Rgt_not_eq.
    apply (run_invariant params movements display
             (fun t => 0 < zoom (cam t))) in Hrun; [exact Hrun | | exact Hs].
    intros i t t' Hz Ht; apply tick_update in Ht.
    destruct (update_zoom params movements display i t t' Ht)
      as (cm & Hcm & ->).
    apply (pan_controls_zoom _ _ _ Hcm).
    destruct (handle_events_zoom (events i) t) as [-> | Hb]; lra.
  - exact (proj1 (main_play_inv params movements display init ins s Hrun)).
Qed.

Lemma no_zero_division_no_index_error_witness :
  robot_width demo_params <> 0
  /\ 0 < scale demo_params
  /\ exists s,
       main demo_params demo_init demo_movements markers_shown
         [camera_busy; idle; camera_busy] = Some s
       /\ zoom (cam s) <> 0.
Proof.
  assert (Hw : robot_width demo_params <> 0) by (simpl; lra).
  assert (Hs : 0 < scale demo_params) by (simpl; lra).
  split; [exact Hw |]; split; [exact Hs |].
  destruct (no_zero_division_no_index_error demo_params demo_init
              demo_movements markers_shown [camera_busy; idle; camera_busy]
              Hw Hs) as (s & Hrun & Hz & _).
  exists s; split; assumption.
Defined.

(** Once the zoom is between [ZOOM_MIN] and [ZOOM_MAX] it stays there: with
    an initial scale in that range every state of every run has its zoom
    in [[1, 20]]. *)
Theorem zoom_stays_in_range (params : RobotParameters)
  (init : InitialConditions) (movements : list Movement)
  (display : DisplayOptions) (ins : list Input) (s : Sim) :
  IZR ZOOM_MIN <= scale params <= IZR ZOOM_MAX ->
  main params init movements display ins = Some s ->
  IZR ZOOM_MIN <= zoom (cam s) <= IZR ZOOM_MAX.
Proof.
  change (IZR ZOOM_MIN) with 1; change (IZR ZOOM_MAX) with 20.
  intros Hs H.
  apply (run_invariant params movements display
           (fun s => 1 <= zoom (cam s) <= 20)) in H; [exact H | | exact Hs].
  intros i s0 s0' H0 Ht.
  apply (tick_zoom_bounds params movements display i s0 s0' H0 Ht).
Qed.

Lemma zoom_stays_in_range_witness :
  exists s,
    main demo_params demo_init demo_movements markers_shown
      [camera_busy; idle] = Some s
    /\ IZR ZOOM_MIN <= zoom (cam s) <= IZR ZOOM_MAX.
Proof.
  destruct (run_total demo_params demo_movements markers_shown
              [camera_busy; idle] (initial_state demo_params demo_init))
    as [s Hs];
    [simpl; lra | simpl; lra | apply initial_play_inv |].
  exists s; split; [exact Hs |].
  refine (zoom_stays_in_range demo_params demo_init demo_movements
            markers_shown [camera_busy; idle] s _ Hs).
  change (IZR ZOOM_MIN) with 1; change (IZR ZOOM_MAX) with 20; simpl; lra.
Defined.

(** ** The demo run, paused after its first step *)

Lemma demo_paused_after_first_step :
  exists s2,
    main demo_params demo_init demo_movements markers_shown
      [idle; press_space] = Some s2
    /\ paused (play s2) = true
    /\ simulation_finished (play s2) = false
    /\ frame_index (play s2) = 1%Z
    /\ 0 < zoom (cam s2)
    /\ play_inv (len (frames s2)) (play s2).
Proof.
  set (s0 := initial_state demo_params demo_init).
  destruct (first_tick demo_params demo_init markers_shown
              ("forward", "left", 1)%string (tl demo_movements))
    as (s1 & Ht1 & Hstep & Hf1).
  { unfold target_distance, wheel_circumference; simpl.
    pose proof PI_RGT_0; lra. }
  { simpl; lra. }
  { right; simpl; lra. }
  change (("forward", "left", 1)%string :: tl demo_movements)
    with demo_movements in Ht1.
  assert (Hmain1 : main demo_params demo_init demo_movements markers_shown
                     [idle] = Some s1).
  { unfold main; fold s0.
    rewrite (run_cons demo_params demo_movements markers_shown idle [] s0 s1
               eq_refl Ht1); reflexivity. }
  pose proof (main_play_inv demo_params demo_movements markers_shown
                demo_init [idle] s1 Hmain1) as Hinv1.
  assert (Hz1 : 1 <= zoom (cam s1) <= 20).
  { apply (tick_zoom_bounds demo_params demo_movements markers_shown idle
             s0 s1); [simpl; lra | exact Ht1]. }
  assert (Hidx1 : movement_index (cmd s1) = 1%nat).
  { apply integrator_step_remaining in Hstep; rewrite Hstep; reflexivity. }
  destruct (tick_cases demo_params demo_movements markers_shown idle s0 s1
              Ht1) as [(Ha & _) | (_ & _ & _ & Hpl1)]; [discriminate |].
  assert (Hfin1 : simulation_finished (play s1) = false).
  { rewrite Hpl1; simpl; unfold finished_after; rewrite Hidx1; reflexivity. }
  destruct (tick_total demo_params demo_movements markers_shown press_space
              s1) as (s2 & Ht2 & Hz2 & Hinv2);
    [simpl; lra | lra | exact Hinv1 |].
  assert (Hr1 : running (play s1) = true) by (rewrite Hpl1; reflexivity).
  exists s2; split.
  { unfold main; fold s0.
    rewrite (run_cons demo_params demo_movements markers_shown idle
               [press_space] s0 s1 eq_refl Ht1).
    rewrite (run_cons demo_params demo_movements markers_shown press_space
               [] s1 s2 Hr1 Ht2); reflexivity. }
  destruct (tick_cases demo_params demo_movements markers_shown press_space
              s1 s2 Ht2) as [(_ & _ & _ & Hf2 & _ & Hpl2) | (Ha & _)].
  - assert (Hfa : forall pl, simulation_finished pl = false ->
                      finished_after demo_movements (cmd s1) pl = false).
    { intros pl Hpl; unfold finished_after; rewrite Hidx1; exact Hpl. }
    simpl in Hpl2; rewrite Hpl1, Hf1 in Hpl2.
    rewrite Hfa in Hpl2 by reflexivity.
    split; [rewrite Hpl2; reflexivity |].
    split; [rewrite Hpl2; reflexivity |].
    split; [rewrite Hpl2; reflexivity |].
    split; [exact Hz2 | exact Hinv2].
  - simpl in Ha; rewrite Hpl1 in Ha; discriminate.
Qed.

Lemma scrub_back_and_forth_witness :
  exists s s1 s2,
    main demo_params demo_init demo_movements markers_shown
      [idle; press_space] = Some s
    /\ tick demo_params demo_movements markers_shown scrub_left s = Some s1
    /\ tick demo_params demo_movements markers_shown scrub_right s1 = Some s2
    /\ frame_index (play s) = 1%Z
    /\ frame_index (play s1) = 0%Z
    /\ frame_index (play s2) = 1%Z.
Proof.
  destruct demo_paused_after_first_step
    as (s & Hmain & Hp & _ & Hfi & Hz & Hinv).
  destruct (tick_total demo_params demo_movements markers_shown scrub_left s)
    as (s1 & Ht1 & Hz1 & Hinv1); [simpl; lra | exact Hz | exact Hinv |].
  destruct (tick_total demo_params demo_movements markers_shown scrub_right
              s1) as (s2 & Ht2 & _); [simpl; lra | exact Hz1 | exact Hinv1 |].
  destruct (scrub_back_and_forth demo_params demo_init demo_movements
              markers_shown [idle; press_space] s (fun _ => false)
              (fun _ => false) s1 s2 Hmain (or_introl Hp))
    as (H1 & H2 & _); [rewrite Hfi; lia | exact Ht1 | exact Ht2 |].
  exists s, s1, s2; rewrite H1, H2, Hfi; repeat split; auto.
Defined.

Lemma only_quit_ends_the_loop_witness :
  run demo_params demo_movements markers_shown [close_window; idle; idle]
    (initial_state demo_params demo_init)
  = run demo_params demo_movements markers_shown [close_window]
      (initial_state demo_params demo_init).
Proof.
  exact (proj2 (only_quit_ends_the_loop demo_params demo_movements
                  markers_shown close_window [idle; idle]
                  (initial_state demo_params demo_init)) eq_refl).
Defined.

(** ** Divisions by zero *)

(** With a zero track width, the first iteration that has to make a step of
    a single-wheel movement raises [ZeroDivisionError] (line 262): the run
    started on such a movement does not get past its first iteration. *)
Theorem zero_track_width_raises (params : RobotParameters)
  (init : InitialConditions) (d w : string) (r : R) (rest : list Movement)
  (display : DisplayOptions) :
  robot_width params = 0 ->
  w <> "both"%string ->
  0 < r * wheel_circumference params ->
  main params init ((d, w, r) :: rest) display [idle] = None.
Proof.
  intros Hw Hne Hpos.
  assert (Hu : update params ((d, w, r) :: rest) display idle
                 (initial_state params init) = None).
  { unfold update, simulate, take_movement, move; simpl.
    rewrite Rleb_true by lra; simpl.
    rewrite Rltb_true by exact Hpos.
    unfold integrator_step; simpl.
    apply String.eqb_neq in Hne; rewrite Hne.
    unfold pivot_step, pdiv; rewrite (Reqb_true _ _ Hw); reflexivity. }
  unfold main, run, tick; simpl running; cbv iota.
  rewrite Hu; reflexivity.
Qed.

Lemma zero_track_width_raises_witness :
  main zero_width_params demo_init demo_movements markers_shown [idle] = None.
Proof.
  refine (zero_track_width_raises zero_width_params demo_init
            "forward"%string "left"%string 1 (tl demo_movements)
            markers_shown eq_refl _ _).
  - discriminate.
  - unfold wheel_circumference; simpl; pose proof PI_RGT_0; lra.
Defined.

(** With a zero initial scale the zoom is zero until a zoom key or the
    reset-view key changes it; the first iteration then raises
    [ZeroDivisionError] as soon as a pan key is held (lines 216-223) or the
    grid is shown (line 108). *)
Theorem zero_scale_raises (params : RobotParameters)
  (init : InitialConditions) (movements : list Movement)
  (display : DisplayOptions) (ks : key -> bool) :
  scale params = 0 ->
  (any_pan_key ks = true ->
   main params init movements display [{| events := []; keys := ks |}]
   = None)
  /\ (show_grid display = true ->
      main params init movements display [idle] = None).
Proof.
  intros Hs; split.
  - intros Hk.
    assert (Hp : pan_controls ks (cam (initial_state params init)) = None).
    { unfold pan_controls, pdiv; simpl; rewrite (Reqb_true _ _ Hs).
      unfold any_pan_key in Hk.
      destruct (ks K_LEFT); [reflexivity |].
      destruct (ks K_RIGHT); [reflexivity |].
      destruct (ks K_UP); [reflexivity |].
      destruct (ks K_DOWN); [reflexivity | discriminate]. }
    unfold main, run, tick, update; simpl running; cbv iota.
    simpl events; simpl keys; unfold handle_events; simpl fold_left.
    rewrite Hp; reflexivity.
  - intros Hg.
    unfold main, run, tick; simpl running; cbv iota.
    destruct (update params movements display idle
                (initial_state params init)) as [s' |] eqn:Hu;
      [| reflexivity].
    destruct (update_zoom params movements display idle _ s' Hu)
      as (cm & Hcm & Hz).
    simpl in Hcm; injection Hcm as <-; simpl in Hz.
    simpl; unfold draw; rewrite Hg.
    destruct (match frames s' with
              | [] => Some (record_frame (pose s') (cmd s'))
              | _ :: _ => py_index (frames s') (frame_index (play s'))
              end); simpl; [| reflexivity].
    unfold draw_grid, pdiv; rewrite Reqb_true by congruence; reflexivity.
Qed.

Lemma zero_scale_raises_witness :
  main zero_scale_params demo_init demo_movements nothing_shown [pan_left]
  = None
  /\ main zero_scale_params demo_init demo_movements markers_shown [idle]
     = None.
Proof.
  split.
  - exact (proj1 (zero_scale_raises zero_scale_params demo_init
                    demo_movements nothing_shown (keys pan_left) eq_refl)
             eq_refl).
  - exact (proj2 (zero_scale_raises zero_scale_params demo_init
                    demo_movements markers_shown (fun _ => false) eq_refl)
             eq_refl).
Defined.

(** ** Movements without distance, the end of the run, the path *)

(** A movement whose target distance is zero or negative (a rotation count
    of zero or below) is taken and dropped in one advancing iteration: the
    robot does not move, no point is added to the path, and a frame is
    recorded all the same. *)
Theorem empty_movement_is_skipped (params : RobotParameters)
  (movements : list Movement) (display : DisplayOptions) (i : Input)
  (s s' : Sim) (m : Movement) :
  tick params movements display i s = Some s' ->
  advancing (play (handle_events s (events i))) = true ->
  remaining_distance (cmd s) <= 0 ->
  nth_error movements (movement_index (cmd s)) = Some m ->
  target_distance params m <= 0 ->
  pose s' = pose s
  /\ path s' = path s
  /\ movement_index (cmd s') = S (movement_index (cmd s))
  /\ remaining_distance (cmd s') = target_distance params m
  /\ frames s' = frames s ++ [record_frame (pose s') (cmd s')].
Proof.
  intros Ht Ha Hr Hn Htarget.
  destruct (tick_cases params movements display i s s' Ht)
    as [(Hna & _) | (_ & Hm & Hf & _)]; [congruence |].
  destruct (take_movement_cases params movements display (pose s) (cmd s))
    as [[_ [Hpos | Hlen]] | (_ & m' & Hn' & Htk)].
  - lra.
  - apply nth_error_None in Hlen; congruence.
  - rewrite Hn in Hn'; injection Hn' as <-.
    rewrite Htk in Hm.
    destruct (activate_fields params display m (pose s) (cmd s))
      as (Hi & Hrem & _).
    apply move_cases in Hm as [(_ & Hp & Hc & Hpth) | (Hpos & _)];
      [| lra].
    rewrite Hp, Hc, Hpth, Hi, Hrem; repeat split; auto.
    rewrite Hf, Hp, Hc; reflexivity.
Qed.

Lemma empty_movement_is_skipped_witness :
  let movements := [("forward", "both", 0)]%string in
  exists s',
    tick demo_params movements markers_shown idle
      (initial_state demo_params demo_init) = Some s'
    /\ pose s' = initial_pose demo_params demo_init
    /\ movement_index (cmd s') = 1%nat
    /\ List.length (frames s') = 2%nat.
Proof.
  intros movements.
  destruct (tick_total demo_params movements markers_shown idle
              (initial_state demo_params demo_init))
    as (s' & Ht & _); [simpl; lra | simpl; lra | apply initial_play_inv |].
  destruct (empty_movement_is_skipped demo_params movements markers_shown
              idle _ s' ("forward", "both", 0)%string Ht eq_refl)
    as (Hp & _ & Hi & _ & Hf).
  - simpl; lra.
  - reflexivity.
  - unfold target_distance; simpl; lra.
  - exists s'; rewrite Hf; repeat split; auto.
Defined.

Section Terminal.

Variable params : RobotParameters.
Variable movements : list Movement.
Variable display : DisplayOptions.

Lemma tick_finished (i : Input) (s s' : Sim) :
  simulation_finished (play s) = true ->
  tick params movements display i s = Some s' ->
  simulation_finished (play s') = true
  /\ pose s' = pose s /\ cmd s' = cmd s /\ frames s' = frames s
  /\ path s' = path s.
Proof.
  intros Hf Ht.
  destruct (tick_cases params movements display i s s' Ht)
    as [(_ & Hp & Hc & Hfs & Hpa & Hpl) | (Ha & _)].
  - rewrite Hpl, handle_scrubbing_finished, handle_events_finished; auto.
  - apply advancing_not_finished in Ha.
    rewrite handle_events_finished in Ha; congruence.
Qed.

Lemma tick_path_inv (i : Input) (s s' : Sim) :
  path_inv s ->
  tick params movements display i s = Some s' ->
  path_inv s'.
Proof.
  intros [[l Hl] Hlen] Ht; unfold path_inv.
  destruct (tick_cases params movements display i s s' Ht)
    as [(_ & Hp & _ & Hf & Hpa & _) | (_ & Hm & Hf & _)].
  - split; rewrite Hpa; [rewrite Hp; eauto | now rewrite Hf].
  - apply move_cases in Hm as [(_ & Hp & _ & Hpth) | (_ & _ & Hpth)];
      rewrite Hpth, Hf, ?length_app; simpl; split; try lia.
    + rewrite Hp; eauto.
    + eauto.
Qed.

End Terminal.

(** The finished state is terminal: whatever inputs follow, the flag stays
    set and pose, command state, frames and path stay as they were. *)
Theorem finished_is_terminal (params : RobotParameters)
  (movements : list Movement) (display : DisplayOptions)
  (ins : list Input) (s s' : Sim) :
  simulation_finished (play s) = true ->
  run params movements display ins s = Some s' ->
  simulation_finished (play s') = true
  /\ pose s' = pose s /\ cmd s' = cmd s /\ frames s' = frames s
  /\ path s' = path s.
Proof.
  intros Hf Hrun.
  apply (run_invariant params movements display
           (fun t => simulation_finished (play t) = true
                     /\ pose t = pose s /\ cmd t = cmd s
                     /\ frames t = frames s /\ path t = path s))
    in Hrun; [exact Hrun | | auto].
  intros i t t' (Hft & Hp & Hc & Hfs & Hpa) Ht.
  destruct (tick_finished params movements display i t t' Hft Ht)
    as (H1 & H2 & H3 & H4 & H5).
  repeat split; congruence.
Qed.

(** In every state of every run the path ends at the reference point, and
    it has at most as many points as there are frames. *)
Theorem path_ends_at_reference_point (params : RobotParameters)
  (init : InitialConditions) (movements : list Movement)
  (display : DisplayOptions) (ins : list Input) (s : Sim) :
  main params init movements display ins = Some s ->
  (exists l, path s = l ++ [(x (pose s), y (pose s))])
  /\ (List.length (path s) <= List.length (frames s))%nat.
Proof.
  intros H.
  apply (run_invariant params movements display path_inv) in H;
    [exact H | |].
  - intros i s0 s0' H0 Ht.
    apply (tick_path_inv params movements display i s0 s0' H0 Ht).
  - split; [exists []; reflexivity | simpl; lia].
Qed.

Lemma path_ends_at_reference_point_witness :
  exists s,
    main demo_params demo_init demo_movements markers_shown
      [idle; camera_busy; idle] = Some s
    /\ exists l, path s = l ++ [(x (pose s), y (pose s))].
Proof.
  destruct (run_total demo_params demo_movements markers_shown
              [idle; camera_busy; idle] (initial_state demo_params demo_init))
    as [s Hs]; [simpl; lra | simpl; lra | apply initial_play_inv |].
  exists s; split; [exact Hs |].
  exact (proj1 (path_ends_at_reference_point demo_params demo_init
                  demo_movements markers_shown _ s Hs)).
Defined.

Lemma main_zoom_bounds (params : RobotParameters)
  (init : InitialConditions) (movements : list Movement)
  (display : DisplayOptions) (ins : list Input) (s : Sim) :
  1 <= scale params <= 20 ->
  main params init movements display ins = Some s ->
  1 <= zoom (cam s) <= 20.
Proof.
  intros Hs H.
  apply (run_invariant params movements display
           (fun s => 1 <= zoom (cam s) <= 20)) in H; [exact H | | exact Hs].
  intros i s0 s0' H0 Ht.
  apply (tick_zoom_bounds params movements display i s0 s0' H0 Ht).
Qed.

Lemma finished_is_terminal_witness :
  exists s s',
    main wide_step_params demo_init left_then_right markers_shown
      (repeat idle (Z.to_nat (total_steps wide_step_params left_then_right)))
    = Some s
    /\ simulation_finished (play s) = true
    /\ run wide_step_params left_then_right markers_shown
         [idle; camera_busy] s = Some s'
    /\ frames s' = frames s /\ pose s' = pose s.
Proof.
  assert (H1 : 0 < step_size wide_step_params) by (simpl; lra).
  assert (H2 : 0 < wheel_diameter wide_step_params) by (simpl; lra).
  assert (H3 : robot_width wide_step_params <> 0) by (simpl; lra).
  assert (H4 : Forall (fun m => 0 < rotations_of m) left_then_right)
    by (repeat constructor; simpl; lra).
  destruct (idle_run_finishes wide_step_params left_then_right markers_shown
              H1 H2 H3 H4
              (Z.to_nat (total_steps wide_step_params left_then_right))
              (initial_state wide_step_params demo_init))
    as (s & Hrun & Hfin).
  { apply initial_count_inv; try assumption; discriminate. }
  { repeat split; reflexivity. }
  { right; simpl; lra. }
  { pose proof (total_steps_nonneg wide_step_params H1 H2 left_then_right H4).
    change (len (frames (initial_state wide_step_params demo_init)))
      with 1%Z; lia. }
  pose proof (main_zoom_bounds wide_step_params demo_init left_then_right
                markers_shown _ s ltac:(simpl; lra) Hrun) as Hz.
  pose proof (main_play_inv wide_step_params left_then_right markers_shown
                demo_init _ s Hrun) as Hinv.
  destruct (run_total wide_step_params left_then_right markers_shown
              [idle; camera_busy] s H3) as [s' Hs']; [lra | exact Hinv |].
  exists s, s'; split; [exact Hrun |]; split; [exact Hfin |];
    split; [exact Hs' |].
  destruct (finished_is_terminal wide_step_params left_then_right
              markers_shown [idle; camera_busy] s s' Hfin Hs')
    as (_ & Hp & _ & Hf & _).
  split; assumption.
Defined.

(** ** Keeping the robot in view *)

Section Screen.

Lemma int_of_IZR (z : Z) : int_of (IZR z) = z.
Proof.
  unfold int_of, Rleb.
  destruct (Rle_dec 0 (IZR z)) as [H | H].
  - destruct (base_Int_part (IZR z)) as [H1 H2].
    assert (Int_part (IZR z) <= z)%Z by (apply le_IZR; lra).
    assert (z - 1 < Int_part (IZR z))%Z
      by (apply lt_IZR; rewrite minus_IZR; lra).
    lia.
  - rewrite <- opp_IZR.
    destruct (base_Int_part (IZR (- z))) as [H1 H2].
    assert (Int_part (IZR (- z)) <= - z)%Z by (apply le_IZR; lra).
    assert (- z - 1 < Int_part (IZR (- z)))%Z
      by (apply lt_IZR; rewrite minus_IZR; lra).
    lia.
Qed.

Lemma int_of_near (r : R) : Rabs (IZR (int_of r) - r) < 1.
Proof.
  unfold int_of, Rleb.
  destruct (Rle_dec 0 r) as [H | H].
  - destruct (base_Int_part r) as [H1 H2].
    apply Rabs_def1; lra.
  - rewrite opp_IZR; destruct (base_Int_part (- r)) as [H1 H2].
    apply Rabs_def1; lra.
Qed.

Lemma Int_part_le (r1 r2 : R) : r1 <= r2 -> (Int_part r1 <= Int_part r2)%Z.
Proof.
  intros H.
  destruct (base_Int_part r1) as [H1 _], (base_Int_part r2) as [_ H2].
  assert (Int_part r1 - 1 < Int_part r2)%Z
    by (apply lt_IZR; rewrite minus_IZR; lra).
  lia.
Qed.

Lemma Int_part_nonneg (r : R) : 0 <= r -> (0 <= Int_part r)%Z.
Proof.
  intros H; destruct (base_Int_part r) as [_ H2].
  assert (-1 < Int_part r)%Z by (apply lt_IZR; lra); lia.
Qed.

Lemma int_of_le (r1 r2 : R) : r1 <= r2 -> (int_of r1 <= int_of r2)%Z.
Proof.
  intros H; unfold int_of, Rleb.
  destruct (Rle_dec 0 r1) as [H1 | H1], (Rle_dec 0 r2) as [H2 | H2];
    try lra.
  - now apply Int_part_le.
  - pose proof (Int_part_nonneg (- r1) ltac:(lra)).
    pose proof (Int_part_nonneg r2 H2); lia.
  - assert (Int_part (- r2) <= Int_part (- r1))%Z
      by (apply Int_part_le; lra).
    lia.
Qed.

Lemma int_of_between (r : R) (a b : Z) :
  IZR a <= r <= IZR b -> (a <= int_of r <= b)%Z.
Proof.
  intros [Ha Hb]; split.
  - rewrite <- (int_of_IZR a); now apply int_of_le.
  - rewrite <- (int_of_IZR b); now apply int_of_le.
Qed.

End Screen.

(** [world_to_screen] puts the camera centre on the centre of the window,
    is within one pixel of the exact projection, and for a zoom that is not
    negative keeps the order of world x and reverses the order of world
    y. *)
Theorem world_to_screen_projection (c : Camera) (wx wy wx' wy' : R) :
  world_to_screen c (scroll_x c) (scroll_y c) = (800%Z, 600%Z)
  /\ Rabs (IZR (fst (world_to_screen c wx wy))
           - (800 + (wx - scroll_x c) * zoom c)) < 1
  /\ Rabs (IZR (snd (world_to_screen c wx wy))
           - (600 - (wy - scroll_y c) * zoom c)) < 1
  /\ (0 <= zoom c -> wx <= wx' ->
      (fst (world_to_screen c wx wy) <= fst (world_to_screen c wx' wy'))%Z)
  /\ (0 <= zoom c -> wy <= wy' ->
      (snd (world_to_screen c wx' wy') <= snd (world_to_screen c wx wy))%Z).
Proof.
  unfold world_to_screen.
  change (IZR (WIDTH / 2)) with 800; change (IZR (HEIGHT / 2)) with 600.
  cbn [fst snd].
  split; [| split; [apply int_of_near | split; [apply int_of_near |]]].
  - replace (800 + (scroll_x c - scroll_x c) * zoom c) with (IZR 800)
      by lra.
    replace (600 - (scroll_y c - scroll_y c) * zoom c) with (IZR 600)
      by lra.
    now rewrite !int_of_IZR.
  - split; intros Hz Hle; apply int_of_le; nra.
Qed.

Lemma world_to_screen_projection_witness :
  let c := {| scroll_x := -30; scroll_y := -20; zoom := 5 |} in
  (fst (world_to_screen c 0 0) <= fst (world_to_screen c 10 0))%Z
  /\ (snd (world_to_screen c 0 10) <= snd (world_to_screen c 0 0))%Z.
Proof.
  intros c.
  destruct (world_to_screen_projection c 0 0 10 10)
    as (_ & _ & _ & Hx & Hy).
  split.
  - pose proof (Hx ltac:(simpl; lra) ltac:(lra)) as H; exact H.
  - pose proof (Hy ltac:(simpl; lra) ltac:(lra)) as H; exact H.
Defined.

(** The automatic scroll (lines 288-296), in exact arithmetic: when the
    projection of the reference point is beyond a margin line, the camera
    is moved by the overshoot divided by the zoom, which brings the
    projection onto that line; when it is within the margins the camera
    stays where it is; the zoom is never touched. *)
Theorem autoscroll_returns_to_margin (p : Pose) (c c' : Camera) :
  autoscroll p c = Some c' ->
  let lo := IZR SCROLL_BUFFER in
  let hi_x := IZR (WIDTH - SCROLL_BUFFER) in
  let hi_y := IZR (HEIGHT - SCROLL_BUFFER) in
  let sx := fst (screen_xy c p) in
  let sy := snd (screen_xy c p) in
  zoom c' = zoom c
  /\ (hi_x < sx ->
      scroll_x c' = scroll_x c + (sx - hi_x) / zoom c
      /\ fst (screen_xy c' p) = hi_x)
  /\ (sx < lo ->
      scroll_x c' = scroll_x c - (lo - sx) / zoom c
      /\ fst (screen_xy c' p) = lo)
  /\ (lo <= sx <= hi_x -> scroll_x c' = scroll_x c)
  /\ (hi_y < sy ->
      scroll_y c' = scroll_y c - (sy - hi_y) / zoom c
      /\ snd (screen_xy c' p) = hi_y)
  /\ (sy < lo ->
      scroll_y c' = scroll_y c + (lo - sy) / zoom c
      /\ snd (screen_xy c' p) = lo)
  /\ (lo <= sy <= hi_y -> scroll_y c' = scroll_y c).
Proof.
  unfold autoscroll, screen_xy; intros H; cbv zeta; cbn [fst snd].
  change (IZR (WIDTH / 2)) with 800 in *.
  change (IZR (HEIGHT / 2)) with 600 in *.
  change (IZR (WIDTH - SCROLL_BUFFER)) with 1500 in *.
  change (IZR (HEIGHT - SCROLL_BUFFER)) with 1100 in *.
  change (IZR SCROLL_BUFFER) with 100 in *.
  apply bind_some in H as (sx & Hsx & H).
  apply bind_some in H as (sy & Hsy & H).
  injection H as <-; cbn [scroll_x scroll_y zoom].
  split; [reflexivity |].
  assert (Hx : (1500 < 800 + (x p - scroll_x c) * zoom c ->
                sx = scroll_x c
                     + (800 + (x p - scroll_x c) * zoom c - 1500) / zoom c
                /\ 800 + (x p - sx) * zoom c = 1500)
               /\ (800 + (x p - scroll_x c) * zoom c < 100 ->
                   sx = scroll_x c
                        - (100 - (800 + (x p - scroll_x c) * zoom c))
                          / zoom c
                   /\ 800 + (x p - sx) * zoom c = 100)
               /\ (100 <= 800 + (x p - scroll_x c) * zoom c <= 1500 ->
                   sx = scroll_x c)).
  { clear Hsy; unfold Rltb in Hsx.
    destruct (Rlt_dec 1500 _) as [H1 | H1].
    - apply bind_some in Hsx as (d & Hd & Hsx); injection Hsx as <-.
      apply pdiv_inv in Hd as [Hz ->].
      split; [intros _; split; [reflexivity | field; exact Hz] |].
      split; intros; lra.
    - destruct (Rlt_dec _ 100) as [H2 | H2].
      + apply bind_some in Hsx as (d & Hd & Hsx); injection Hsx as <-.
        apply pdiv_inv in Hd as [Hz ->].
        split; [intros; lra |].
        split; [intros _; split; [reflexivity | field; exact Hz] |].
        intros; lra.
      + injection Hsx as <-.
        split; [intros; lra |]; split; [intros; lra | reflexivity]. }
  assert (Hy : (1100 < 600 - (y p - scroll_y c) * zoom c ->
                sy = scroll_y c
                     - (600 - (y p - scroll_y c) * zoom c - 1100) / zoom c
                /\ 600 - (y p - sy) * zoom c = 1100)
               /\ (600 - (y p - scroll_y c) * zoom c < 100 ->
                   sy = scroll_y c
                        + (100 - (600 - (y p - scroll_y c) * zoom c))
                          / zoom c
                   /\ 600 - (y p - sy) * zoom c = 100)
               /\ (100 <= 600 - (y p - scroll_y c) * zoom c <= 1100 ->
                   sy = scroll_y c)).
  { clear Hsx Hx; unfold Rltb in Hsy.
    destruct (Rlt_dec 1100 _) as [H1 | H1].
    - apply bind_some in Hsy as (d & Hd & Hsy); injection Hsy as <-.
      apply pdiv_inv in Hd as [Hz ->].
      split; [intros _; split; [reflexivity | field; exact Hz] |].
      split; intros; lra.
    - destruct (Rlt_dec _ 100) as [H2 | H2].
      + apply bind_some in Hsy as (d & Hd & Hsy); injection Hsy as <-.
        apply pdiv_inv in Hd as [Hz ->].
        split; [intros; lra |].
        split; [intros _; split; [reflexivity | field; exact Hz] |].
        intros; lra.
      + injection Hsy as <-.
        split; [intros; lra |]; split; [intros; lra | reflexivity]. }
  destruct Hx as (Hx1 & Hx2 & Hx3), Hy as (Hy1 & Hy2 & Hy3).
  repeat split; auto; try (apply Hx1; assumption); try (apply Hx2; assumption);
    try (apply Hy1; assumption); try (apply Hy2; assumption).
Qed.

Lemma autoscroll_returns_to_margin_witness :
  let p := {| x := 500; y := -300; heading := 0; axle_x := 500;
              axle_y := -260 |} in
  let c := {| scroll_x := 0; scroll_y := 0; zoom := 5 |} in
  exists c',
    autoscroll p c = Some c'
    /\ fst (screen_xy c' p) = 1500
    /\ snd (screen_xy c' p) = 1100.
Proof.
  intros p c.
  destruct (autoscroll_total p c) as (c' & Hc' & _).
  exists c'; split; [exact Hc' |].
  destruct (autoscroll_returns_to_margin p c c' Hc')
    as (_ & Hx & _ & _ & Hy & _).
  assert (Hsx : IZR (WIDTH - SCROLL_BUFFER) < fst (screen_xy c p)).
  { change (IZR (WIDTH - SCROLL_BUFFER)) with 1500.
    unfold screen_xy, p, c; cbn [fst x scroll_x zoom].
    change (IZR (WIDTH / 2)) with 800; lra. }
  assert (Hsy : IZR (HEIGHT - SCROLL_BUFFER) < snd (screen_xy c p)).
  { change (IZR (HEIGHT - SCROLL_BUFFER)) with 1100.
    unfold screen_xy, p, c; cbn [snd y scroll_y zoom].
    change (IZR (HEIGHT / 2)) with 600; lra. }
  split; [exact (proj2 (Hx Hsx)) | exact (proj2 (Hy Hsy))].
Defined.

(** ** A whole movement *)

Section WholeMovement.

Variable params : RobotParameters.
Variable movements : list Movement.
Variable display : DisplayOptions.

Variable k : nat.
Variable m : Movement.
Variable p0 : Pose.
Variable Q : R -> Pose -> Prop.
Hypothesis kth : nth_error movements k = Some m.
Hypothesis Q_start : Q (target_distance params m) p0.
Hypothesis Q_step :
  forall p p' c c',
    active_wheel_command c = Some (wheel_of m) ->
    direction_sign c = sign_of m ->
    0 < remaining_distance c ->
    Q (remaining_distance c) p ->
    integrator_step params p c = Some (p', c') ->
    Q (remaining_distance c') p'.

Lemma activate_direction (p : Pose) (c : Command) :
  direction_sign (activate params display m p c) = sign_of m.
Proof. destruct m as [[d w] r]; reflexivity. Qed.

Lemma move_in_command (p p' : Pose) (c c' : Command)
  (pth pth' : list (R * R)) (j : nat) :
  movement_index c = j ->
  active_wheel_command c = Some (wheel_of m) ->
  direction_sign c = sign_of m ->
  Q (remaining_distance c) p ->
  move params p c pth = Some (p', c', pth') ->
  movement_index c' = j
  /\ active_wheel_command c' = Some (wheel_of m)
  /\ direction_sign c' = sign_of m
  /\ Q (remaining_distance c') p'.
Proof.
  intros Hj Ha Hs HQ Hm.
  pose proof (move_movement_index params _ _ _ _ _ _ Hm)
    as (Hi & Hac & _ & _ & Hds).
  rewrite Hi, Hac, Hds; repeat split; auto.
  apply move_cases in Hm as [(_ & -> & -> & _) | (Hpos & Hstep & _)];
    [exact HQ |].
  apply (Q_step p p' c c' Ha Hs Hpos HQ Hstep).
Qed.

Lemma tick_in_command (i : Input) (s s' : Sim) :
  in_command k m p0 Q s ->
  tick params movements display i s = Some s' ->
  in_command k m p0 Q s' \/ (S k < movement_index (cmd s'))%nat.
Proof.
  intros Hin Ht.
  destruct (tick_cases params movements display i s s' Ht)
    as [(_ & Hp & Hc & _) | (_ & Hm & _)].
  - left; unfold in_command; now rewrite Hp, Hc.
  - destruct (take_movement_cases params movements display (pose s) (cmd s))
      as [[Htk Hwhy] | (Hr & m' & Hn & Htk)]; rewrite Htk in Hm.
    + destruct Hin as [(Hk & Hr & _) | (Hk & Ha & Hs & HQ)].
      * destruct Hwhy as [Hpos | Hlen]; [lra |].
        rewrite Hk in Hlen; apply nth_error_None in Hlen; congruence.
      * left; right.
        apply (move_in_command _ _ _ _ _ _ (S k) Hk Ha Hs HQ Hm).
    + destruct (activate_fields params display m' (pose s) (cmd s))
        as (Hai & Har & Haa).
      destruct Hin as [(Hk & _ & Hp) | (Hk & _)].
      * rewrite Hk, kth in Hn; injection Hn as <-.
        left; right.
        apply (move_in_command _ _ _ _ _ _ (S k)) in Hm; auto.
        -- lia.
        -- apply activate_direction.
        -- rewrite Har, Hp; exact Q_start.
      * right.
        apply move_movement_index in Hm as (-> & _); lia.
Qed.

Lemma run_in_command (ins : list Input) :
  forall s s',
    in_command k m p0 Q s ->
    run params movements display ins s = Some s' ->
    movement_index (cmd s') = S k ->
    Q (remaining_distance (cmd s')) (pose s').
Proof.
  induction ins as [| i ins IH]; intros s s' Hin H Hidx; simpl in H.
  - injection H as <-.
    destruct Hin as [(Hk & _) | (_ & _ & _ & HQ)]; [lia | exact HQ].
  - destruct (running (play s)).
    + apply bind_some in H as (s1 & Ht & H).
      destruct (tick_in_command i s s1 Hin Ht) as [Hin1 | Hgt].
      * apply (IH s1 s' Hin1 H Hidx).
      * apply run_movement_index in H; lia.
    + injection H as <-.
      destruct Hin as [(Hk & _) | (_ & _ & _ & HQ)]; [lia | exact HQ].
Qed.

End WholeMovement.

Section Progress2.

Variable params : RobotParameters.
Variable m : Movement.
Variable p0 : Pose.

Lemma straight_progress_start :
  straight_progress params m p0 (target_distance params m) p0.
Proof. unfold straight_progress; simpl; repeat split; lra. Qed.

Lemma straight_progress_step (p p' : Pose) (c c' : Command) :
  wheel_of m = "both"%string ->
  active_wheel_command c = Some (wheel_of m) ->
  direction_sign c = sign_of m ->
  0 < remaining_distance c ->
  straight_progress params m p0 (remaining_distance c) p ->
  integrator_step params p c = Some (p', c') ->
  straight_progress params m p0 (remaining_distance c') p'.
Proof.
  intros Hb Ha Hs _ (Hh & Hx & Hy & Hax & Hay) Hstep.
  rewrite Hb in Ha.
  rewrite (integrator_step_both params p c Ha) in Hstep.
  injection Hstep as <- <-.
  unfold straight_progress; simpl; rewrite Hh, Hs, Hx, Hy, Hax, Hay.
  repeat split; ring.
Qed.

Lemma turn_progress_start :
  turn_progress params m p0 (target_distance params m) p0.
Proof.
  unfold turn_progress; split; [| reflexivity].
  unfold Rminus; rewrite Rplus_opp_r; unfold Rdiv.
  rewrite Rmult_0_r, Rmult_0_l, Rmult_0_r; lra.
Qed.

Lemma turn_progress_step (p p' : Pose) (c c' : Command) :
  wheel_of m <> "both"%string ->
  active_wheel_command c = Some (wheel_of m) ->
  direction_sign c = sign_of m ->
  0 < remaining_distance c ->
  turn_progress params m p0 (remaining_distance c) p ->
  integrator_step params p c = Some (p', c') ->
  turn_progress params m p0 (remaining_distance c') p'.
Proof.
  intros Hnb Ha Hs _ [Hh Hl] Hstep.
  unfold integrator_step in Hstep; rewrite Ha in Hstep; simpl in Hstep.
  apply String.eqb_neq in Hnb; rewrite Hnb in Hstep.
  apply bind_some in Hstep as (q & Hq & Hstep).
  injection Hstep as <- <-; simpl.
  split.
  - unfold pivot_step in Hq.
    apply bind_some in Hq as (theta & Hth & Hq); injection Hq as <-.
    apply pdiv_inv in Hth as [Hw ->]; simpl.
    unfold turn_sign; rewrite Hh, Hs.
    unfold turn_sign; destruct (String.eqb (wheel_of m) "left");
      field; exact Hw.
  - intros Hnl; rewrite <- (Hl Hnl).
    apply (pivot_step_right_fixes_left_wheel params _ _ _ _ _ ) in Hq;
      [exact Hq |].
    simpl; now apply String.eqb_neq.
Qed.

End Progress2.

(** A ["both"] movement, from the moment it is about to be taken until it
    is used up, moves the reference point and the axle by
    [sign * targetDistance] along the heading, which it keeps: the distance
    driven is the rotation count times the wheel circumference. *)
Theorem both_command_displacement (params : RobotParameters)
  (movements : list Movement) (display : DisplayOptions)
  (ins : list Input) (s s' : Sim) (k : nat) (m : Movement) :
  nth_error movements k = Some m ->
  wheel_of m = "both"%string ->
  movement_index (cmd s) = k ->
  remaining_distance (cmd s) <= 0 ->
  run params movements display ins s = Some s' ->
  movement_index (cmd s') = S k ->
  remaining_distance (cmd s') = 0 ->
  let d := IZR (sign_of m) * target_distance params m in
  heading (pose s') = heading (pose s)
  /\ x (pose s') = x (pose s) + sin (heading (pose s)) * d
  /\ y (pose s') = y (pose s) + cos (heading (pose s)) * d
  /\ axle_x (pose s') = axle_x (pose s) + sin (heading (pose s)) * d
  /\ axle_y (pose s') = axle_y (pose s) + cos (heading (pose s)) * d.
Proof.
  intros Hk Hb Hi Hr Hrun Hi' Hr' d.
  pose proof (run_in_command params movements display k m (pose s)
                (straight_progress params m (pose s)) Hk
                (straight_progress_start params m (pose s))) as H.
  specialize (H (fun p p' c c' => straight_progress_step params m (pose s)
                                    p p' c c' Hb)
                ins s s' (or_introl (conj Hi (conj Hr eq_refl))) Hrun Hi').
  unfold straight_progress in H; rewrite Hr', Rminus_0_r in H; exact H.
Qed.

(** A single-wheel movement, from the moment it is about to be taken until
    it is used up, turns the heading by [targetDistance / robot_width]
    radians, clockwise for ["left"] and counter-clockwise otherwise (with
    the sign of the direction); and for a movement other than ["left"] the
    left wheel ends where it started. *)
Theorem single_wheel_command_turn (params : RobotParameters)
  (movements : list Movement) (display : DisplayOptions)
  (ins : list Input) (s s' : Sim) (k : nat) (m : Movement) :
  nth_error movements k = Some m ->
  wheel_of m <> "both"%string ->
  movement_index (cmd s) = k ->
  remaining_distance (cmd s) <= 0 ->
  run params movements display ins s = Some s' ->
  movement_index (cmd s') = S k ->
  remaining_distance (cmd s') = 0 ->
  heading (pose s')
  = heading (pose s)
    + turn_sign m
      * (IZR (sign_of m) * target_distance params m / robot_width params)
  /\ (wheel_of m <> "left"%string ->
      left_wheel_of params (pose s') = left_wheel_of params (pose s)).
Proof.
  intros Hk Hb Hi Hr Hrun Hi' Hr'.
  pose proof (run_in_command params movements display k m (pose s)
                (turn_progress params m (pose s)) Hk
                (turn_progress_start params m (pose s))) as H.
  specialize (H (fun p p' c c' => turn_progress_step params m (pose s)
                                    p p' c c' Hb)
                ins s s' (or_introl (conj Hi (conj Hr eq_refl))) Hrun Hi').
  unfold turn_progress in H; rewrite Hr', Rminus_0_r in H; exact H.
Qed.

Lemma both_command_displacement_witness :
  let movements := [("backward", "both", 1)]%string in
  let s0 := initial_state wide_step_params demo_init in
  exists s1,
    run wide_step_params movements markers_shown [idle] s0 = Some s1
    /\ movement_index (cmd s1) = 1%nat
    /\ remaining_distance (cmd s1) = 0
    /\ x (pose s1) = x (pose s0) + sin (PI / 6) * (-1 * (1 * (PI * 20))).
Proof.
  intros movements s0.
  pose proof wide_step_target as [Hpos Hle].
  destruct (first_tick wide_step_params demo_init markers_shown
              ("backward", "both", 1)%string [])
    as (s1 & Ht & Hstep & _).
  { exact Hpos. }
  { simpl; lra. }
  { right; simpl; lra. }
  assert (Hrun : run wide_step_params movements markers_shown [idle] s0
                 = Some s1).
  { rewrite (run_cons wide_step_params movements markers_shown idle [] s0 s1
               eq_refl Ht); reflexivity. }
  apply integrator_step_remaining in Hstep.
  assert (Hidx : movement_index (cmd s1) = 1%nat)
    by (rewrite Hstep; reflexivity).
  assert (Hrem : remaining_distance (cmd s1) = 0).
  { rewrite Hstep; simpl; unfold wheel_circumference; simpl.
    rewrite Rmin_right by lra; lra. }
  exists s1; split; [exact Hrun |]; split; [exact Hidx |];
    split; [exact Hrem |].
  refine (proj1 (proj2 (both_command_displacement wide_step_params movements
                          markers_shown [idle] s0 s1 0%nat
                          ("backward", "both", 1)%string
                          eq_refl eq_refl eq_refl _ Hrun Hidx Hrem))).
  simpl; lra.
Defined.

Lemma single_wheel_command_turn_witness :
  let s0 := initial_state wide_step_params demo_init in
  exists s1,
    run wide_step_params left_then_right markers_hidden [idle] s0 = Some s1
    /\ movement_index (cmd s1) = 1%nat
    /\ remaining_distance (cmd s1) = 0
    /\ heading (pose s1) = PI / 6 + 1 * (1 * (1 * (PI * 20)) / 70).
Proof.
  intros s0.
  destruct left_then_right_first_tick as (s1 & Ht & Hc & _).
  assert (Hrun : run wide_step_params left_then_right markers_hidden [idle]
                   s0 = Some s1).
  { rewrite (run_cons wide_step_params left_then_right markers_hidden idle
               [] s0 s1 eq_refl Ht); reflexivity. }
  assert (Hidx : movement_index (cmd s1) = 1%nat)
    by (rewrite Hc; reflexivity).
  assert (Hrem : remaining_distance (cmd s1) = 0)
    by (rewrite Hc; reflexivity).
  exists s1; split; [exact Hrun |]; split; [exact Hidx |];
    split; [exact Hrem |].
  refine (proj1 (single_wheel_command_turn wide_step_params left_then_right
                   markers_hidden [idle] s0 s1 0%nat
                   ("forward", "left", 1)%string
                   eq_refl _ eq_refl _ Hrun Hidx Hrem)).
  - discriminate.
  - simpl; lra.
Defined.

(** ** Resetting the view, and the wheels *)

Section ResetView.

Lemma fold_min_le (l : list R) :
  forall a, fold_left Rmin l a <= a
            /\ forall v, In v l -> fold_left Rmin l a <= v.
Proof.
  induction l as [| b l IH]; intros a; simpl.
  - split; [lra | contradiction].
  - destruct (IH (Rmin a b)) as [H1 H2].
    pose proof (Rmin_l a b); pose proof (Rmin_r a b).
    split; [lra |].
    intros v [<- | Hv]; [lra | auto].
Qed.

Lemma fold_max_ge (l : list R) :
  forall a, a <= fold_left Rmax l a
            /\ forall v, In v l -> v <= fold_left Rmax l a.
Proof.
  induction l as [| b l IH]; intros a; simpl.
  - split; [lra | contradiction].
  - destruct (IH (Rmax a b)) as [H1 H2].
    pose proof (Rmax_l a b); pose proof (Rmax_r a b).
    split; [lra |].
    intros v [<- | Hv]; [lra | auto].
Qed.

Lemma list_min_le (l : list R) (v : R) : In v l -> list_min l <= v.
Proof.
  destruct l as [| a l]; [contradiction |]; simpl.
  destruct (fold_min_le l a) as [H1 H2].
  intros [<- | Hv]; auto.
Qed.

Lemma list_max_ge (l : list R) (v : R) : In v l -> v <= list_max l.
Proof.
  destruct l as [| a l]; [contradiction |]; simpl.
  destruct (fold_max_ge l a) as [H1 H2].
  intros [<- | Hv]; auto.
Qed.

(** One axis of the fit: a point of the box, seen from its middle and
    scaled by a zoom not above [size / (extent + padding)], is at most half
    the window away. *)
Lemma fit_axis (mn mx v pad z size : R) :
  mn <= v <= mx -> 0 <= pad -> 0 < z -> 0 < size ->
  z <= (if Reqb (mx - mn + pad) 0 then 20 else size / (mx - mn + pad)) ->
  - (size / 2) <= (v - (mn + mx) / 2) * z <= size / 2.
Proof.
  intros [Hlo Hhi] Hpad Hz Hsize Hle.
  unfold Reqb in Hle; destruct (Req_dec_T (mx - mn + pad) 0) as [H0 | H0].
  - assert (v = (mn + mx) / 2) as -> by lra.
    replace (((mn + mx) / 2 - (mn + mx) / 2) * z) with 0 by ring; lra.
  - assert (Hw : 0 < mx - mn + pad) by lra.
    assert (Hzw : z * (mx - mn + pad) <= size).
    { apply (Rmult_le_compat_r (mx - mn + pad)) in Hle; [| lra].
      unfold Rdiv in Hle; rewrite Rmult_assoc, Rinv_l in Hle; lra. }
    nra.
Qed.

End ResetView.

(** The reset-view key leaves a zoom between [ZOOM_MIN] and [ZOOM_MAX];
    and unless the zoom had to be raised to [ZOOM_MIN], every recorded
    position is then drawn inside the window. *)
Theorem reset_view_shows_all_frames (fs : list Frame) (c : Camera) (f : Frame) :
  In f fs ->
  let c' := reset_view fs c in
  IZR ZOOM_MIN <= zoom c' <= IZR ZOOM_MAX
  /\ (IZR ZOOM_MIN < zoom c' ->
      (0 <= fst (world_to_screen c' (f_x f) (f_y f)) <= WIDTH)%Z
      /\ (0 <= snd (world_to_screen c' (f_x f) (f_y f)) <= HEIGHT)%Z).
Proof.
  intros Hin c'.
  assert (Hne : fs <> []) by (intros ->; contradiction).
  split; [apply (reset_view_zoom_bounds fs c Hne) |].
  subst c'; destruct fs as [| f0 fs0]; [contradiction |].
  unfold reset_view, world_to_screen; cbv zeta.
  cbn [zoom scroll_x scroll_y fst snd].
  change (IZR ZOOM_MIN) with 1; change (IZR ZOOM_MAX) with 20.
  change (IZR WIDTH) with 1600; change (IZR HEIGHT) with 1200.
  change (IZR (WIDTH / 2)) with 800; change (IZR (HEIGHT / 2)) with 600.
  set (fs := f0 :: fs0) in *.
  set (mnx := list_min (map f_x fs)); set (mxx := list_max (map f_x fs)).
  set (mny := list_min (map f_y fs)); set (mxy := list_max (map f_y fs)).
  set (pad := Rmax (mxx - mnx) (mxy - mny) * (1 / 10)).
  set (zx := if Reqb (mxx - mnx + pad) 0 then 20
             else 1600 / (mxx - mnx + pad)).
  set (zy := if Reqb (mxy - mny + pad) 0 then 20
             else 1200 / (mxy - mny + pad)).
  set (z0 := Rmin (Rmin zx zy) 20).
  intros Hz.
  assert (Hx : mnx <= f_x f <= mxx).
  { split; [apply list_min_le | apply list_max_ge]; now apply in_map. }
  assert (Hy : mny <= f_y f <= mxy).
  { split; [apply list_min_le | apply list_max_ge]; now apply in_map. }
  assert (Hpad : 0 <= pad).
  { subst pad; pose proof (Rmax_l (mxx - mnx) (mxy - mny)); lra. }
  assert (Hz0 : Rmax z0 1 = z0 /\ 1 < z0).
  { unfold Rmax in *; destruct (Rle_dec z0 1); lra. }
  destruct Hz0 as [-> Hz1].
  assert (Hzx : z0 <= zx).
  { subst z0; pose proof (Rmin_l (Rmin zx zy) 20);
      pose proof (Rmin_l zx zy); lra. }
  assert (Hzy : z0 <= zy).
  { subst z0; pose proof (Rmin_l (Rmin zx zy) 20);
      pose proof (Rmin_r zx zy); lra. }
  pose proof (fit_axis mnx mxx (f_x f) pad z0 1600 Hx Hpad
                ltac:(lra) ltac:(lra) Hzx) as Hfx.
  pose proof (fit_axis mny mxy (f_y f) pad z0 1200 Hy Hpad
                ltac:(lra) ltac:(lra) Hzy) as Hfy.
  split; apply int_of_between;
    change (IZR 0) with 0; change (IZR WIDTH) with 1600;
    change (IZR HEIGHT) with 1200; lra.
Qed.

Lemma reset_view_shows_all_frames_witness :
  let f := record_frame (initial_pose demo_params demo_init)
             initial_command in
  let c := {| scroll_x := 1000; scroll_y := 1000; zoom := 3 |} in
  zoom (reset_view [f] c) = 20
  /\ (0 <= fst (world_to_screen (reset_view [f] c) (f_x f) (f_y f))
       <= WIDTH)%Z.
Proof.
  intros f c.
  assert (Hz : zoom (reset_view [f] c) = 20).
  { unfold reset_view; cbv zeta; cbn [zoom map list_min list_max fold_left].
    change (IZR ZOOM_MIN) with 1; change (IZR ZOOM_MAX) with 20.
    rewrite !Reqb_true
      by (unfold Rmax; destruct (Rle_dec _ _); lra).
    rewrite !(Rmin_left 20 20) by lra.
    apply Rmax_left; lra. }
  split; [exact Hz |].
  refine (proj1 (proj2 (reset_view_shows_all_frames [f] c f
                          (or_introl eq_refl)) _)).
  rewrite Hz; change (IZR ZOOM_MIN) with 1; lra.
Defined.

(** The wheels drawn for a frame (lines 326-330) lie on either side of the
    axle midpoint, [robot_width] apart. *)
Theorem wheels_symmetric_about_axle (params : RobotParameters)
  (ax ay h : R) :
  let l := left_wheel params ax ay h in
  let r := right_wheel params ax ay h in
  (fst l + fst r) / 2 = ax
  /\ (snd l + snd r) / 2 = ay
  /\ (fst r - fst l) * (fst r - fst l) + (snd r - snd l) * (snd r - snd l)
     = robot_width params * robot_width params.
Proof.
  unfold left_wheel, right_wheel; simpl.
  split; [lra |]; split; [lra |].
  pose proof (sin2_cos2 h) as H; unfold Rsqr in H.
  replace (ax + robot_width params / 2 * cos h
           - (ax - robot_width params / 2 * cos h))
    with (robot_width params * cos h) by lra.
  replace (ay - robot_width params / 2 * sin h
           - (ay + robot_width params / 2 * sin h))
    with (- (robot_width params * sin h)) by lra.
  nra.
Qed.

(** ** The grid *)

Section Grid.

Lemma grid_loop_lines (n : nat) :
  forall v e,
    (e - v < 50 * Z.of_nat n)%Z ->
    exists l,
      grid_loop n v e = Some l
      /\ forall w, In w l <-> (v <= w <= e)%Z /\ (50 | w - v)%Z.
Proof.
  induction n as [| n IH]; intros v e Hn; simpl.
  - destruct (v <=? e)%Z eqn:E; [apply Z.leb_le in E; lia |].
    apply Z.leb_gt in E.
    exists []; split; [reflexivity |].
    intros w; simpl; split; [contradiction | lia].
  - destruct (v <=? e)%Z eqn:E.
    + apply Z.leb_le in E.
      destruct (IH (v + grid_spacing)%Z e) as (l & -> & Hl);
        [unfold grid_spacing; lia |].
      exists (v :: l); split; [reflexivity |].
      intros w; simpl; rewrite Hl; unfold grid_spacing; split.
      * intros [<- | [Hr [q Hq]]].
        -- split; [lia |]; exists 0%Z; lia.
        -- split; [lia |]; exists (q + 1)%Z; lia.
      * intros [Hr [q Hq]].
        destruct (Z.eq_dec q 0) as [-> | Hq0]; [left; lia |].
        right; split; [lia |]; exists (q - 1)%Z; lia.
    + apply Z.leb_gt in E.
      exists []; split; [reflexivity |].
      intros w; simpl; split; [contradiction | lia].
Qed.

Lemma floor_div_50 (a : R) :
  exists q : Z,
    floor_div a grid_spacing * IZR grid_spacing = IZR (50 * q)
    /\ IZR (50 * q) <= a < IZR (50 * q) + 50.
Proof.
  unfold floor_div, grid_spacing.
  exists (Int_part (a / 50)); rewrite mult_IZR.
  destruct (base_Int_part (a / 50)) as [H1 H2].
  split; [lra |].
  assert (Ha : a = a / 50 * 50) by (field; lra).
  split; lra.
Qed.

End Grid.

(** The grid: with a positive zoom, the first line in each direction is a
    multiple of the spacing at or before the edge of the visible world, the
    last one a multiple beyond the opposite edge, and the loop that draws
    them ends, having gone through exactly the multiples in between. *)
Theorem grid_covers_view (c : Camera) :
  0 < zoom c ->
  exists start_x end_x start_y end_y cols rows,
    grid_bounds c = Some (start_x, end_x, start_y, end_y)
    /\ (50 | start_x)%Z /\ (50 | end_x)%Z
    /\ (50 | start_y)%Z /\ (50 | end_y)%Z
    /\ IZR start_x <= scroll_x c - 800 / zoom c
    /\ scroll_x c + 800 / zoom c < IZR end_x
    /\ IZR start_y <= scroll_y c - 600 / zoom c
    /\ scroll_y c + 600 / zoom c < IZR end_y
    /\ grid_loop (Z.to_nat (end_x - start_x)) start_x end_x = Some cols
    /\ grid_loop (Z.to_nat (end_y - start_y)) start_y end_y = Some rows
    /\ (forall w, In w cols <-> (start_x <= w <= end_x)%Z /\ (50 | w)%Z)
    /\ (forall w, In w rows <-> (start_y <= w <= end_y)%Z /\ (50 | w)%Z).
Proof.
  intros Hz.
  assert (Hz0 : zoom c <> 0) by lra.
  unfold grid_bounds; rewrite !(pdiv_some _ _ Hz0); simpl bind.
  change (IZR WIDTH / 2) with (1600 / 2).
  change (IZR HEIGHT / 2) with (1200 / 2).
  replace (1600 / 2 / zoom c) with (800 / zoom c) by (field; exact Hz0).
  replace (1200 / 2 / zoom c) with (600 / zoom c) by (field; exact Hz0).
  destruct (floor_div_50 (scroll_x c - 800 / zoom c)) as (ql & -> & Hl).
  destruct (floor_div_50 (scroll_x c + 800 / zoom c)) as (qr & -> & Hr).
  destruct (floor_div_50 (scroll_y c - 600 / zoom c)) as (qb & -> & Hb).
  destruct (floor_div_50 (scroll_y c + 600 / zoom c)) as (qt & -> & Ht).
  change (IZR grid_spacing) with (IZR 50).
  rewrite <- !plus_IZR, !int_of_IZR.
  assert (Hpos : 0 < 800 / zoom c /\ 0 < 600 / zoom c).
  { split; apply Rdiv_lt_0_compat; lra. }
  assert (Hx : (50 * ql <= 50 * qr)%Z).
  { assert (50 * ql < 50 * qr + 50)%Z
      by (apply lt_IZR; rewrite plus_IZR; lra); lia. }
  assert (Hy : (50 * qb <= 50 * qt)%Z).
  { assert (50 * qb < 50 * qt + 50)%Z
      by (apply lt_IZR; rewrite plus_IZR; lra); lia. }
  destruct (grid_loop_lines (Z.to_nat (50 * qr + 50 - 50 * ql))
              (50 * ql)%Z (50 * qr + 50)%Z) as (cols & Hcols & Hin);
    [lia |].
  destruct (grid_loop_lines (Z.to_nat (50 * qt + 50 - 50 * qb))
              (50 * qb)%Z (50 * qt + 50)%Z) as (rows & Hrows & Hin');
    [lia |].
  exists (50 * ql)%Z, (50 * qr + 50)%Z, (50 * qb)%Z, (50 * qt + 50)%Z,
    cols, rows.
  split; [reflexivity |].
  split; [exists ql; lia |]; split; [exists (qr + 1)%Z; lia |].
  split; [exists qb; lia |]; split; [exists (qt + 1)%Z; lia |].
  split; [lra |]; split; [rewrite plus_IZR; lra |].
  split; [lra |]; split; [rewrite plus_IZR; lra |].
  split; [exact Hcols |]; split; [exact Hrows |].
  split; intros w; [rewrite Hin | rewrite Hin']; split;
    intros [Hr' [q Hq]]; (split; [exact Hr' |]).
  - exists (q + ql)%Z; lia.
  - exists (q - ql)%Z; lia.
  - exists (q + qb)%Z; lia.
  - exists (q - qb)%Z; lia.
Qed.

Lemma grid_covers_view_witness :
  let c := {| scroll_x := -30; scroll_y := -20; zoom := 5 |} in
  exists start_x end_x start_y end_y,
    grid_bounds c = Some (start_x, end_x, start_y, end_y)
    /\ IZR start_x <= scroll_x c - 800 / zoom c
    /\ scroll_x c + 800 / zoom c < IZR end_x.
Proof.
  intros c.
  destruct (grid_covers_view c)
    as (sx & ex & sy & ey & cols & rows & Hb & _ & _ & _ & _ & Hl & Hr & _).
  - simpl; lra.
  - exists sx, ex, sy, ey; auto.
Defined.
